(** * auto-blogger-be: pipeline, scheduler and progress stream

    A shallow embedding of the parts of the NestJS back end that drive
    article generation:

    - [GeminiService.extractImagePrompts] and the placeholder handling of
      the visual-generation stage ([src/gemini/gemini.service.ts],
      [pipeline.service.ts]);
    - [PipelineService.executePipeline] ([pipeline.service.ts]);
    - [PipelineController.streamProgress] ([pipeline.controller.ts]);
    - [AgentService] and [AgentController] ([agent.service.ts],
      [agent.controller.ts]), with the configuration endpoint;
    - the slugs of [SupabaseService] and [GeminiService.suggestSlug],
      the alternative text of [GeminiService.generateAltTags]
      ([supabase.service.ts], [gemini.service.ts]);
    - [ArticlesController.generateArticle] ([articles.controller.ts]) and
      the allowed origins of the serverless [handler].

    JavaScript strings are modelled as [string], one character per code
    unit, for code units below 256.  Calls that leave the process (the
    generative model, the database, the blob store, the cron library) are
    answered by an explicit environment record. *)

From Stdlib Require Import ZArith NArith Ascii String List Bool Lia.
From stdpp Require Import base option list gmap strings.

Set Default Proof Using "Type".
Local Open Scope nat_scope.

(** ** Strings as JavaScript sees them *)

Module Js.

Definition code (a : ascii) : nat := nat_of_ascii a.

(** [WhiteSpace] and [LineTerminator] of ECMAScript, below 256:
    TAB, LF, VT, FF, CR, SP and NBSP.  This is the set of [\s] and the
    set removed by [String.prototype.trim]. *)
Definition isSpace (a : ascii) : bool :=
  let n := code a in
  (n =? 9) || (n =? 10) || (n =? 11) || (n =? 12) || (n =? 13)
  || (n =? 32) || (n =? 160).

Definition isDigit (a : ascii) : bool :=
  let n := code a in (48 <=? n) && (n <=? 57).

Definition isUpper (a : ascii) : bool :=
  let n := code a in (65 <=? n) && (n <=? 90).

(** [toLowerCase] on one code unit: A-Z, and the Latin-1 capitals
    U+00C0..U+00DE except the multiplication sign U+00D7. *)
Definition lowerChar (a : ascii) : ascii :=
  let n := code a in
  if isUpper a then ascii_of_nat (n + 32)
  else if (192 <=? n) && (n <=? 222) && negb (n =? 215)
       then ascii_of_nat (n + 32)
       else a.

Fixpoint toLowerCase (s : string) : string :=
  match s with
  | EmptyString => EmptyString
  | String a t => String (lowerChar a) (toLowerCase t)
  end.

Fixpoint trimStart (s : string) : string :=
  match s with
  | EmptyString => EmptyString
  | String a t => if isSpace a then trimStart t else s
  end.

(** [trimEnd] keeps a character when it is not white space or when
    something other than white space follows it. *)
Fixpoint trimEnd (s : string) : string :=
  match s with
  | EmptyString => EmptyString
  | String a t =>
      match trimEnd t with
      | EmptyString => if isSpace a then EmptyString else String a EmptyString
      | t' => String a t'
      end
  end.

Definition trim (s : string) : string := trimEnd (trimStart s).

Fixpoint drop (n : nat) (s : string) : string :=
  match n, s with
  | 0, _ => s
  | S n', String _ t => drop n' t
  | S _, EmptyString => EmptyString
  end.

Fixpoint take (n : nat) (s : string) : string :=
  match n, s with
  | S n', String a t => String a (take n' t)
  | _, _ => EmptyString
  end.

(** [s.substring(i, j)] for [i <= j]. *)
Definition substring (i j : nat) (s : string) : string :=
  take (j - i) (drop i s).

Fixpoint startsWith (p s : string) : bool :=
  match p, s with
  | EmptyString, _ => true
  | String a p', String b s' => Ascii.eqb a b && startsWith p' s'
  | String _ _, EmptyString => false
  end.

(** [s.includes(p)]. *)
Fixpoint includes (p s : string) : bool :=
  startsWith p s ||
  match s with
  | EmptyString => false
  | String _ t => includes p t
  end.

Definition nl : string := String (ascii_of_nat 10) EmptyString.

Fixpoint concat (l : list string) : string :=
  match l with
  | [] => EmptyString
  | x :: t => x +:+ concat t
  end.

(** [l.join(sep)]. *)
Fixpoint join (sep : string) (l : list string) : string :=
  match l with
  | [] => EmptyString
  | [x] => x
  | x :: t => x +:+ sep +:+ join sep t
  end.

(** [s.split(sep)] for a one-character separator. *)
Fixpoint splitChar (sep : ascii) (s : string) : list string :=
  match s with
  | EmptyString => [EmptyString]
  | String a t =>
      if Ascii.eqb a sep then EmptyString :: splitChar sep t
      else match splitChar sep t with
           | [] => [String a EmptyString]
           | x :: r => String a x :: r
           end
  end.

(** Decimal rendering of a number inside a template literal. *)
Definition digitChar (n : nat) : ascii := ascii_of_nat (48 + n).

Fixpoint natDigits (fuel n : nat) (acc : string) : string :=
  match fuel with
  | 0 => acc
  | S f =>
      let acc' := String (digitChar (n mod 10)) acc in
      if n <? 10 then acc' else natDigits f (n / 10) acc'
  end.

Definition ofNat (n : nat) : string := natDigits (S n) n EmptyString.

Definition ofZ (z : Z) : string :=
  match z with
  | Z0 => "0"
  | Zpos p => ofNat (Pos.to_nat p)
  | Zneg p => "-" +:+ ofNat (Pos.to_nat p)
  end.

(** Truthiness of a string: the empty string is falsy. *)
Definition truthy (s : string) : bool :=
  match s with EmptyString => false | _ => true end.

End Js.

(** ** A backtracking matcher for the regular expressions of the source

    The matcher follows the ECMAScript semantics of the constructs the
    source uses: ordered alternation, greedy and lazy quantifiers (an
    iteration that consumes nothing is rejected), capture groups,
    positive look-ahead and the start anchor. *)

Module Regex.

Inductive item : Type :=
| IChar (a : ascii)            (* a literal member *)
| IRange (lo hi : ascii)       (* lo-hi *)
| ISpace                       (* \s *)
| INotSpace                    (* \S *)
| IDigit.                      (* \d *)

Inductive re : Type :=
| Lit (s : string)                     (* a run of literal characters *)
| Cls (neg : bool) (items : list item) (* [...] and [^...] *)
| Seq (r1 r2 : re)
| Alt (r1 r2 : re)                     (* r1|r2 *)
| Star (greedy : bool) (r : re)        (* r* and r*? *)
| Plus (greedy : bool) (r : re)        (* r+ and r+? *)
| Opt (r : re)                         (* r? *)
| Grp (n : nat) (r : re)               (* capture group number n *)
| Ahead (r : re)                       (* (?=r) *)
| Bos.                                 (* ^ without the m flag *)

Definition itemMatches (a : ascii) (i : item) : bool :=
  match i with
  | IChar b => Ascii.eqb a b
  | IRange lo hi => (Js.code lo <=? Js.code a) && (Js.code a <=? Js.code hi)
  | ISpace => Js.isSpace a
  | INotSpace => negb (Js.isSpace a)
  | IDigit => Js.isDigit a
  end.

Definition clsMatches (neg : bool) (items : list item) (a : ascii) : bool :=
  xorb neg (existsb (itemMatches a) items).

(** Captures: group number to captured text; an absent group is
    [undefined]. *)
Abbreviation caps := (gmap nat string).

(** A continuation receives the position reached, the text that
    remains and the captures so far. *)
Definition cont (R : Type) : Type := nat -> string -> caps -> option R.

Definition orElse {R : Type} (x : option R) (y : unit -> option R) : option R :=
  match x with
  | Some v => Some v
  | None => y tt
  end.

(** Iterations of a quantified body.  [fuel] bounds the number of
    iterations; every iteration moves forward, so the length of the
    remaining text is enough. *)
Fixpoint iterate {R : Type}
    (body : nat -> string -> caps -> cont R -> option R)
    (greedy : bool) (k : cont R)
    (fuel pos : nat) (s : string) (c : caps) : option R :=
  match fuel with
  | 0 => k pos s c
  | S f =>
      let more := fun _ : unit =>
        body pos s c (fun pos' s' c' =>
          if pos <? pos' then iterate body greedy k f pos' s' c' else None) in
      let stop := fun _ : unit => k pos s c in
      if greedy then orElse (more tt) stop else orElse (stop tt) more
  end.

Fixpoint run (R : Type) (r : re) (pos : nat) (s : string) (c : caps)
    (k : cont R) {struct r} : option R :=
  match r with
  | Lit l =>
      if Js.startsWith l s
      then k (pos + String.length l) (Js.drop (String.length l) s) c
      else None
  | Cls neg items =>
      match s with
      | String a t => if clsMatches neg items a then k (S pos) t c else None
      | EmptyString => None
      end
  | Seq r1 r2 =>
      run R r1 pos s c (fun pos' s' c' => run R r2 pos' s' c' k)
  | Alt r1 r2 =>
      orElse (run R r1 pos s c k) (fun _ => run R r2 pos s c k)
  | Star g r1 =>
      iterate (fun p t d k' => run R r1 p t d k') g k (String.length s) pos s c
  | Plus g r1 =>
      run R r1 pos s c (fun pos' s' c' =>
        iterate (fun p t d k' => run R r1 p t d k') g k (String.length s') pos' s' c')
  | Opt r1 =>
      orElse (run R r1 pos s c k) (fun _ => k pos s c)
  | Grp n r1 =>
      run R r1 pos s c (fun pos' s' c' =>
        k pos' s' (<[n := Js.take (pos' - pos) s]> c'))
  | Ahead r1 =>
      match run caps r1 pos s c (fun _ _ c' => Some c') with
      | Some c' => k pos s c'
      | None => None
      end
  | Bos => if pos =? 0 then k pos s c else None
  end.

(** The result of one successful match: [index] and [last] delimit the
    matched text, [text] is [match[0]]. *)
Record found : Type := Found {
  index : nat;
  last : nat;
  text : string;
  groups : caps
}.

Definition group (n : nat) (m : found) : option string := groups m !! n.

(** A match that starts exactly at [pos]; [s] is the text from [pos]. *)
Definition matchAt (r : re) (pos : nat) (s : string) : option found :=
  run found r pos s ∅ (fun pos' _ c =>
    Some (Found pos pos' (Js.take (pos' - pos) s) c)).

(** The leftmost match at or after [pos]. *)
Fixpoint search (r : re) (pos : nat) (s : string) : option found :=
  match matchAt r pos s with
  | Some m => Some m
  | None =>
      match s with
      | EmptyString => None
      | String _ t => search r (S pos) t
      end
  end.

(** All matches of a global expression, as [String.prototype.replace]
    and [String.prototype.match] enumerate them: after an empty match
    the scan moves one character on. *)
Fixpoint scanFrom (r : re) (fuel pos : nat) (s : string) : list found :=
  match fuel with
  | 0 => []
  | S f =>
      match search r pos s with
      | None => []
      | Some m =>
          let next := if last m =? index m then S (last m) else last m in
          m :: (if next - pos <=? String.length s
                then scanFrom r f next (Js.drop (next - pos) s)
                else [])
      end
  end.

Definition scan (r : re) (s : string) : list found :=
  scanFrom r (S (String.length s)) 0 s.

(** The loop [while ((m = re.exec(s)) !== null)] of a global
    expression: [lastIndex] becomes the end of the match, so an empty
    match is found again for ever.  [None] stands for that loop not
    ending. *)
Fixpoint execLoopFrom (r : re) (fuel pos : nat) (s : string)
    : option (list found) :=
  match fuel with
  | 0 => None
  | S f =>
      match search r pos s with
      | None => Some []
      | Some m =>
          if last m <=? index m then None
          else match execLoopFrom r f (last m) (Js.drop (last m - pos) s) with
               | Some ms => Some (m :: ms)
               | None => None
               end
      end
  end.

Definition execLoop (r : re) (s : string) : option (list found) :=
  execLoopFrom r (S (String.length s)) 0 s.

(** [s.match(re)] for a global expression: the matched texts, or
    [null] when there is none. *)
Definition matchGlobal (r : re) (s : string) : option (list string) :=
  match scan r s with
  | [] => None
  | ms => Some (map text ms)
  end.

(** Expansion of a replacement string for an expression without
    capture groups: [$$], [$&], [$`] and [$'] are special, every other
    character stands for itself. *)
Fixpoint expand (whole : string) (m : found) (repl : string) : string :=
  match repl with
  | EmptyString => EmptyString
  | String a t =>
      if Ascii.eqb a "$"%char then
        match t with
        | String b u =>
            if Ascii.eqb b "$"%char then String "$"%char (expand whole m u)
            else if Ascii.eqb b "&"%char then text m +:+ expand whole m u
            else if Ascii.eqb b "`"%char
                 then Js.take (index m) whole +:+ expand whole m u
            else if Ascii.eqb b "'"%char
                 then Js.drop (last m) whole +:+ expand whole m u
            else String a (expand whole m t)
        | EmptyString => String a EmptyString
        end
      else String a (expand whole m t)
  end.

(** Splicing the replacements into the text; [from] is the position up
    to which [whole] has been copied. *)
Fixpoint splice (whole : string) (render : found -> string)
    (from : nat) (ms : list found) : string :=
  match ms with
  | [] => Js.drop from whole
  | m :: rest =>
      Js.substring from (index m) whole +:+ render m
      +:+ splice whole render (last m) rest
  end.

(** [s.replace(re, repl)] for a global expression and a replacement
    string. *)
Definition replaceAll (r : re) (repl : string) (s : string) : string :=
  splice s (fun m => expand s m repl) 0 (scan r s).

(** [s.replace(re, repl)] for an expression without the g flag. *)
Definition replaceFirst (r : re) (repl : string) (s : string) : string :=
  match search r 0 s with
  | None => s
  | Some m => splice s (fun m => expand s m repl) 0 [m]
  end.

(** The capture groups an expression can set. *)
Fixpoint groupsOf (r : re) : list nat :=
  match r with
  | Lit _ | Cls _ _ | Bos => []
  | Seq r1 r2 | Alt r1 r2 => groupsOf r1 ++ groupsOf r2
  | Star _ r1 | Plus _ r1 | Opt r1 | Ahead r1 => groupsOf r1
  | Grp n r1 => n :: groupsOf r1
  end.

(** What a successful run promises: the continuation succeeded, [n]
    characters further, and the captures outside [gs] are those
    given. *)
Definition reaches {R : Type} (gs : list nat) (pos : nat) (s : string)
    (c : caps) (k : cont R) (x : R) : Prop :=
  exists n c', n <= String.length s
    /\ k (pos + n) (Js.drop n s) c' = Some x
    /\ forall g, g ∉ gs -> c' !! g = c !! g.

(** Matches that follow one another from position [lo] on: each one
    is not empty and starts at or after the end of the one before. *)
Inductive ascending : nat -> list found -> Prop :=
| ascending_nil lo : ascending lo []
| ascending_cons lo m ms :
    lo <= index m -> index m < last m -> ascending (last m) ms ->
    ascending lo (m :: ms).

(** An expression whose matches are never empty. *)
Definition productive (r : re) : Prop :=
  forall pos s m, matchAt r pos s = Some m -> index m < last m.

End Regex.

(** ** GeminiService: the pure placeholder extraction *)

Module Gemini.
Import Regex.

Infix ">>" := Seq (at level 62, right associativity).

Definition LF : ascii := ascii_of_nat 10.
Definition ws : re := Star true (Cls false [ISpace]).      (* \s* *)
Definition ws1 : re := Plus true (Cls false [ISpace]).     (* \s+ *)
Definition digits : re := Plus true (Cls false [IDigit]).  (* \d+ *)

(** [/\[IMAGE_PROMPT_(\d+)\](?:\s*:\s*([^\n<]+)|(?:\s*<!--\s*Image:\s*([^-]+?)\s*-->))?/g] *)
Definition promptRegex : re :=
  Lit "[IMAGE_PROMPT_" >> Grp 1 digits >> Lit "]" >>
  Opt (Alt
    (ws >> Lit ":" >> ws >> Grp 2 (Plus true (Cls true [IChar LF; IChar "<"])))
    (ws >> Lit "<!--" >> ws >> Lit "Image:" >> ws >>
     Grp 3 (Plus false (Cls true [IChar "-"])) >> ws >> Lit "-->")).

(** [/##\s+([^\n]+)/g] *)
Definition h2Regex : re :=
  Lit "##" >> ws1 >> Grp 1 (Plus true (Cls true [IChar LF])).

(** [/^##\s+/] *)
Definition h2Prefix : re := Bos >> Lit "##" >> ws1.

Record ImagePrompt : Type := {
  prompt : string;
  placeholder : string
}.

(** [a || b] on values that are a string or [undefined]. *)
Definition orUndefined (a b : option string) : option string :=
  match a with
  | Some t => if Js.truthy t then Some t else b
  | None => b
  end.

(** The nearest heading before position [i], as the source finds it:
    the last match of [h2Regex] in [content.substring(0, i)]. *)
Definition headingBefore (content : string) (i : nat) : option string :=
  match matchGlobal h2Regex (Js.substring 0 i content) with
  | Some h2Matches =>
      match List.last (map Some h2Matches) None with
      | Some h => Some (replaceFirst h2Prefix "" h)
      | None => None
      end
  | None => None
  end.

(** [(match[3] || match[2])?.trim()], when it is a truthy string. *)
Definition annotation (m : found) : option string :=
  match Js.trim <$> orUndefined (group 3 m) (group 2 m) with
  | Some p => if Js.truthy p then Some p else None
  | None => None
  end.

(** The body of the [while] loop for one match. *)
Definition promptOfMatch (content : string) (m : found) : ImagePrompt :=
  let placeholderNum := default "" (group 1 m) in
  {| prompt :=
       match annotation m with
       | Some p => p
       | None =>
           match headingBefore content (index m) with
           | Some lastH2 => "Illustration for: " +:+ lastH2
           | None => "Blog section illustration " +:+ placeholderNum
           end
       end;
     placeholder := "[IMAGE_PROMPT_" +:+ placeholderNum +:+ "]" |}.

(** [extractImagePrompts(content)]; [None] would mean that the loop
    does not end. *)
Definition extractImagePrompts (content : string) : option (list ImagePrompt) :=
  map (promptOfMatch content) <$> execLoop promptRegex content.

End Gemini.

(** ** SupabaseService: the records and tables the pipeline writes *)

Module Supabase.

Inductive Status : Type := draft | processing | review | published.

Record H2 : Type := { h2 : string; h3s : list string }.

(** [Article]; the slug and the time stamps play no part below and are
    left out. *)
Record Article : Type := {
  id : string;
  topic : option string;
  title : string;
  content_markdown : option string;
  meta_description : option string;
  keywords : list string;
  h2_structure : list H2;
  status : Status;
  thumbnail_url : option string;
  category_id : option string;
  author_id : option string
}.

(** One assignment of a [Partial<Article>]. *)
Inductive Update : Type :=
| SetTitle (v : string)
| SetContent (v : string)
| SetMeta (v : string)
| SetKeywords (v : list string)
| SetH2 (v : list H2)
| SetStatus (v : Status)
| SetThumbnail (v : string)
| SetCategory (v : string).

Definition applyUpdate (a : Article) (u : Update) : Article :=
  let 'Build_Article i tp ti co me ke hs st th ca au := a in
  match u with
  | SetTitle v => Build_Article i tp v co me ke hs st th ca au
  | SetContent v => Build_Article i tp ti (Some v) me ke hs st th ca au
  | SetMeta v => Build_Article i tp ti co (Some v) ke hs st th ca au
  | SetKeywords v => Build_Article i tp ti co me v hs st th ca au
  | SetH2 v => Build_Article i tp ti co me ke v st th ca au
  | SetStatus v => Build_Article i tp ti co me ke hs v th ca au
  | SetThumbnail v => Build_Article i tp ti co me ke hs st (Some v) ca au
  | SetCategory v => Build_Article i tp ti co me ke hs st th (Some v) au
  end.

Definition applyUpdates (a : Article) (us : list Update) : Article :=
  fold_left applyUpdate us a.

Record ArticleImage : Type := {
  image_id : string;
  image_article : string;
  image_prompt : string;
  storage_url : option string;
  position : nat
}.

Record ArticleComponent : Type := {
  component_article : string;
  component_type : string;
  config : string
}.

Record Db : Type := {
  articles : gmap string Article;
  article_images : list ArticleImage;
  article_components : list ArticleComponent;
  blobs : list (string * string)           (* path and bytes *)
}.

Definition withArticles (f : gmap string Article -> gmap string Article)
    (d : Db) : Db :=
  {| articles := f (articles d); article_images := article_images d;
     article_components := article_components d; blobs := blobs d |}.

Definition withImages (f : list ArticleImage -> list ArticleImage)
    (d : Db) : Db :=
  {| articles := articles d; article_images := f (article_images d);
     article_components := article_components d; blobs := blobs d |}.

Definition withComponents (f : list ArticleComponent -> list ArticleComponent)
    (d : Db) : Db :=
  {| articles := articles d; article_images := article_images d;
     article_components := f (article_components d); blobs := blobs d |}.

Definition withBlobs (f : list (string * string) -> list (string * string))
    (d : Db) : Db :=
  {| articles := articles d; article_images := article_images d;
     article_components := article_components d; blobs := f (blobs d) |}.

Definition setStorageUrl (img : string) (url : string) (r : ArticleImage)
    : ArticleImage :=
  if String.eqb (image_id r) img
  then {| image_id := image_id r; image_article := image_article r;
          image_prompt := image_prompt r; storage_url := Some url;
          position := position r |}
  else r.

(** The status the table holds for an article. *)
Definition statusOf (d : Db) (i : string) : option Status :=
  status <$> articles d !! i.

End Supabase.

(** ** Awaited calls, exceptions and state *)

Module Effect.

(** A thrown value, with what [String(error)] and [error.message]
    read from it. *)
Record JsError : Type := { name : string; message : string }.

Definition render (e : JsError) : string :=
  match name e, message e with
  | EmptyString, m => m
  | n, EmptyString => n
  | n, m => n +:+ ": " +:+ m
  end.

Definition newError (m : string) : JsError := {| name := "Error"; message := m |}.

(** How an awaited call ends: with a value, with a thrown error, or
    not at all. *)
Inductive outcome (A : Type) : Type :=
| Ok (a : A)
| Throw (e : JsError)
| Hang.
Arguments Ok {A} a.
Arguments Throw {A} e.
Arguments Hang {A}.

(** A computation over a state [S]. *)
Definition M (S A : Type) : Type := S -> outcome A * S.

Section Ops.
Context {S : Type}.

Definition ret {A : Type} (a : A) : M S A := fun st => (Ok a, st).

Definition bind {A B : Type} (m : M S A) (f : A -> M S B) : M S B :=
  fun st =>
    match m st with
    | (Ok a, st') => f a st'
    | (Throw e, st') => (Throw e, st')
    | (Hang, st') => (Hang, st')
    end.

Definition throw {A : Type} (e : JsError) : M S A := fun st => (Throw e, st).

Definition hang {A : Type} : M S A := fun st => (Hang, st).

(** [try { body } catch (error) { handler }] *)
Definition tryCatch {A : Type} (body : M S A) (handler : JsError -> M S A)
    : M S A :=
  fun st =>
    match body st with
    | (Throw e, st') => handler e st'
    | r => r
    end.

Definition modify (f : S -> S) : M S unit := fun st => (Ok tt, f st).

Definition gets {A : Type} (f : S -> A) : M S A := fun st => (Ok (f st), st).

(** [keeps P m]: started in a state where [P] holds, [m] ends in
    such a state, however it ends. *)
Definition keeps {A : Type} (P : S -> Prop) (m : M S A) : Prop :=
  forall st o st', P st -> m st = (o, st') -> P st'.

(** [noThrow m]: no exception leaves [m]. *)
Definition noThrow {A : Type} (m : M S A) : Prop :=
  forall st o st', m st = (o, st') -> forall e, o <> Throw e.

(** [settles m]: [m] ends, with a value or with an exception. *)
Definition settles {A : Type} (m : M S A) : Prop :=
  forall st o st', m st = (o, st') -> o <> Hang.

End Ops.

Notation "x <- m ;; k" := (bind m (fun x => k))
  (at level 100, m at next level, right associativity).
Notation "m ;; k" := (bind m (fun _ => k))
  (at level 100, right associativity).

End Effect.

(** ** PipelineService *)

Module Pipeline.
Import Supabase Gemini.
Export Effect.

(** [pipeline.log] events on the event emitter. *)
Record Event : Type := {
  ev_topic : option string;
  ev_stage : string;
  ev_message : string
}.

Record Stages : Type := {
  seoResearch : bool;
  writing : bool;
  humanizing : bool;
  visualGeneration : bool;
  interactive : bool;
  finalReview : bool
}.

Record PipelineResult : Type := {
  article : option Article;
  stages : Stages;
  errors : list string
}.

Inductive Stage : Type :=
| SeoResearch | Writing | Humanizing | VisualGeneration | Interactive | FinalReview.

Definition markStage (g : Stage) (t : Stages) : Stages :=
  let 'Build_Stages a b c d e f := t in
  match g with
  | SeoResearch => Build_Stages true b c d e f
  | Writing => Build_Stages a true c d e f
  | Humanizing => Build_Stages a b true d e f
  | VisualGeneration => Build_Stages a b c true e f
  | Interactive => Build_Stages a b c d true f
  | FinalReview => Build_Stages a b c d e true
  end.

(** Requests to the generative model, by the method that sends them. *)
Inductive GeminiCall : Type :=
| AskSlug | AskCategory | AskSeo | AskArticle | AskHumanize
| AskImage (i : nat) | AskAltTags (i : nat) | AskInteractive | AskFinalReview.

(** Calls of [SupabaseService], by call site. *)
Inductive StoreCall : Type :=
| CreateArticle | GetAllCategories | FindOrCreateCategory | UpdateArticleCategory
| UpdateSeo | UpdateWriting | UpdateHumanized
| UploadThumbnail | UpdateThumbnail
| CreateArticleImage (i : nat) | UploadImage (i : nat) | UpdateImageUrl (i : nat)
| UpdateVisual | CreateComponent | UpdateReviewed | MarkReview | MarkDraft.

Record SeoData : Type := {
  seo_keywords : list string;
  seo_h2Structure : list H2;
  seo_metaDescription : string
}.

Record ArticleContent : Type := { ac_title : string; ac_content : string }.

Record Component : Type := { c_type : string; c_config : string }.

Record Category : Type := { cat_id : string; cat_name : string }.

Record CategorySuggestion : Type := {
  categoryName : string;
  description : option string
}.

(** The answers of the collaborators during one run.  The methods of
    [GeminiService] that catch their own failures
    ([generateImage], [generateAltTags], [finalReviewAndRestructure])
    answer with a plain value. *)
Record Env : Type := {
  suggestSlug : outcome string;
  suggestCategory : outcome CategorySuggestion;
  seoResearchAnswer : outcome SeoData;
  writeArticle : outcome ArticleContent;
  humanizeContent : outcome string;
  generateImage : nat -> option string;     (* 0 is the thumbnail *)
  generateAltTags : nat -> string;
  generateInteractiveComponent : outcome (option Component);
  finalReviewAndRestructure : string -> string;
  storeError : StoreCall -> option JsError; (* the store call fails *)
  newArticleId : string;
  allCategories : list Category;
  foundCategory : Category;
  newImageId : nat -> string;
  publicUrl : string -> string
}.

(** The state a run works on: the database, the events emitted, the
    requests sent, the object [result] and the variable
    [articleContent.content]. *)
Record St : Type := {
  db : Db;
  emitted : list Event;
  asked : list GeminiCall;
  result : PipelineResult;
  content : string
}.

Abbreviation M := (Effect.M St).

Definition withDb (f : Db -> Db) (st : St) : St :=
  {| db := f (db st); emitted := emitted st; asked := asked st;
     result := result st; content := content st |}.

Definition withResult (f : PipelineResult -> PipelineResult) (st : St) : St :=
  {| db := db st; emitted := emitted st; asked := asked st;
     result := f (result st); content := content st |}.

Definition setContent (c : string) : M unit :=
  modify (fun st =>
    {| db := db st; emitted := emitted st; asked := asked st;
       result := result st; content := c |}).

(** [result.errors.push(e)] *)
Definition pushError (e : string) : M unit :=
  modify (withResult (fun r =>
    {| article := article r; stages := stages r; errors := errors r ++ [e] |})).

(** [result.stages.<g> = true] *)
Definition stageDone (g : Stage) : M unit :=
  modify (withResult (fun r =>
    {| article := article r; stages := markStage g (stages r);
       errors := errors r |})).

(** [result.article = a] *)
Definition setArticle (a : Article) : M unit :=
  modify (withResult (fun r =>
    {| article := Some a; stages := stages r; errors := errors r |})).

Section Run.
Variable env : Env.
Variable topic : string.
Variable author : option string.

(** [this.eventEmitter.emit('pipeline.log', { topic, stage, message })] *)
Definition emit (stage msg : string) : M unit :=
  modify (fun st =>
    {| db := db st;
       emitted := emitted st ++
         [{| ev_topic := Some topic; ev_stage := stage; ev_message := msg |}];
       asked := asked st; result := result st; content := content st |}).

(** A request to the generative model and its answer. *)
Definition ask {A : Type} (c : GeminiCall) (answer : outcome A) : M A :=
  fun st =>
    (answer,
     {| db := db st; emitted := emitted st; asked := asked st ++ [c];
        result := result st; content := content st |}).

(** A store call: it throws when the environment says so, and
    otherwise has its effect on the database. *)
Definition store (c : StoreCall) (effect : Db -> Db) : M unit :=
  fun st =>
    match storeError env c with
    | Some e => (Throw e, st)
    | None => (Ok tt, withDb effect st)
    end.

(** [supabaseService.createArticle(topic, author_id, aiSlug)] *)
Definition createArticle : M Article :=
  let a := {| id := newArticleId env; Supabase.topic := Some topic;
              title := Js.take 500 topic; content_markdown := None;
              meta_description := None; keywords := [];
              h2_structure := []; status := processing;
              thumbnail_url := None; category_id := None;
              author_id := author |} in
  store CreateArticle (withArticles (fun m => <[id a := a]> m)) ;;
  ret a.

(** [supabaseService.updateArticle(id, updates)]: the update selects
    the row by id and fails when there is none. *)
Definition updateArticle (c : StoreCall) (i : string) (us : list Update)
    : M Article :=
  row <- gets (fun st => articles (db st) !! i) ;;
  match row with
  | None =>
      match storeError env c with
      | Some e => throw e
      | None => throw {| name := "PostgrestError"; message := "no rows" |}
      end
  | Some a =>
      let a' := applyUpdates a us in
      store c (withArticles (fun m => <[i := a']> m)) ;;
      ret a'
  end.

(** [supabaseService.uploadImage(articleId, buffer, filename)] *)
Definition uploadImage (c : StoreCall) (i : string) (buffer filename : string)
    : M string :=
  let path := "articles/" +:+ i +:+ "/" +:+ filename in
  store c (withBlobs (fun b => b ++ [(path, buffer)])) ;;
  ret (publicUrl env path).

(** [supabaseService.createArticleImage(articleId, prompt, position)] *)
Definition createArticleImage (n : nat) (i prompt : string) : M ArticleImage :=
  let r := {| image_id := newImageId env n; image_article := i;
              image_prompt := prompt; storage_url := None; position := n |} in
  store (CreateArticleImage n) (withImages (fun l => l ++ [r])) ;;
  ret r.

(** [supabaseService.updateImageUrl(imageId, url)] *)
Definition updateImageUrl (n : nat) (img url : string) : M unit :=
  store (UpdateImageUrl n) (withImages (map (setStorageUrl img url))).

(** [supabaseService.createComponent(articleId, type, config)] *)
Definition createComponent (i : string) (c : Component) : M unit :=
  store CreateComponent (withComponents (fun l =>
    l ++ [{| component_article := i; component_type := c_type c;
             config := c_config c |}])).


(** The optional tail the stage appends to the escaped placeholder:
    [(?:\s*:\s*[^\n\!]+|\s*<!--[\s\S]*?-->|\s*(?=[A-Z]))?] *)
Definition placeholderTail : Regex.re :=
  Regex.Opt (Regex.Alt
    (ws >> Regex.Lit ":" >> ws >>
     Regex.Plus true (Regex.Cls true [Regex.IChar LF; Regex.IChar "!"]))
    (Regex.Alt
      (ws >> Regex.Lit "<!--" >>
       Regex.Star false (Regex.Cls false [Regex.ISpace; Regex.INotSpace]) >>
       Regex.Lit "-->")
      (ws >> Regex.Ahead (Regex.Cls false [Regex.IRange "A" "Z"])))).

(** [new RegExp(escapedPlaceholder + tail, 'g')].  The source puts a
    backslash before every syntax character of the placeholder, so
    the compiled expression begins with the placeholder, read
    literally. *)
Definition fullPlaceholderRegex (placeholder : string) : Regex.re :=
  Regex.Lit placeholder >> placeholderTail.

(** The clean-up expression, as the source writes it:
    [/\[IMAGE_PROMPT_\d+\](?:\s*:\s*[^n\!]+|\s*<!--[\s\S]*?-->|\s*(?=[A-Z]))?/g] *)
Definition cleanupRegex : Regex.re :=
  Regex.Lit "[IMAGE_PROMPT_" >> digits >> Regex.Lit "]" >>
  Regex.Opt (Regex.Alt
    (ws >> Regex.Lit ":" >> ws >>
     Regex.Plus true (Regex.Cls true [Regex.IChar "n"; Regex.IChar "!"]))
    (Regex.Alt
      (ws >> Regex.Lit "<!--" >>
       Regex.Star false (Regex.Cls false [Regex.ISpace; Regex.INotSpace]) >>
       Regex.Lit "-->")
      (ws >> Regex.Ahead (Regex.Cls false [Regex.IRange "A" "Z"])))).

(** The final clean-up of stage 4. *)
Definition cleanup (c : string) : string :=
  Js.trim (Regex.replaceAll cleanupRegex "" c).

(** The thumbnail, with its own [try]/[catch]. *)
Definition thumbnail (i : string) : M unit :=
  tryCatch
    (thumbBuffer <- ask (AskImage 0) (Ok (generateImage env 0)) ;;
     match thumbBuffer with
     | Some buffer =>
         thumbUrl <- uploadImage UploadThumbnail i buffer "thumbnail.png" ;;
         _ <- updateArticle UpdateThumbnail i [SetThumbnail thumbUrl] ;;
         ret tt
     | None => ret tt
     end)
    (fun _ => ret tt).

(** One turn of the loop over the image prompts; [n] is [i + 1]. *)
Definition processImage (i : string) (n : nat) (p : ImagePrompt) : M unit :=
  imageRecord <- createArticleImage n i (prompt p) ;;
  tryCatch
    (imageBuffer <- ask (AskImage n) (Ok (generateImage env n)) ;;
     match imageBuffer with
     | Some buffer =>
         imageUrl <- uploadImage (UploadImage n) i buffer
                       ("image-" +:+ Js.ofNat n +:+ ".png") ;;
         updateImageUrl n (image_id imageRecord) imageUrl ;;
         altTag <- ask (AskAltTags n) (Ok (generateAltTags env n)) ;;
         let imageMarkdown :=
           Js.nl +:+ Js.nl +:+ "![" +:+ altTag +:+ "](" +:+ imageUrl +:+ ")"
           +:+ Js.nl +:+ Js.nl in
         c <- gets content ;;
         setContent
           (Regex.replaceAll (fullPlaceholderRegex (placeholder p))
              imageMarkdown c)
     | None => ret tt
     end)
    (fun _ => ret tt).

Fixpoint processImages (i : string) (n : nat) (ps : list ImagePrompt)
    : M unit :=
  match ps with
  | [] => ret tt
  | p :: rest => processImage i n p ;; processImages i (S n) rest
  end.

(** Stage 4. *)
Definition visualStage (i : string) : M unit :=
  tryCatch
    (thumbnail i ;;
     emit "visualGeneration" "Generating related image prompts and assets..." ;;
     c <- gets content ;;
     match extractImagePrompts c with
     | None => hang
     | Some imagePrompts =>
         processImages i 1 (firstn 3 imagePrompts) ;;
         c' <- gets content ;;
         setContent (cleanup c') ;;
         _ <- updateArticle UpdateVisual i [SetContent (cleanup c')] ;;
         stageDone VisualGeneration
     end)
    (fun error => pushError ("Visual generation failed: " +:+ render error)).

(** Stage 0. *)
Definition categoryStage (i : string) : M unit :=
  tryCatch
    (store GetAllCategories (fun d => d) ;;
     suggestion <- ask AskCategory (suggestCategory env) ;;
     store FindOrCreateCategory (fun d => d) ;;
     let category := foundCategory env in
     _ <- updateArticle UpdateArticleCategory i [SetCategory (cat_id category)] ;;
     ret tt)
    (fun error => pushError ("Category assignment failed: " +:+ render error)).

(** Stage 1, with the fallback structure of its [catch]. *)
Definition seoStage (i : string) : M SeoData :=
  emit "seoResearch" "Performing SEO research and keyword optimization..." ;;
  tryCatch
    (seoData <- ask AskSeo (seoResearchAnswer env) ;;
     _ <- updateArticle UpdateSeo i
            [SetKeywords (seo_keywords seoData);
             SetH2 (seo_h2Structure seoData);
             SetMeta (seo_metaDescription seoData)] ;;
     stageDone SeoResearch ;;
     ret seoData)
    (fun error =>
       pushError ("SEO Research failed: " +:+ render error) ;;
       ret {| seo_keywords := [topic];
              seo_h2Structure :=
                [ {| h2 := "Introduction"; h3s := [] |};
                  {| h2 := "Main Content"; h3s := [] |};
                  {| h2 := "Conclusion"; h3s := [] |} ];
              seo_metaDescription := "Learn about " +:+ topic |}).

(** Stage 2: its [catch] records the failure and throws again. *)
Definition writingStage (i : string) (seoData : SeoData) : M unit :=
  emit "writing" "Writing comprehensive article content (1200+ words)..." ;;
  tryCatch
    (articleContent <- ask AskArticle (writeArticle env) ;;
     _ <- updateArticle UpdateWriting i
            [SetTitle (ac_title articleContent);
             SetContent (ac_content articleContent)] ;;
     stageDone Writing ;;
     setContent (ac_content articleContent))
    (fun error =>
       pushError ("Writing failed: " +:+ render error) ;;
       throw (newError "Critical: Writing stage failed")).

(** Stage 3. *)
Definition humanizingStage (i : string) : M unit :=
  emit "humanizing" "Applying human-like tone and reducing AI patterns..." ;;
  tryCatch
    (humanizedContent <- ask AskHumanize (humanizeContent env) ;;
     _ <- updateArticle UpdateHumanized i [SetContent humanizedContent] ;;
     setContent humanizedContent ;;
     stageDone Humanizing)
    (fun error => pushError ("Humanizing failed: " +:+ render error)).

(** Stage 5. *)
Definition interactiveStage (i : string) : M unit :=
  emit "interactive" "Analyzing content for interactive opportunities..." ;;
  tryCatch
    (component <- ask AskInteractive (generateInteractiveComponent env) ;;
     match component with
     | Some c => createComponent i c
     | None => ret tt
     end ;;
     stageDone Interactive)
    (fun error => pushError ("Interactive component failed: " +:+ render error)).

(** Stage 6. *)
Definition finalReviewStage (i : string) : M unit :=
  emit "finalReview" "Performing final quality check and restructuring..." ;;
  tryCatch
    (c <- gets content ;;
     reviewedContent <- ask AskFinalReview (Ok (finalReviewAndRestructure env c)) ;;
     _ <- updateArticle UpdateReviewed i [SetContent reviewedContent] ;;
     setContent reviewedContent ;;
     stageDone FinalReview)
    (fun error => pushError ("Final review failed: " +:+ render error)).

(** The body of the outer [try]. *)
Definition pipelineBody : M unit :=
  emit "seoResearch" ("Initializing pipeline for: " +:+ topic) ;;
  aiSlug <- tryCatch
              (emit "seoResearch" "Suggesting SEO-friendly slug..." ;;
               slug <- ask AskSlug (suggestSlug env) ;;
               ret (Some slug))
              (fun _ => ret None) ;;
  a <- createArticle ;;
  setArticle a ;;
  let i := id a in
  categoryStage i ;;
  seoData <- seoStage i ;;
  writingStage i seoData ;;
  humanizingStage i ;;
  visualStage i ;;
  interactiveStage i ;;
  finalReviewStage i ;;
  a' <- updateArticle MarkReview i [SetStatus review] ;;
  setArticle a' ;;
  emit "finalReview"
    "Pipeline completed successfully. Article is ready for preview.".

(** The outer [catch]. *)
Definition pipelineFailed (error : JsError) : M unit :=
  r <- gets result ;;
  match article r with
  | Some a =>
      if Js.truthy (id a)
      then _ <- updateArticle MarkDraft (id a) [SetStatus draft] ;; ret tt
      else ret tt
  | None => ret tt
  end ;;
  pushError ("Pipeline failed: " +:+ render error).

Definition executePipelineM : M PipelineResult :=
  tryCatch pipelineBody pipelineFailed ;;
  gets result.

Definition noStages : Stages :=
  {| seoResearch := false; writing := false; humanizing := false;
     visualGeneration := false; interactive := false; finalReview := false |}.

Definition start (d : Db) : St :=
  {| db := d; emitted := []; asked := [];
     result := {| article := None; stages := noStages; errors := [] |};
     content := "" |}.

(** [executePipeline(topic, author_id)] on a database [d]: how the
    call ends, and the state it leaves. *)
Definition executePipeline (d : Db) : outcome PipelineResult * St :=
  executePipelineM (start d).

End Run.

(** *** What the statements below speak of *)

(** The error with which stage 2 fails in an environment: the request
    fails, or the update that stores its answer does. *)
Definition writingFailure (env : Env) : option JsError :=
  match writeArticle env with
  | Throw e => Some e
  | Ok _ => storeError env UpdateWriting
  | Hang => None
  end.

(** Entries of [errors] that stages 0 and 1 write. *)
Definition earlyError (e : string) : Prop :=
  Js.startsWith "Category assignment failed: " e = true
  \/ Js.startsWith "SEO Research failed: " e = true.

(** Entries of [errors] that stages 3 to 6 write. *)
Definition lateError (e : string) : Prop :=
  Js.startsWith "Humanizing failed: " e = true
  \/ Js.startsWith "Visual generation failed: " e = true
  \/ Js.startsWith "Interactive component failed: " e = true
  \/ Js.startsWith "Final review failed: " e = true.

(** Events that are emitted before stage 3 begins. *)
Definition earlyEvent (ev : Event) : Prop :=
  ev_stage ev = "seoResearch" \/ ev_stage ev = "writing".

(** Requests that are sent before stage 3 begins. *)
Definition earlyCall (c : GeminiCall) : Prop :=
  c = AskSlug \/ c = AskCategory \/ c = AskSeo \/ c = AskArticle.

(** Stages 2 to 6 have not completed. *)
Definition fromWritingOff (t : Stages) : Prop :=
  writing t = false /\ humanizing t = false /\ visualGeneration t = false
  /\ interactive t = false /\ finalReview t = false.

(** A failure is fatal for a run when an exception leaves the body
    of the outer [try] and reaches its [catch]. *)
Definition fatalFailure (env : Env) (topic : string) (author : option string)
    (d : Db) : Prop :=
  exists e st, pipelineBody env topic author (start d) = (Throw e, st).

(** Every request to the generative model is answered, with a value
    or with an error. *)
Definition answered (env : Env) : Prop :=
  suggestSlug env <> Hang /\ suggestCategory env <> Hang
  /\ seoResearchAnswer env <> Hang /\ writeArticle env <> Hang
  /\ humanizeContent env <> Hang /\ generateInteractiveComponent env <> Hang.

(** [result] holds the record [a]. *)
Definition hasArticle (a : Article) (st : St) : Prop :=
  article (result st) = Some a.

(** The table holds a row for [i], with that id and status [s]. *)
Definition hasStatus (i : string) (s : Status) (st : St) : Prop :=
  exists a, articles (db st) !! i = Some a /\ id a = i /\ status a = s.

(** An assignment that leaves the status alone. *)
Definition noStatus (u : Update) : Prop :=
  match u with SetStatus _ => False | _ => True end.

(** [result] holds no record. *)
Definition noArticle (st : St) : Prop := article (result st) = None.

(** The first [try] of the run: the slug. *)
Definition slugStep (env : Env) (topic : string) : M (option string) :=
  tryCatch
    (emit topic "seoResearch" "Suggesting SEO-friendly slug..." ;;
     slug <- ask AskSlug (suggestSlug env) ;;
     ret (Some slug))
    (fun _ => ret None).

(** Nothing of stage 3 or later has left a trace. *)
Definition early (st : St) : Prop :=
  Forall earlyError (errors (result st))
  /\ Forall earlyEvent (emitted st)
  /\ Forall earlyCall (asked st)
  /\ fromWritingOff (stages (result st)).

Definition criticalWriting : JsError := newError "Critical: Writing stage failed".

(** The state when stage 2 has failed with [e]. *)
Definition afterWritingFailure (e : JsError) (st : St) : Prop :=
  (exists pre, errors (result st) = pre ++ ["Writing failed: " +:+ render e]
               /\ Forall earlyError pre)
  /\ Forall earlyEvent (emitted st)
  /\ Forall earlyCall (asked st)
  /\ fromWritingOff (stages (result st)).

(** How the body of the outer [try] can end, from a fresh [result]. *)
Definition bodyEnds (env : Env) (o : outcome unit) (st1 : St) : Prop :=
  match o with
  | Hang => True
  | Ok _ =>
      storeError env CreateArticle = None
      /\ writingFailure env = None
      /\ storeError env MarkReview = None
      /\ (exists a, hasArticle a st1 /\ id a = newArticleId env)
      /\ hasStatus (newArticleId env) review st1
  | Throw e =>
      (storeError env CreateArticle = Some e /\ noArticle st1)
      \/ (storeError env CreateArticle = None
          /\ (exists a, hasArticle a st1 /\ id a = newArticleId env)
          /\ hasStatus (newArticleId env) processing st1
          /\ ((exists e', writingFailure env = Some e' /\ e = criticalWriting
                          /\ afterWritingFailure e' st1)
              \/ (writingFailure env = None
                  /\ storeError env MarkReview = Some e)))
  end.

(** An entry of [errors] that speaks of the writing stage. *)
Definition writingRelated (e : string) : bool := Js.includes "Writing" e.

End Pipeline.

(** ** PipelineController: the progress stream *)

Module Stream.
Import Pipeline.

(** The [data] of a [MessageEvent]. *)
Record MessageData : Type := {
  message : string;
  stage : string;
  timestamp : string
}.

(** [connectedEvent]; [t] is [new Date().toISOString()] at the time of
    the call. *)
Definition connectedEvent (t : string) : MessageData :=
  {| message := "Successfully connected to pipeline stream.";
     stage := "System"; timestamp := t |}.

(** [x?.toLowerCase().trim()] *)
Definition normalize (x : option string) : option string :=
  (fun t => Js.trim (Js.toLowerCase t)) <$> x.

(** The predicate of [filter]:
    [event.topic?.toLowerCase().trim() === topic?.toLowerCase().trim()].
    The route parameter [topic] is a string. *)
Definition matchesTopic (topic : string) (event : Event) : bool :=
  match normalize (ev_topic event), normalize (Some topic) with
  | Some a, Some b => String.eqb a b
  | None, None => true
  | _, _ => false
  end.

(** The function of [map]. *)
Definition toMessage (event : Event) (t : string) : MessageData :=
  {| message := ev_message event; stage := ev_stage event; timestamp := t |}.

(** A client of [streamProgress]: the topic it asked for and what it
    has been sent so far. *)
Record Subscriber : Type := {
  sub_topic : string;
  received : list MessageData
}.

(** The listeners of ['pipeline.log'], in the order they subscribed. *)
Definition Bus : Type := list Subscriber.

(** A client subscribes to the observable [streamProgress(topic)]
    returns: [subscriber.next(connectedEvent)], then the filtered
    events are forwarded. *)
Definition streamProgress (topic t : string) (bus : Bus) : Bus :=
  bus ++ [{| sub_topic := topic; received := [connectedEvent t] |}].

Definition deliver (event : Event) (t : string) (s : Subscriber) : Subscriber :=
  if matchesTopic (sub_topic s) event
  then {| sub_topic := sub_topic s;
          received := received s ++ [toMessage event t] |}
  else s.

(** [eventEmitter.emit('pipeline.log', event)]; [t] is the time at
    which the listeners run. *)
Definition emit (event : Event) (t : string) (bus : Bus) : Bus :=
  map (deliver event t) bus.

(** Events published one after the other, each with its time. *)
Definition emitAll (events : list (Event * string)) (bus : Bus) : Bus :=
  fold_left (fun b e => emit (fst e) (snd e) b) events bus.

(** What the client connected last has received. *)
Definition receivedByLast (bus : Bus) : list MessageData :=
  match List.last (map Some bus) None with
  | Some s => received s
  | None => []
  end.

(** What one client has received once [events] have been published. *)
Definition forwardTo (events : list (Event * string)) (s : Subscriber) : Subscriber :=
  fold_left (fun s e => deliver (fst e) (snd e) s) events s.

End Stream.

(** ** AgentService and AgentController *)

Module Agent.
Import Supabase Pipeline.

(** A row of [agent_config]. *)
Record AgentConfig : Type := {
  interval_minutes : option Z;
  is_active : bool;
  last_run_at : option string
}.

(** A row of [agent_runs]. *)
Record AgentRun : Type := {
  run_status : string;
  logs : string;
  run_topic : option string;
  article_id : option string;
  completed_at : option string
}.

(** A [CronJob] object: its expression and whether it has been started
    and not stopped. *)
Record CronJob : Type := { cronTime : string; running : bool }.

Definition JOB_NAME : string := "auto_article_generation".

Record World : Type := {
  store : Db;
  agent_config : list AgentConfig;
  agent_runs : gmap string AgentRun;
  bus : list Event;                (* the events emitted so far *)
  cronJobs : gmap string nat;      (* the registry: name to job *)
  jobs : list CronJob;             (* every job constructed, by handle *)
  ticks : nat                      (* readings of the clock *)
}.

Definition withScheduler (f : gmap string nat -> gmap string nat)
    (g : list CronJob -> list CronJob) (w : World) : World :=
  {| store := store w; agent_config := agent_config w;
     agent_runs := agent_runs w; bus := bus w;
     cronJobs := f (cronJobs w); jobs := g (jobs w);
     ticks := ticks w |}.

Definition withRuns (f : gmap string AgentRun -> gmap string AgentRun)
    (w : World) : World :=
  {| store := store w; agent_config := agent_config w;
     agent_runs := f (agent_runs w); bus := bus w;
     cronJobs := cronJobs w; jobs := jobs w;
     ticks := ticks w |}.

Definition withConfig (f : list AgentConfig -> list AgentConfig)
    (w : World) : World :=
  {| store := store w; agent_config := f (agent_config w);
     agent_runs := agent_runs w; bus := bus w;
     cronJobs := cronJobs w; jobs := jobs w;
     ticks := ticks w |}.

Definition withPipeline (d : Db) (events : list Event) (w : World) : World :=
  {| store := d; agent_config := agent_config w;
     agent_runs := agent_runs w; bus := bus w ++ events;
     cronJobs := cronJobs w; jobs := jobs w;
     ticks := ticks w |}.

Definition tick (w : World) : World :=
  {| store := store w; agent_config := agent_config w;
     agent_runs := agent_runs w; bus := bus w;
     cronJobs := cronJobs w; jobs := jobs w;
     ticks := S (ticks w) |}.

(** The timers that are armed: the jobs that run. *)
Definition armed (w : World) : list CronJob := filter (fun j => running j = true) (jobs w).

(** The answers of the collaborators of the agent. *)
Record Env : Type := {
  configSelect : outcome bool;        (* the select on agent_config is
                                         answered (true), answered with
                                         an error (false), or rejected *)
  cronAccepts : string -> bool;       (* [new CronJob(exp, _)] returns *)
  runInsert : option string;          (* the id of the new run, or [runError] *)
  titlesError : option JsError;       (* [getAllArticleTitles] fails *)
  brainstormAnswer : outcome string;  (* [generateText] in [brainstormTopic] *)
  pipelineEnv : Pipeline.Env;
  isoTime : nat -> string;            (* [new Date().toISOString()] *)
  runSelect : string -> bool;         (* the select of [logs] in the call of
                                         [updateRunStatus] for a status is
                                         answered with the row *)
  runUpdate : string -> bool;         (* the update of that call reaches the
                                         table *)
  configTouch : bool                  (* the update of [last_run_at] reaches
                                         the table *)
}.

Abbreviation M := (Effect.M World).

Section Service.
Variable env : Env.

(** [new Date().toISOString()] *)
Definition now : M string :=
  fun w => (Ok (isoTime env (ticks w)), tick w).

(** *** The registry of [@nestjs/schedule] and the [cron] job *)

(** [job.stop()] *)
Definition stopJob (h : nat) (l : list CronJob) : list CronJob :=
  match l !! h with
  | Some j => <[h := {| cronTime := cronTime j; running := false |}]> l
  | None => l
  end.

(** [job.start()] *)
Definition startJob (h : nat) (l : list CronJob) : list CronJob :=
  match l !! h with
  | Some j => <[h := {| cronTime := cronTime j; running := true |}]> l
  | None => l
  end.

(** [schedulerRegistry.deleteCronJob(name)]: stops the job and
    forgets it; throws when there is none. *)
Definition deleteCronJob (name : string) : M unit :=
  fun w =>
    match cronJobs w !! name with
    | Some h => (Ok tt, withScheduler (delete name) (stopJob h) w)
    | None => (Throw (newError "No Cron Job was found with the given name"), w)
    end.

(** [schedulerRegistry.addCronJob(name, job)]: throws when the name
    is taken. *)
Definition addCronJob (name : string) (h : nat) : M unit :=
  fun w =>
    match cronJobs w !! name with
    | Some _ => (Throw (newError "Cron Job with the given name already exists"), w)
    | None => (Ok tt, withScheduler (insert name h) (fun l => l) w)
    end.

(** [new CronJob(cronExp, callback)]: throws on an expression the
    library rejects. *)
Definition newCronJob (cronExp : string) : M nat :=
  fun w =>
    if cronAccepts env cronExp
    then (Ok (length (jobs w)),
          withScheduler (fun m => m)
            (fun l => l ++ [{| cronTime := cronExp; running := false |}]) w)
    else (Throw (newError "cron expression rejected"), w).

(** *** AgentService *)

Definition stopCron : M unit :=
  tryCatch
    (registered <- gets cronJobs ;;
     match registered !! JOB_NAME with
     | Some _ => deleteCronJob JOB_NAME
     | None => ret tt
     end)
    (fun _ => ret tt).

Definition updateCron (cronExp : string) : M unit :=
  stopCron ;;
  job <- newCronJob cronExp ;;
  addCronJob JOB_NAME job ;;
  modify (withScheduler (fun m => m) (startJob job)).

(** [.select('*').single()]: data when the table has exactly one
    row. *)
Definition single {A : Type} (rows : list A) : option A :=
  match rows with
  | [r] => Some r
  | _ => None
  end.

(** [config.interval_minutes || 120] *)
Definition intervalMins (config : AgentConfig) : Z :=
  match interval_minutes config with
  | Some 0%Z | None => 120%Z
  | Some n => n
  end.

(** The cron expression for an interval in minutes. *)
Definition cronExpression (mins : Z) : string :=
  if (mins <? 60)%Z
  then "0 */" +:+ Js.ofZ mins +:+ " * * * *"
  else let hours := (mins / 60)%Z in
       "0 0 */" +:+ Js.ofZ hours +:+ " * * *".

Definition setupScheduler : M unit :=
  tryCatch
    (answered <- (fun w => (configSelect env, w)) ;;
     rows <- gets agent_config ;;
     match (if answered : bool then single rows else None) with
     | None => ret tt
     | Some config =>
         if negb (is_active config) then stopCron
         else updateCron (cronExpression (intervalMins config))
     end)
    (fun _ => ret tt).

(** [updateRunStatus(runId, status, logEntry, topic?, articleId?)].
    The source looks at [data] of the select only, and at nothing of
    what the update answers: a call the store answers with an error
    reads no logs, or writes nothing, and the method goes on. *)
Definition updateRunStatus (runId status logEntry : string)
    (topic articleId : option string) : M unit :=
  current <- gets (fun w =>
               if runSelect env status then agent_runs w !! runId else None) ;;
  t <- now ;;
  let newLogs :=
    from_option logs "" current +:+ Js.nl +:+ "[" +:+ t +:+ "] " +:+ logEntry in
  completed <-
    (if String.eqb status "completed" || String.eqb status "failed"
     then t' <- now ;; ret (Some t')
     else ret None) ;;
  let updates (r : AgentRun) : AgentRun :=
    {| run_status := status;
       logs := newLogs;
       run_topic :=
         match topic with
         | Some tp => if Js.truthy tp then Some tp else run_topic r
         | None => run_topic r
         end;
       article_id :=
         match articleId with
         | Some a => if Js.truthy a then Some a else article_id r
         | None => article_id r
         end;
       completed_at :=
         match completed with
         | Some c => Some c
         | None => completed_at r
         end |} in
  if runUpdate env status
  then modify (withRuns (alter updates runId))
  else ret tt.

(** [brainstormTopic()] *)
Definition brainstormTopic : M string :=
  match titlesError env with
  | Some e => throw e
  | None =>
      response <- (fun w => (brainstormAnswer env, w)) ;;
      ret (Js.trim response)
  end.

(** [articlesService.generateArticle(topic)], that is
    [pipelineService.executePipeline(topic, undefined)], on the
    database of the world. *)
Definition generateArticle (topic : string) : M PipelineResult :=
  fun w =>
    let '(o, st) := executePipeline (pipelineEnv env) topic None (store w) in
    (o, withPipeline (db st) (emitted st) w).

(** [.update({ last_run_at }).eq('is_active', true)] on one row. *)
Definition touchActive (t : string) (c : AgentConfig) : AgentConfig :=
  if is_active c
  then {| interval_minutes := interval_minutes c; is_active := is_active c;
          last_run_at := Some t |}
  else c.

(** The update of [last_run_at]; the source does not look at its
    answer. *)
Definition touchConfig (t : string) : M unit :=
  if configTouch env then modify (withConfig (map (touchActive t)))
  else ret tt.

(** [result.errors?.join(', ') || 'Generation failed without error message'] *)
Definition failureMessage (r : PipelineResult) : string :=
  let joined := Js.join ", " (errors r) in
  if Js.truthy joined then joined
  else "Generation failed without error message".

Definition executeAgentRun : M unit :=
  match runInsert env with
  | None => ret tt
  | Some run =>
      modify (withRuns (insert run
        {| run_status := "searching"; logs := "Starting run...";
           run_topic := None; article_id := None; completed_at := None |})) ;;
      tryCatch
        (updateRunStatus run "searching" "Brainstorming unique tech topic..."
           None None ;;
         topicPrompt <- brainstormTopic ;;
         updateRunStatus run "generating" ("Topic selected: " +:+ topicPrompt)
           (Some topicPrompt) None ;;
         result <- generateArticle topicPrompt ;;
         match article result with
         | Some a =>
             if Js.truthy (id a) then
               updateRunStatus run "completed" "Article generated successfully."
                 (Some topicPrompt) (Some (id a)) ;;
               t <- now ;;
               touchConfig t
             else throw (newError (failureMessage result))
         | None => throw (newError (failureMessage result))
         end)
        (fun err =>
           updateRunStatus run "failed" ("Error: " +:+ message err) None None)
  end.

(** *** AgentController *)

Record Response : Type := { success : bool; response_message : string }.

(** The controller: the world its service works on, and the lines
    its own logger has written. *)
Record Controller : Type := {
  world : World;
  controllerLog : list string
}.

(** [this.logger.log(line)] *)
Definition logLine (line : string) : Effect.M Controller unit :=
  modify (fun c =>
    {| world := world c; controllerLog := controllerLog c ++ [line] |}).

(** A call of the service, from the controller. *)
Definition onService {A : Type} (m : M A) : Effect.M Controller A :=
  fun c =>
    let '(o, w') := m (world c) in
    (o, {| world := w'; controllerLog := controllerLog c |}).

Definition mismatchLine : string :=
  "Trigger request received without matching CRON_SECRET (could be manual admin trigger)".

(** [triggerAgent(authHeader)]; [cronSecret] is
    [process.env.CRON_SECRET]. *)
Definition triggerAgent (cronSecret authHeader : option string)
    : Effect.M Controller Response :=
  match cronSecret with
  | Some secret =>
      if Js.truthy secret then
        let expected := "Bearer " +:+ secret in
        if negb (bool_decide (authHeader = Some expected))
        then logLine mismatchLine
        else ret tt
      else ret tt
  | None => ret tt
  end ;;
  onService executeAgentRun ;;
  ret {| success := true; response_message := "Agent run triggered manually" |}.

End Service.

(** *** What the statements about the scheduler speak of *)

(** No timer is armed. *)
Definition idle (w : World) : Prop :=
  Forall (fun j => running j = false) (jobs w).

(** Every job that runs is the one registered under [JOB_NAME]. *)
Definition wellFormed (w : World) : Prop :=
  forall h j, jobs w !! h = Some j -> running j = true ->
    cronJobs w !! JOB_NAME = Some h.

(** Two worlds with the same timers. *)
Definition sameTimers (w w' : World) : Prop :=
  cronJobs w' = cronJobs w /\ jobs w' = jobs w.

(** The configuration [setupScheduler] goes on with: the select is
    answered and the table holds exactly one row. *)
Definition loaded (env : Env) (w : World) : option AgentConfig :=
  match configSelect env with
  | Ok true => single (agent_config w)
  | _ => None
  end.

(** The worlds the service can be in: it starts without any job, it
    reconciles, and whatever else happens leaves the timers alone. *)
Inductive reachable : World -> Prop :=
| reachable_start w : jobs w = [] -> cronJobs w = ∅ -> reachable w
| reachable_setup env w o w' :
    reachable w -> setupScheduler env w = (o, w') -> reachable w'
| reachable_other w w' : reachable w -> sameTimers w w' -> reachable w'.

(** *** What the statements about agent runs speak of *)

(** Two worlds that differ in the runs and the clock only. *)
Definition sameButRuns (w w' : World) : Prop :=
  store w' = store w /\ agent_config w' = agent_config w /\ bus w' = bus w
  /\ cronJobs w' = cronJobs w /\ jobs w' = jobs w.

(** The row a run begins with. *)
Definition newRun : AgentRun :=
  {| run_status := "searching"; logs := "Starting run...";
     run_topic := None; article_id := None; completed_at := None |}.

(** The run from the call of the pipeline on. *)
Definition finishRun (env : Env) (run topicPrompt : string) : M unit :=
  result <- generateArticle env topicPrompt ;;
  match article result with
  | Some a =>
      if Js.truthy (id a) then
        updateRunStatus env run "completed" "Article generated successfully."
          (Some topicPrompt) (Some (id a)) ;;
        t <- now env ;;
        touchConfig env t
      else throw (newError (failureMessage result))
  | None => throw (newError (failureMessage result))
  end.

(** The [catch] of [executeAgentRun]. *)
Definition runFailed (env : Env) (run : string) (err : JsError) : M unit :=
  updateRunStatus env run "failed" ("Error: " +:+ message err) None None.

(** The status the table holds for a run. *)
Definition runStatus (w : World) (run : string) : option string :=
  run_status <$> agent_runs w !! run.

(** The header does not carry the configured secret. *)
Definition mismatch (cronSecret authHeader : option string) : bool :=
  match cronSecret with
  | Some secret =>
      Js.truthy secret
      && negb (bool_decide (authHeader = Some ("Bearer " +:+ secret)))
  | None => false
  end.

Definition triggered : Response :=
  {| success := true; response_message := "Agent run triggered manually" |}.

End Agent.

(** ** The cron expressions of the scheduler

    How the [cron] package, which is not part of the repository, reads
    the expressions [setupScheduler] hands to [new CronJob]: digits,
    [*] and [*/k] in six fields. *)

Module Cron.

(** One field of an expression, of the three shapes the service
    writes. *)
Inductive Field : Type :=
| Any             (* [*] *)
| At (n : N)      (* a number *)
| Step (k : N).   (* [*/k] *)

#[export] Instance Field_eq_dec : EqDecision Field.
Proof. solve_decision. Defined.

(** A decimal number, digit by digit. *)
Fixpoint readDigits (acc : N) (s : string) : option N :=
  match s with
  | EmptyString => Some acc
  | String a t =>
      if Js.isDigit a
      then readDigits (10 * acc + N.of_nat (Js.code a - 48)) t
      else None
  end.

Definition readNumber (s : string) : option N :=
  match s with
  | EmptyString => None
  | _ => readDigits 0 s
  end.

(** [*], [*/k] or a number. *)
Definition readField (s : string) : option Field :=
  match s with
  | String "*" EmptyString => Some Any
  | String "*" (String "/" k) => Step <$> readNumber k
  | _ => At <$> readNumber s
  end.

(** The fields of an expression, which a blank separates. *)
Definition fields (e : string) : list (option Field) :=
  map readField (Js.splitChar " " e).

(** A value of the clock is one the field names.  The fields of
    seconds, minutes and hours count from 0, so a step names the
    multiples of the step. *)
Definition fieldMatches (f : Field) (v : N) : bool :=
  match f with
  | Any => true
  | At n => (v =? n)%N
  | Step k => (0 <? k)%N && (v mod k =? 0)%N
  end.

(** The job fires at the moment [t], counted in seconds from a
    midnight of the zone of the job, in which the clock is not turned
    forward or back.  The expression has six fields, seconds first;
    the fields of the day, the month and the day of the week are [*]
    in what the service writes. *)
Definition firesAt (e : string) (t : N) : bool :=
  match fields e with
  | [Some s; Some m; Some h; Some Any; Some Any; Some Any] =>
      fieldMatches s (t mod 60)%N
      && fieldMatches m (t / 60 mod 60)%N
      && fieldMatches h (t / 3600 mod 24)%N
  | _ => false
  end.

(** The job fires every [p] seconds: at midnight, and after each
    firing the next one comes [p] seconds later and none before. *)
Definition firesEvery (e : string) (p : N) : Prop :=
  (0 < p)%N
  /\ firesAt e 0 = true
  /\ forall t, firesAt e t = true ->
       firesAt e (t + p) = true
       /\ forall d, (0 < d < p)%N -> firesAt e (t + d) = false.

End Cron.

(** ** Sample documents *)

Module Samples.

(** The document of the specification, with the token spelled as the
    specification spells it. *)
Definition specBody : string :=
  "## A" +:+ Js.nl +:+ "[ASSET_PROMPT_1]" +:+ Js.nl +:+
  "## B" +:+ Js.nl +:+ "[ASSET_PROMPT_2]: custom prompt".

(** The same document with the token of the source. *)
Definition imageBody : string :=
  "## A" +:+ Js.nl +:+ "[IMAGE_PROMPT_1]" +:+ Js.nl +:+
  "## B" +:+ Js.nl +:+ "[IMAGE_PROMPT_2]: custom prompt".

Definition commentBody : string :=
  "## A" +:+ Js.nl +:+ "[IMAGE_PROMPT_1] <!-- Image: a red fox -->".

(** A placeholder under a third-level heading. *)
Definition deepBody : string :=
  "## A" +:+ Js.nl +:+ "### B" +:+ Js.nl +:+ "[IMAGE_PROMPT_1]".

Definition bareBody : string := "[IMAGE_PROMPT_4]".

(** A placeholder with a colon annotation. *)
Definition annotatedBody : string :=
  "Intro" +:+ Js.nl +:+ "[IMAGE_PROMPT_1]: sunset over the ocean" +:+ Js.nl +:+
  "More text".

(** Four placeholders, the fourth with a colon annotation. *)
Definition fourBody : string :=
  "## A" +:+ Js.nl +:+ "[IMAGE_PROMPT_1]" +:+ Js.nl +:+
  "## B" +:+ Js.nl +:+ "[IMAGE_PROMPT_2]" +:+ Js.nl +:+
  "## C" +:+ Js.nl +:+ "[IMAGE_PROMPT_3]" +:+ Js.nl +:+
  "## D" +:+ Js.nl +:+ "[IMAGE_PROMPT_4]: a lone tree" +:+ Js.nl +:+ "The end.".

(** An annotation without the letter n, followed by more text. *)
Definition catBody : string :=
  "[IMAGE_PROMPT_1]: a cat" +:+ Js.nl +:+ Js.nl +:+ "## Summary" +:+ Js.nl +:+
  "All good here. Done".

End Samples.

(** ** Sample environments *)

Module SampleRuns.
Import Supabase Pipeline.

Definition emptyDb : Db :=
  {| articles := ∅; article_images := []; article_components := [];
     blobs := [] |}.

Definition boom : JsError := newError "boom".

(** An environment in which everything answers, except what the
    arguments say: the answer to the writing request, the images that
    are generated, and the store calls that fail. *)
Definition sampleEnv (written : outcome ArticleContent)
    (images : nat -> option string)
    (fails : StoreCall -> option JsError) : Env :=
  {| suggestSlug := Ok "t-slug";
     suggestCategory := Ok {| categoryName := "General"; description := None |};
     seoResearchAnswer :=
       Ok {| seo_keywords := ["x"]; seo_h2Structure := [];
             seo_metaDescription := "about T" |};
     writeArticle := written;
     humanizeContent :=
       match written with
       | Ok ac => Ok (ac_content ac)
       | _ => Ok ""
       end;
     generateImage := images;
     generateAltTags := fun _ => "alt text";
     generateInteractiveComponent := Ok None;
     finalReviewAndRestructure := fun c => c;
     storeError := fails;
     newArticleId := "a1";
     allCategories := [];
     foundCategory := {| cat_id := "c1"; cat_name := "General" |};
     newImageId := fun n => "img" +:+ Js.ofNat n;
     publicUrl := fun path => "https://cdn.example/" +:+ path |}.

Definition noFailure : StoreCall -> option JsError := fun _ => None.

Definition noImage : nat -> option string := fun _ => None.

(** Every call succeeds. *)
Definition quietEnv : Env :=
  sampleEnv (Ok {| ac_title := "T"; ac_content := "# T" |}) noImage noFailure.

(** The writing request fails. *)
Definition writingFails : Env := sampleEnv (Throw boom) noImage noFailure.

(** Only the update that marks the article for review fails. *)
Definition markReviewFails : Env :=
  sampleEnv (Ok {| ac_title := "T"; ac_content := "# T" |}) noImage
    (fun c => match c with MarkReview => Some boom | _ => None end).

(** The writing request fails, and so does the update that would put
    the record back to draft. *)
Definition draftFails : Env :=
  sampleEnv (Throw boom) noImage
    (fun c => match c with MarkDraft => Some boom | _ => None end).

Definition everyImage : nat -> option string := fun _ => Some "png".

(** The article that is written is [body]; images are generated or
    not. *)
Definition writes (body : string) (images : nat -> option string) : Env :=
  sampleEnv (Ok {| ac_title := "T"; ac_content := body |}) images noFailure.

(** The body the table holds for the article of a run. *)
Definition storedBody (run : outcome PipelineResult * St) : option string :=
  articles (db (snd run)) !! "a1" ≫= content_markdown.

(** What a call returned, if it returned. *)
Definition returned {A : Type} (o : outcome A) : option A :=
  match o with
  | Ok a => Some a
  | _ => None
  end.

End SampleRuns.

(** ** Sample worlds of the agent *)

Module SampleWorlds.
Import Supabase Pipeline Agent SampleRuns.

Definition config (mins : Z) (active : bool) : AgentConfig :=
  {| interval_minutes := Some mins; is_active := active; last_run_at := None |}.

(** A world without jobs whose table holds the row [c]. *)
Definition freshWorld (c : AgentConfig) : World :=
  {| store := emptyDb; agent_config := [c]; agent_runs := ∅; bus := [];
     cronJobs := ∅; jobs := []; ticks := 0 |}.

(** The cron library takes a step that is a number: an expression
    with a sign after the slash is rejected. *)
Definition numericSteps (cronExp : string) : bool :=
  negb (Js.includes "/-" cronExp).

Definition agentEnv (p : Pipeline.Env) (answer : outcome string) : Agent.Env :=
  {| configSelect := Ok true;
     cronAccepts := numericSteps;
     runInsert := Some "run1";
     titlesError := None;
     brainstormAnswer := answer;
     pipelineEnv := p;
     isoTime := fun n => "2026-01-01T00:00:0" +:+ Js.ofNat n +:+ "Z";
     runSelect := fun _ => true;
     runUpdate := fun _ => true;
     configTouch := true |}.

Definition calmEnv : Agent.Env := agentEnv quietEnv (Ok " Rust 2.0 ").

(** The world after reconciling with an interval of 30 minutes. *)
Definition every30 : World := snd (setupScheduler calmEnv (freshWorld (config 30 true))).

(** The same world once the interval has been set to -5. *)
Definition negativeInterval : World :=
  withConfig (fun _ => [config (-5) true]) every30.


End SampleWorlds.

(** ** Replacing characters and runs of characters

    What [String.prototype.replace] does with the two simplest global
    expressions, a character class and a repeated character class,
    written as functions on the text. *)

Module Rewrite.

(** Every character of [s] satisfies [p]. *)
Fixpoint every (p : ascii -> bool) (s : string) : bool :=
  match s with
  | EmptyString => true
  | String a t => p a && every p t
  end.

(** Every character that satisfies [p] gives way to [repl]. *)
Fixpoint replaceChars (p : ascii -> bool) (repl : string) (s : string) : string :=
  match s with
  | EmptyString => EmptyString
  | String a t =>
      if p a then repl +:+ replaceChars p repl t
      else String a (replaceChars p repl t)
  end.

(** The number of characters at the head of [s] that satisfy [p]. *)
Fixpoint runLength (p : ascii -> bool) (s : string) : nat :=
  match s with
  | EmptyString => 0
  | String a t => if p a then S (runLength p t) else 0
  end.

(** Every maximal run of characters that satisfy [p] gives way to
    [repl]. *)
Fixpoint squeeze (p : ascii -> bool) (repl : string) (s : string) : string :=
  match s with
  | EmptyString => EmptyString
  | String a t =>
      if p a then
        match t with
        | String b _ =>
            if p b then squeeze p repl t else repl +:+ squeeze p repl t
        | EmptyString => repl
        end
      else String a (squeeze p repl t)
  end.

(** No two neighbours in [s] both satisfy [p]. *)
Fixpoint noRun (p : ascii -> bool) (s : string) : bool :=
  match s with
  | EmptyString => true
  | String a t =>
      match t with
      | String b _ => negb (p a && p b) && noRun p t
      | EmptyString => true
      end
  end.

(** The length of a match of a class at the head of [s]. *)
Definition oneChar (p : ascii -> bool) (s : string) : option nat :=
  match s with
  | String a _ => if p a then Some 1 else None
  | EmptyString => None
  end.

(** The length of a match of a repeated class at the head of [s]. *)
Definition wholeRun (p : ascii -> bool) (s : string) : option nat :=
  match runLength p s with
  | 0 => None
  | n => Some n
  end.

(** A match of length [n] at position [pos] of an expression without
    groups; [s] is the text from [pos]. *)
Definition foundAt (pos : nat) (s : string) (n : nat) : Regex.found :=
  Regex.Found pos (pos + n) (Js.take n s) ∅.

(** What follows a run of members of a class: nothing, or a
    character outside the class. *)
Definition headOut (p : ascii -> bool) (s : string) : Prop :=
  match s with
  | EmptyString => True
  | String a _ => p a = false
  end.

End Rewrite.

(** ** SupabaseService: slugs *)

Module Slug.
Import Regex.

(** [/[^a-z0-9\s-]/g] *)
Definition notSlugChar : re :=
  Cls true [IRange "a" "z"; IRange "0" "9"; ISpace; IChar "-"].

(** [/\s+/g] *)
Definition spaces : re := Plus true (Cls false [ISpace]).

(** [/-+/g] *)
Definition hyphens : re := Plus true (Cls false [IChar "-"]).

(** The chain the three helpers share:
    [.toLowerCase().replace(/[^a-z0-9\s-]/g, '').replace(/\s+/g, '-')
     .replace(/-+/g, '-').substring(0, 100)] *)
Definition cleanSlug (text : string) : string :=
  Js.substring 0 100
    (replaceAll hyphens "-"
       (replaceAll spaces "-"
          (replaceAll notSlugChar "" (Js.toLowerCase text)))).

(** [generateCategorySlug(text)] *)
Definition generateCategorySlug (text : string) : string := cleanSlug text.

(** [generateSlug(text)]; [stamp] is [Date.now().toString(36)]. *)
Definition generateSlug (stamp text : string) : string :=
  cleanSlug text +:+ "-" +:+ stamp.

(** [formatCustomSlug(slug)]; [random] is
    [Math.random().toString(36)]. *)
Definition formatCustomSlug (random slug : string) : string :=
  cleanSlug slug +:+ "-" +:+ Js.substring 2 7 random.

(** The slug [createArticle(topic, author_id, customSlug)] inserts:
    [customSlug ? formatCustomSlug(customSlug) : generateSlug(topic)]. *)
Definition articleSlug (stamp random topic : string)
    (customSlug : option string) : string :=
  match customSlug with
  | Some c =>
      if Js.truthy c then formatCustomSlug random c
      else generateSlug stamp topic
  | None => generateSlug stamp topic
  end.

(** A lower-case letter, a digit or a hyphen. *)
Definition isSlugChar (a : ascii) : bool :=
  let n := Js.code a in
  ((97 <=? n) && (n <=? 122)) || Js.isDigit a || Ascii.eqb a "-".

(** A lower-case letter or a digit: what [toString(36)] writes for
    an integer. *)
Definition isBase36 (a : ascii) : bool :=
  let n := Js.code a in
  ((97 <=? n) && (n <=? 122)) || Js.isDigit a.

Definition isHyphen (a : ascii) : bool := Ascii.eqb a "-".

End Slug.

(** ** GeminiService: alternative text and slug *)

Module GeminiText.
Import Regex Effect.

(** [prompt.split(':')[1]?.trim() || prompt] *)
Definition altFallback (prompt : string) : string :=
  match Js.splitChar ":" prompt with
  | _ :: part :: _ =>
      if Js.truthy (Js.trim part) then Js.trim part else prompt
  | _ => prompt
  end.

(** [generateAltTags(prompt, topic)]; [answer] is how the call of
    [generateText] ends. *)
Definition generateAltTags (answer : outcome string) (prompt : string)
    : outcome string :=
  match answer with
  | Ok result => Ok (Js.trim result)
  | Throw _ => Ok (altFallback prompt)
  | Hang => Hang
  end.

(** [/[^a-z0-9-]/g] *)
Definition notSlugOrHyphen : re :=
  Cls true [IRange "a" "z"; IRange "0" "9"; IChar "-"].

(** [/[^a-z0-9]/g] *)
Definition notAlphanumeric : re := Cls true [IRange "a" "z"; IRange "0" "9"].

(** A hyphen at the head of the text is dropped. *)
Definition dropLeadingHyphen (s : string) : string :=
  match s with
  | String a t => if Ascii.eqb a "-" then t else s
  | EmptyString => EmptyString
  end.

(** A hyphen at the end of the text is dropped. *)
Fixpoint dropTrailingHyphen (s : string) : string :=
  match s with
  | EmptyString => EmptyString
  | String a EmptyString => if Ascii.eqb a "-" then EmptyString else s
  | String a t => String a (dropTrailingHyphen t)
  end.

(** [.replace(/^-|-$/g, '')]: the expression matches a hyphen that is
    the first character of the text and a hyphen that is its last
    character; the scan removes the first and then, in what follows
    it, the second. *)
Definition stripHyphens (s : string) : string :=
  dropTrailingHyphen (dropLeadingHyphen s).

(** [suggestSlug(topic)]; [answer] is how the call of [generateText]
    ends.  The failure is caught and answered from the topic. *)
Definition suggestSlug (answer : outcome string) (topic : string)
    : outcome string :=
  match answer with
  | Ok response =>
      Ok (stripHyphens
            (replaceAll Slug.hyphens "-"
               (replaceAll notSlugOrHyphen "-"
                  (Js.toLowerCase (Js.trim response)))))
  | Throw _ =>
      Ok (Js.substring 0 50
            (replaceAll Slug.hyphens "-"
               (replaceAll notAlphanumeric "-" (Js.toLowerCase topic))))
  | Hang => Hang
  end.

Definition firstChar (s : string) : option ascii :=
  match s with
  | String a _ => Some a
  | EmptyString => None
  end.

Fixpoint lastChar (s : string) : option ascii :=
  match s with
  | EmptyString => None
  | String a EmptyString => Some a
  | String _ t => lastChar t
  end.

End GeminiText.

(** ** Documents with placeholders, line by line

    The documents of which the claim about [extractImagePrompts]
    speaks, and the prompts it promises for them.  These definitions
    follow the words of the claim; the theorem compares them with what
    the expressions of the source find. *)

Module Markdown.
Import Regex Gemini Rewrite.

(** What follows a placeholder directly. *)
Inductive Annotation : Type :=
| Bare
| Colon (w1 w2 text : string)           (* w1 : w2 text *)
| Comment (w1 w2 w3 text w4 : string).  (* w1 <!-- w2 Image: w3 text w4 --> *)

(** The parts of a document, each on lines of its own: a text, a
    heading, or a placeholder with its annotation inside a text.  A
    text may run over several lines. *)
Inductive Line : Type :=
| Text (t : string)
| Heading (h : string)                  (* ## h *)
| Placeholder (before n : string) (a : Annotation) (after : string).

Definition token (n : string) : string := "[IMAGE_PROMPT_" +:+ n +:+ "]".

Definition renderAnnotation (a : Annotation) : string :=
  match a with
  | Bare => ""
  | Colon w1 w2 text => w1 +:+ ":" +:+ w2 +:+ text
  | Comment w1 w2 w3 text w4 =>
      w1 +:+ "<!--" +:+ w2 +:+ "Image:" +:+ w3 +:+ text +:+ w4 +:+ "-->"
  end.

Definition renderLine (l : Line) : string :=
  match l with
  | Text t => t
  | Heading h => "## " +:+ h
  | Placeholder before n a after =>
      before +:+ token n +:+ renderAnnotation a +:+ after
  end.

(** The document: its parts, with a line feed between one and the
    next. *)
Definition render (ls : list Line) : string :=
  Js.join Js.nl (map renderLine ls).

(** The prompt of a placeholder: the text of its annotation, and
    without one the nearest heading before it, and without a heading
    its number. *)
Definition promptOf (heading : option string) (n : string) (a : Annotation)
    : string :=
  match a with
  | Colon _ _ text => Js.trim text
  | Comment _ _ _ text _ => text
  | Bare =>
      match heading with
      | Some h => "Illustration for: " +:+ h
      | None => "Blog section illustration " +:+ n
      end
  end.

(** The placeholders of the lines, in order; [heading] is the nearest
    heading before them. *)
Fixpoint promptsFrom (heading : option string) (ls : list Line)
    : list ImagePrompt :=
  match ls with
  | [] => []
  | Text _ :: rest => promptsFrom heading rest
  | Heading h :: rest => promptsFrom (Some h) rest
  | Placeholder _ n a _ :: rest =>
      {| prompt := promptOf heading n a; placeholder := token n |}
      :: promptsFrom heading rest
  end.

Definition expectedPrompts (ls : list Line) : list ImagePrompt :=
  promptsFrom None ls.

(** The text begins, or ends, with a character that is not white
    space. *)
Definition visibleHead (s : string) : bool :=
  match s with
  | String a _ => negb (Js.isSpace a)
  | EmptyString => false
  end.

Fixpoint visibleEnd (s : string) : bool :=
  match s with
  | EmptyString => false
  | String a EmptyString => negb (Js.isSpace a)
  | String _ t => visibleEnd t
  end.

(** The first character of the text that is not white space is a
    colon or an angle bracket, with which an annotation begins. *)
Definition opens (s : string) : bool :=
  match Js.trimStart s with
  | String a _ => Ascii.eqb a ":" || Ascii.eqb a "<"
  | EmptyString => false
  end.

Definition isLineFeed (a : ascii) : bool := Ascii.eqb a LF.

(** The annotations the claim speaks of: white space where the
    letters [w] stand; after a colon a text without line feed and
    without angle bracket; in a comment a text without hyphen; and in
    neither text a placeholder. *)
Definition tidyAnnotation (a : Annotation) : bool :=
  match a with
  | Bare => true
  | Colon w1 w2 text =>
      every Js.isSpace w1 && every Js.isSpace w2 && visibleHead text
      && every (fun c => negb (isLineFeed c) && negb (Ascii.eqb c "<")) text
      && negb (Js.includes "[IMAGE_PROMPT_" text)
  | Comment w1 w2 w3 text w4 =>
      every Js.isSpace w1 && every Js.isSpace w2 && every Js.isSpace w3
      && every Js.isSpace w4 && visibleHead text && visibleEnd text
      && every (fun c => negb (Ascii.eqb c "-")) text
      && negb (Js.includes "[IMAGE_PROMPT_" text)
  end.

(** Where the text of a colon ends: at the end of the document, at a
    line feed or at an angle bracket. *)
Definition stops (s : string) : bool :=
  match s with
  | EmptyString => true
  | String c _ => isLineFeed c || Ascii.eqb c "<"
  end.

(** The parts the claim speaks of.  A text holds no placeholder and
    no [##]; a heading is one line, [## ] and its words; a placeholder
    has a number and an annotation as above, the texts before and
    after it hold no placeholder, its lines hold no [##], and the text
    of a colon goes up to the end of its line or to an angle
    bracket. *)
Definition tidyLine (l : Line) : bool :=
  match l with
  | Text t =>
      negb (Js.includes "[IMAGE_PROMPT_" t) && negb (Js.includes "##" t)
  | Heading h =>
      visibleHead h && every (fun c => negb (isLineFeed c)) h
      && negb (Js.includes "[IMAGE_PROMPT_" (renderLine l))
  | Placeholder before n a after =>
      Js.truthy n && every Js.isDigit n && tidyAnnotation a
      && negb (Js.includes "[IMAGE_PROMPT_" before)
      && negb (Js.includes "[IMAGE_PROMPT_" after)
      && negb (Js.includes "##" (renderLine l))
      && match a with
         | Colon _ _ _ => stops after
         | _ => true
         end
  end.

(** What follows the first part of a document. *)
Definition afterLine (ls : list Line) : string :=
  match ls with
  | [] => ""
  | _ => Js.nl +:+ render ls
  end.

(** A placeholder without annotation is one that no annotation
    follows: the first character after it that is not white space is
    neither a colon nor an angle bracket. *)
Fixpoint unannotated (ls : list Line) : bool :=
  match ls with
  | [] => true
  | l :: rest =>
      match l with
      | Placeholder _ _ Bare after => negb (opens (after +:+ afterLine rest))
      | _ => true
      end
      && unannotated rest
  end.

Definition tidyLines (ls : list Line) : bool := forallb tidyLine ls.

Definition tidy (ls : list Line) : bool := tidyLines ls && unannotated ls.

(** The nearest heading at the end of the lines. *)
Definition lastHeading (ls : list Line) : option string :=
  fold_left (fun found l =>
               match l with
               | Heading h => Some h
               | _ => found
               end) ls None.

(** What follows a line: nothing, or the line feed before the next
    one. *)
Definition lineEnd (s : string) : Prop :=
  match s with
  | EmptyString => True
  | String a _ => a = LF
  end.

(** The lines, each with the line feed that ends it. *)
Definition renderLines (ls : list Line) : string :=
  fold_right (fun l s => renderLine l +:+ Js.nl +:+ s) "" ls.

Definition headings (ls : list Line) : list string :=
  omap (fun l => match l with Heading h => Some h | _ => None end) ls.

(** The two annotations of [promptRegex], by name. *)
Definition colonTail : re :=
  ws >> Lit ":" >> ws >> Grp 2 (Plus true (Cls true [IChar LF; IChar "<"])).

Definition commentTail : re :=
  ws >> Lit "<!--" >> ws >> Lit "Image:" >> ws >>
  Grp 3 (Plus false (Cls true [IChar "-"])) >> ws >> Lit "-->".

End Markdown.

(** ** The serverless entry point: allowed origins *)

Module Handler.

(** [(process.env.FRONTEND_URL || '').split(',')
     .map(origin => origin.trim()).filter(Boolean)] *)
Definition envOrigins (FRONTEND_URL : option string) : list string :=
  filter (fun origin => Js.truthy origin = true)
    (map Js.trim (Js.splitChar "," (default "" FRONTEND_URL))).

Definition defaultOrigins : list string :=
  ["http://localhost:3000"; "https://blog.thisitha.me"; "https://thisitha.me";
   "https://www.thisitha.me"].

(** [allowedOrigins] *)
Definition allowedOrigins (FRONTEND_URL : option string) : list string :=
  envOrigins FRONTEND_URL ++ defaultOrigins.

Definition isComma (a : ascii) : bool := Ascii.eqb a ",".

End Handler.

(** ** ArticlesService and ArticlesController: generation *)

Module Articles.
Import Supabase Pipeline.

(** [new HttpException(message, status)] *)
Record HttpException : Type := { http_message : string; http_status : nat }.

(** How a request ends: with a body, with an exception that the
    framework turns into an error response, or not at all. *)
Inductive reply (A : Type) : Type :=
| Replied (a : A)
| Refused (e : HttpException)
| Pending.
Arguments Replied {A} a.
Arguments Refused {A} e.
Arguments Pending {A}.

(** [{ success: true, data: result }] *)
Record Generated : Type := { success : bool; data : PipelineResult }.

(** [ArticlesService.generateArticle(topic, author_id)] *)
Definition serviceGenerateArticle (env : Env) (topic : string)
    (author_id : option string) (d : Db) : outcome PipelineResult * St :=
  executePipeline env topic author_id d.

(** [ArticlesController.generateArticle(dto)], for a body that has
    passed validation. *)
Definition generateArticle (env : Env) (topic : string)
    (author_id : option string) (d : Db) : reply Generated * St :=
  match serviceGenerateArticle env topic author_id d with
  | (Ok result, st) => (Replied {| success := true; data := result |}, st)
  | (Throw error, st) =>
      (Refused {| http_message := "Failed to generate article: " +:+ render error;
                  http_status := 500 |}, st)
  | (Hang, st) => (Pending, st)
  end.

(** The record [createArticle] inserts and returns. *)
Definition createdRecord (env : Env) (topic : string)
    (author_id : option string) : Article :=
  {| id := newArticleId env; Supabase.topic := Some topic;
     title := Js.take 500 topic; content_markdown := None;
     meta_description := None; keywords := [];
     h2_structure := []; status := processing;
     thumbnail_url := None; category_id := None;
     author_id := author_id |}.

(** An event of the run for [topic]. *)
Definition ofTopic (topic : string) (ev : Event) : Prop :=
  ev_topic ev = Some topic.

(** Every event the run has emitted is an event for [topic]. *)
Definition itsEvents (topic : string) (st : St) : Prop :=
  Forall (ofTopic topic) (emitted st).

(** The events as they are published: the [i]-th one with
    [clock i], the time at which the listeners run. *)
Definition timed (events : list Event) (clock : nat -> string)
    : list (Event * string) :=
  imap (fun i e => (e, clock i)) events.

(** Every stage has completed. *)
Definition allStages (t : Stages) : Prop :=
  seoResearch t = true /\ writing t = true /\ humanizing t = true
  /\ visualGeneration t = true /\ interactive t = true /\ finalReview t = true.

(** The flag of a stage. *)
Definition stageFlag (g : Stage) (t : Stages) : bool :=
  match g with
  | SeoResearch => seoResearch t
  | Writing => writing t
  | Humanizing => humanizing t
  | VisualGeneration => visualGeneration t
  | Interactive => interactive t
  | FinalReview => finalReview t
  end.

(** The article and the position of an image row. *)
Definition placed (r : ArticleImage) : string * nat :=
  (image_article r, position r).

(** The run has recorded no error. *)
Definition clean (st : St) : Prop := errors (result st) = [].

(** The run has recorded an error. *)
Definition dirty (st : St) : Prop := errors (result st) <> [].

(** The flag of stage [g] is set. *)
Definition flagOn (g : Stage) (st : St) : Prop :=
  stageFlag g (stages (result st)) = true.

(** While no error is recorded, the stages of [gs] have completed. *)
Definition doneSoFar (gs : list Stage) (st : St) : Prop :=
  clean st -> Forall (fun g => flagOn g st) gs.

(** A property of the state of a run that none of the steps a stage
    is made of can undo: writing to the database, emitting an event,
    sending a request, recording an error, setting a flag, setting
    [result.article] and setting the content. *)
Record stable (P : St -> Prop) : Prop := {
  on_db : forall st f, P st -> P (withDb f st);
  on_emit : forall st ev, P st ->
    P {| db := db st; emitted := emitted st ++ [ev]; asked := asked st;
         result := result st; content := content st |};
  on_ask : forall st c, P st ->
    P {| db := db st; emitted := emitted st; asked := asked st ++ [c];
         result := result st; content := content st |};
  on_error : forall st e, P st ->
    P (withResult (fun r =>
         {| article := article r; stages := stages r;
            errors := errors r ++ [e] |}) st);
  on_stage : forall st g, P st ->
    P (withResult (fun r =>
         {| article := article r; stages := markStage g (stages r);
            errors := errors r |}) st);
  on_article : forall st a, P st ->
    P (withResult (fun r =>
         {| article := Some a; stages := stages r; errors := errors r |}) st);
  on_content : forall st c, P st ->
    P {| db := db st; emitted := emitted st; asked := asked st;
         result := result st; content := c |}
}.

(** The articles and positions of the image rows are [l]. *)
Definition placesAre (l : list (string * nat)) (st : St) : Prop :=
  map placed (article_images (db st)) = l.

(** The image rows are those of [l] and then at most [b] rows of
    article [i], at positions [n], [n + 1], and so on. *)
Definition placesGrown (l : list (string * nat)) (i : string) (n b : nat)
    (st : St) : Prop :=
  exists k, k <= b
    /\ map placed (article_images (db st)) = l ++ map (fun p => (i, p)) (seq n k).

(** The table holds [v] under [j]. *)
Definition rowIs (j : string) (v : option Article) (st : St) : Prop :=
  articles (db st) !! j = v.

(** [m], begun where [P] holds, ends where [P'] holds, however it
    ends. *)
Definition carries {S A : Type} (P : S -> Prop) (m : Effect.M S A)
    (P' : S -> Prop) : Prop :=
  forall st o st', P st -> m st = (o, st') -> P' st'.

(** [m], begun where [P] holds, leaves a state where [R] holds
    whenever it throws. *)
Definition raises {S A : Type} (P : S -> Prop) (m : Effect.M S A)
    (R : S -> Prop) : Prop :=
  forall st e st', P st -> m st = (Throw e, st') -> R st'.

(** [m], begun where [P] holds, leaves a state where [Q a] holds
    whenever it returns [a]. *)
Definition returns {S A : Type} (P : S -> Prop) (m : Effect.M S A)
    (Q : A -> S -> Prop) : Prop :=
  forall st a st', P st -> m st = (Ok a, st') -> Q a st'.

End Articles.

(** ** AgentController: the configuration *)

Module AgentApi.
Import Supabase Pipeline Agent Articles.

(** The body of [POST /agent/config]: the keys that are present. *)
Record ConfigUpdates : Type := {
  new_interval_minutes : option Z;
  new_is_active : option bool
}.

(** [.update(updates)] on one row. *)
Definition applyConfig (u : ConfigUpdates) (c : AgentConfig) : AgentConfig :=
  {| interval_minutes :=
       match new_interval_minutes u with
       | Some n => Some n
       | None => interval_minutes c
       end;
     is_active := default (is_active c) (new_is_active u);
     last_run_at := last_run_at c |}.

(** The answers of the collaborators of the controller. *)
Record Env : Type := {
  service : Agent.Env;
  updateAnswered : bool;   (* the update reaches the table *)
  keptOnError : bool       (* rows changed by an update whose answer is
                              not a single row stay changed *)
}.

(** [.update(updates).eq('is_active', true)] on the table. *)
Definition updateActive (u : ConfigUpdates) (rows : list AgentConfig)
    : list AgentConfig :=
  map (fun c => if is_active c then applyConfig u c else c) rows.

(** [.update(updates).eq('is_active', true).select().single()]: the
    rows that are active are updated and returned; [data] is the row
    when there is exactly one, and otherwise there is an [error]. *)
Definition updateSingle (env : Env) (u : ConfigUpdates) (w : World)
    : option AgentConfig * World :=
  if updateAnswered env then
    match filter (fun c => is_active c = true) (agent_config w) with
    | [c] => (Some (applyConfig u c), withConfig (updateActive u) w)
    | [] => (None, w)
    | _ =>
        (None, if keptOnError env then withConfig (updateActive u) w else w)
    end
  else (None, w).

(** [{ success: true, data }] *)
Record ConfigResponse : Type := {
  config_success : bool;
  config_data : AgentConfig
}.

Definition updateFailed : HttpException :=
  {| http_message := "Update failed"; http_status := 500 |}.

(** [AgentController.updateConfig(updates)].  An exception that is
    not an [HttpException] is answered by the framework with status
    500. *)
Definition updateConfig (env : Env) (u : ConfigUpdates) (w : World)
    : reply ConfigResponse * World :=
  match updateSingle env u w with
  | (None, w1) => (Refused updateFailed, w1)
  | (Some data, w1) =>
      match setupScheduler (service env) w1 with
      | (Ok _, w2) =>
          (Replied {| config_success := true; config_data := data |}, w2)
      | (Throw _, w2) =>
          (Refused {| http_message := "Internal server error";
                      http_status := 500 |}, w2)
      | (Hang, w2) => (Pending, w2)
      end
  end.

(** What a run must leave alone: the registry, the jobs, and the
    interval and activity of every configuration row. *)
Definition schedule (w : World)
    : gmap string nat * list CronJob * list (option Z * bool) :=
  (cronJobs w, jobs w,
   map (fun c => (interval_minutes c, is_active c)) (agent_config w)).

(** The schedule of [w] is [s]. *)
Definition scheduled
    (s : gmap string nat * list CronJob * list (option Z * bool))
    (w : World) : Prop :=
  schedule w = s.

End AgentApi.


(** * Properties *)

(** ** Strings *)

Module JsFacts.
Import Js.

Lemma drop_0 s : drop 0 s = s.
Proof. by destruct s. Qed.

Lemma drop_empty n : drop n EmptyString = EmptyString.
Proof. by destruct n. Qed.

Lemma drop_drop a : forall b s, drop b (drop a s) = drop (a + b) s.
Proof.
  induction a as [|a IH]; intros b s; simpl.
  - done.
  - destruct s as [|x s]; simpl; [by rewrite drop_empty|apply IH].
Qed.

Lemma length_drop n : forall s, String.length (drop n s) = String.length s - n.
Proof.
  induction n as [|n IH]; intros [|x s]; simpl; try lia. apply IH.
Qed.

Lemma length_take n : forall s, String.length (take n s) = Nat.min n (String.length s).
Proof.
  induction n as [|n IH]; intros [|x s]; simpl; try lia. by rewrite IH.
Qed.

Lemma app_cons a (s t : string) : String a s +:+ t = String a (s +:+ t).
Proof. reflexivity. Qed.

Lemma app_empty (t : string) : EmptyString +:+ t = t.
Proof. reflexivity. Qed.

Lemma length_app (s t : string) :
  String.length (s +:+ t) = String.length s + String.length t.
Proof.
  induction s as [|x s IH]; [done|]. rewrite app_cons. simpl. by rewrite IH.
Qed.

Lemma startsWith_length p : forall s,
  startsWith p s = true -> String.length p <= String.length s.
Proof.
  induction p as [|a p IH]; intros [|b s]; simpl; try lia; try done.
  intros [_ H]%andb_true_iff. apply IH in H. lia.
Qed.

(** A prefix is what [take] returns. *)
Lemma startsWith_take p : forall s,
  startsWith p s = true -> take (String.length p) s = p.
Proof.
  induction p as [|a p IH]; intros [|b s]; simpl; try done.
  intros [Hab H]%andb_true_iff. apply Ascii.eqb_eq in Hab as ->.
  by rewrite IH.
Qed.

Lemma take_startsWith n : forall s, startsWith (take n s) s = true.
Proof.
  induction n as [|n IH]; intros [|b s]; simpl; try done.
  by rewrite Ascii.eqb_refl, IH.
Qed.

Lemma startsWith_app p q : forall s,
  startsWith p s = true ->
  startsWith q (drop (String.length p) s) = true ->
  startsWith (p +:+ q) s = true.
Proof.
  induction p as [|a p IH]; intros s.
  - intros _ H. simpl in H. by rewrite ?drop_0 in H.
  - rewrite app_cons. simpl. destruct s as [|b s]; [done|].
    intros [-> H]%andb_true_iff Hq. simpl in *. by apply IH.
Qed.

Lemma take_app_drop n : forall s, take n s +:+ drop n s = s.
Proof.
  induction n as [|n IH]; intros [|b s]; try done.
  simpl. by rewrite app_cons, IH.
Qed.

Lemma take_take n : forall m s, n <= m -> take n (take m s) = take n s.
Proof.
  induction n as [|n IH]; intros [|m] [|b s] Hle; simpl; try done; try lia.
  rewrite IH; [done|lia].
Qed.

End JsFacts.

(** ** The matcher *)

Module RegexFacts.
Import Js JsFacts Regex.

Lemma reaches_here {R : Type} gs pos s c (k : cont R) x :
  k pos s c = Some x -> reaches gs pos s c k x.
Proof.
  intros H. exists 0, c. rewrite Nat.add_0_r, drop_0. split; [lia|done].
Qed.

Lemma reaches_mono {R : Type} gs gs' pos s c (k : cont R) x :
  gs ⊆ gs' -> reaches gs pos s c k x -> reaches gs' pos s c k x.
Proof.
  intros Hsub (n & c' & ? & ? & Hc). exists n, c'. split_and!; [done..|].
  intros g Hg. apply Hc. set_solver.
Qed.

(** Composition: the continuation of the first part is a run that
    itself reaches [k]. *)
Lemma reaches_seq {R : Type} gs pos s c (k : cont R) x
    (k1 : cont R) :
  reaches gs pos s c k1 x ->
  (forall pos' s' c', k1 pos' s' c' = Some x -> reaches gs pos' s' c' k x) ->
  reaches gs pos s c k x.
Proof.
  intros (n1 & c1 & Hn1 & Hk1 & Hc1) Hnext.
  destruct (Hnext _ _ _ Hk1) as (n2 & c2 & Hn2 & Hk & Hc2).
  exists (n1 + n2), c2. rewrite length_drop in Hn2.
  rewrite drop_drop in Hk. rewrite Nat.add_assoc. split_and!; [lia|done|].
  intros g Hg. rewrite Hc2, Hc1; done.
Qed.

Lemma iterate_reaches {R : Type} gs
    (body : nat -> string -> caps -> cont R -> option R) g (k : cont R) x :
  (forall pos s c k', body pos s c k' = Some x -> reaches gs pos s c k' x) ->
  forall fuel pos s c,
    iterate body g k fuel pos s c = Some x -> reaches gs pos s c k x.
Proof.
  intros Hbody. induction fuel as [|f IH]; intros pos s c; simpl.
  - apply reaches_here.
  - assert (Hmore :
      body pos s c (fun pos' s' c' =>
        if pos <? pos' then iterate body g k f pos' s' c' else None) = Some x ->
      reaches gs pos s c k x).
    { intros H. eapply reaches_seq; [by apply Hbody|].
      intros pos' s' c'. simpl. destruct (pos <? pos'); [apply IH|done]. }
    destruct g; unfold orElse.
    + destruct (body pos s c _) eqn:E.
      * intros [= ->]. by apply Hmore.
      * apply reaches_here.
    + destruct (k pos s c) eqn:E.
      * intros [= ->]. by apply reaches_here.
      * apply Hmore.
Qed.

Theorem run_reaches (r : re) : forall (R : Type) pos s c (k : cont R) x,
  run R r pos s c k = Some x -> reaches (groupsOf r) pos s c k x.
Proof.
  induction r as [l|neg items|r1 IH1 r2 IH2|r1 IH1 r2 IH2|g r1 IH1|g r1 IH1
                 |r1 IH1|n r1 IH1|r1 IH1|]; intros R pos s c k x; simpl.
  - destruct (startsWith l s) eqn:E; [|done]. intros H.
    exists (String.length l), c. split_and!; [by apply startsWith_length|done|done].
  - destruct s as [|a t]; [done|]. destruct (clsMatches neg items a); [|done].
    intros H. exists 1, c. rewrite Nat.add_1_r. simpl. rewrite ?drop_0.
    split_and!; [lia|done|done].
  - intros H. apply IH1 in H.
    eapply reaches_seq.
    + eapply reaches_mono; [|exact H]. set_solver.
    + intros pos' s' c' H'. apply IH2 in H'.
      eapply reaches_mono; [|exact H']. set_solver.
  - unfold orElse. destruct (run R r1 pos s c k) eqn:E.
    + intros [= ->]. apply IH1 in E. eapply reaches_mono; [|exact E]. set_solver.
    + intros H. apply IH2 in H. eapply reaches_mono; [|exact H]. set_solver.
  - apply iterate_reaches. intros. by apply IH1.
  - intros H. apply IH1 in H. eapply reaches_seq; [exact H|].
    intros pos' s' c'. apply iterate_reaches. intros. by apply IH1.
  - unfold orElse. destruct (run R r1 pos s c k) eqn:E.
    + intros [= ->]. by apply IH1.
    + apply reaches_here.
  - intros H. apply IH1 in H. destruct H as (m & c' & Hm & Hk & Hc).
    exists m, (<[n := take (pos + m - pos) s]> c'). split_and!; [done..|].
    intros g Hg. rewrite lookup_insert_ne by set_solver. apply Hc. set_solver.
  - destruct (run caps r1 pos s c _) as [c1|] eqn:E; [|done].
    intros H. apply IH1 in E. destruct E as (m & c' & _ & [= ->] & Hc).
    exists 0, c1. rewrite Nat.add_0_r, drop_0. split_and!; [lia|done|done].
  - destruct (pos =? 0); [|done]. apply reaches_here.
Qed.

End RegexFacts.

Module ScanFacts.
Import Js JsFacts Regex RegexFacts.

Lemma run_lit {R : Type} l pos s c (k : cont R) x :
  run R (Lit l) pos s c k = Some x ->
  startsWith l s = true /\ k (pos + String.length l) (drop (String.length l) s) c = Some x.
Proof. simpl. by destruct (startsWith l s). Qed.

(** A group records the text its body went over. *)
Lemma run_group {R : Type} n r pos s c (k : cont R) x :
  run R (Grp n r) pos s c k = Some x ->
  exists m c', m <= String.length s
    /\ k (pos + m) (drop m s) (<[n := take m s]> c') = Some x.
Proof.
  simpl. intros H. apply run_reaches in H.
  destruct H as (m & c' & Hm & Hk & _). exists m, c'.
  replace (pos + m - pos) with m in Hk by lia. done.
Qed.

Lemma matchAt_spec r pos s m :
  matchAt r pos s = Some m ->
  exists n, n <= String.length s /\ index m = pos /\ last m = pos + n
    /\ text m = take n s.
Proof.
  unfold matchAt. intros H. apply run_reaches in H.
  destruct H as (n & c' & Hn & [= <-] & _). exists n. simpl.
  replace (pos + n - pos) with n by lia. done.
Qed.

Lemma search_spec r : forall s pos m,
  search r pos s = Some m ->
  exists j, j <= String.length s /\ matchAt r (pos + j) (drop j s) = Some m.
Proof.
  induction s as [|a s IH]; intros pos m; simpl.
  - destruct (matchAt r pos EmptyString) eqn:E; [|done].
    intros [= ->]. exists 0. by rewrite Nat.add_0_r.
  - destruct (matchAt r pos (String a s)) eqn:E.
    + intros [= ->]. exists 0. rewrite Nat.add_0_r. split; [lia|done].
    + intros H. apply IH in H as (j & Hj & H). exists (S j).
      rewrite <-Nat.add_succ_comm. split; [lia|done].
Qed.

(** With such an expression the [exec] loop ends. *)
Lemma execLoopFrom_total r :
  productive r ->
  forall fuel pos s, String.length s < fuel ->
    exists ms, execLoopFrom r fuel pos s = Some ms.
Proof.
  intros Hr. induction fuel as [|f IH]; intros pos s Hlen; [lia|]. simpl.
  destruct (search r pos s) as [m|] eqn:E; [|by eexists].
  apply search_spec in E as (j & Hj & E).
  pose proof (Hr _ _ _ E) as Hne.
  apply matchAt_spec in E as (n & Hn & Hi & Hl & _).
  rewrite length_drop in Hn.
  destruct (last m <=? index m) eqn:Hcmp; [apply Nat.leb_le in Hcmp; lia|].
  destruct (IH (last m) (drop (last m - pos) s)) as [ms ->]; [|by eexists].
  rewrite length_drop. lia.
Qed.

(** The matches the loop collects follow one another, and each is a
    match of the expression at its own position. *)
Lemma execLoopFrom_ascending r : forall fuel pos s ms,
  execLoopFrom r fuel pos s = Some ms ->
  ascending pos ms /\
  Forall (fun m => pos <= index m /\
                   matchAt r (index m) (drop (index m - pos) s) = Some m) ms.
Proof.
  induction fuel as [|f IH]; intros pos s ms; [done|]. simpl.
  destruct (search r pos s) as [m|] eqn:E.
  2:{ intros [= <-]. split; constructor. }
  destruct (last m <=? index m) eqn:Hcmp; [done|].
  apply Nat.leb_gt in Hcmp.
  destruct (execLoopFrom r f (last m) (drop (last m - pos) s)) as [ms'|] eqn:E';
    [|done].
  intros [= <-]. apply IH in E' as [Hasc Hall].
  apply search_spec in E as (j & Hj & E).
  pose proof (matchAt_spec _ _ _ _ E) as (n & Hn & Hi & Hl & _).
  split.
  - constructor; [lia|done|done].
  - constructor.
    + split; [lia|]. rewrite Hi. by replace (pos + j - pos) with j by lia.
    + eapply Forall_impl; [exact Hall|]. intros m' [Hle Hm']. split; [lia|].
      rewrite drop_drop in Hm'.
      by replace (last m - pos + (index m' - last m)) with (index m' - pos) in Hm' by lia.
Qed.

End ScanFacts.

Module GeminiFacts.
Import Js JsFacts Regex RegexFacts ScanFacts Gemini.

(** A match of [promptRegex] begins with the token whose number is
    group 1. *)
Lemma promptRegex_token pos s m :
  matchAt promptRegex pos s = Some m ->
  exists num,
    group 1 m = Some num
    /\ startsWith ("[IMAGE_PROMPT_" +:+ num +:+ "]") s = true
    /\ index m < last m.
Proof.
  unfold matchAt, promptRegex. intros H.
  change (run found (?a >> ?b)) with
    (fun pos s c k => run found a pos s c
       (fun pos' s' c' => run found b pos' s' c' k)) in H.
  cbv beta in H.
  apply run_lit in H as [Hopen H].
  set (s1 := drop (String.length "[IMAGE_PROMPT_") s) in *.
  change (run found (?a >> ?b)) with
    (fun pos s c k => run found a pos s c
       (fun pos' s' c' => run found b pos' s' c' k)) in H.
  cbv beta in H.
  apply run_group in H as (n1 & c1 & Hn1 & H).
  change (run found (?a >> ?b)) with
    (fun pos s c k => run found a pos s c
       (fun pos' s' c' => run found b pos' s' c' k)) in H.
  cbv beta in H.
  apply run_lit in H as [Hclose H].
  apply run_reaches in H as (n2 & c2 & Hn2 & [= <-] & Hframe).
  exists (take n1 s1). split_and!.
  - unfold group. simpl. rewrite Hframe.
    + by rewrite lookup_insert_eq.
    + vm_compute. intros Hin. repeat (apply elem_of_cons in Hin as [Hin|Hin]; [done|]).
      by apply elem_of_nil in Hin.
  - apply startsWith_app; [done|]. fold s1.
    apply startsWith_app; [apply take_startsWith|].
    rewrite length_take. by replace (Nat.min n1 (String.length s1)) with n1 by lia.
  - simpl. lia.
Qed.

Lemma promptRegex_productive : productive promptRegex.
Proof. intros pos s m H. by apply promptRegex_token in H as (? & _ & _ & ?). Qed.

End GeminiFacts.

(** ** Computations: inversion and invariants *)

Module EffectFacts.
Import Effect.

Section Laws.
Context {S : Type}.
Implicit Types P : S -> Prop.

Lemma bind_inv {A B : Type} (m : M S A) (f : A -> M S B) st o st' :
  bind m f st = (o, st') ->
  (exists a st1, m st = (Ok a, st1) /\ f a st1 = (o, st'))
  \/ (exists e, m st = (Throw e, st') /\ o = Throw e)
  \/ (m st = (Hang, st') /\ o = Hang).
Proof.
  unfold bind. destruct (m st) as [[a|e|] st1]; intros H.
  - left. by exists a, st1.
  - right; left. injection H as <- <-. by exists e.
  - right; right. by injection H as <- <-.
Qed.

Lemma bind_ok {A B : Type} (m : M S A) (f : A -> M S B) st b st' :
  bind m f st = (Ok b, st') ->
  exists a st1, m st = (Ok a, st1) /\ f a st1 = (Ok b, st').
Proof.
  intros H. apply bind_inv in H as [H|[(e & _ & H)|[_ H]]]; [done|done|done].
Qed.

Lemma tryCatch_inv {A : Type} (body : M S A) (h : JsError -> M S A) st o st' :
  tryCatch body h st = (o, st') ->
  (exists e st1, body st = (Throw e, st1) /\ h e st1 = (o, st'))
  \/ (body st = (o, st') /\ forall e, o <> Throw e).
Proof.
  unfold tryCatch. destruct (body st) as [[a|e|] st1]; intros H.
  - right. by injection H as <- <-.
  - left. by exists e, st1.
  - right. by injection H as <- <-.
Qed.

Lemma keeps_ret {A : Type} P (a : A) : keeps P (ret a).
Proof. by intros st o st' HP [= <- <-]. Qed.

Lemma keeps_throw {A : Type} P e : keeps P (@throw S A e).
Proof. by intros st o st' HP [= <- <-]. Qed.

Lemma keeps_hang {A : Type} P : keeps P (@hang S A).
Proof. by intros st o st' HP [= <- <-]. Qed.

Lemma keeps_gets {A : Type} P (f : S -> A) : keeps P (gets f).
Proof. by intros st o st' HP [= <- <-]. Qed.

Lemma keeps_modify P (f : S -> S) :
  (forall st, P st -> P (f st)) -> keeps P (modify f).
Proof. intros Hf st o st' HP [= <- <-]. by apply Hf. Qed.

Lemma keeps_bind {A B : Type} P (m : M S A) (f : A -> M S B) :
  keeps P m -> (forall a, keeps P (f a)) -> keeps P (bind m f).
Proof.
  intros Hm Hf st o st' HP H.
  apply bind_inv in H as [(a & st1 & H1 & H2)|[(e & H1 & _)|[H1 _]]].
  - eapply Hf; [|exact H2]. by eapply Hm.
  - by eapply Hm.
  - by eapply Hm.
Qed.

Lemma keeps_tryCatch {A : Type} P (body : M S A) (h : JsError -> M S A) :
  keeps P body -> (forall e, keeps P (h e)) -> keeps P (tryCatch body h).
Proof.
  intros Hb Hh st o st' HP H.
  apply tryCatch_inv in H as [(e & st1 & H1 & H2)|[H1 _]].
  - eapply Hh; [|exact H2]. by eapply Hb.
  - by eapply Hb.
Qed.

Lemma noThrow_elim {A : Type} (m : M S A) st e st' :
  noThrow m -> m st = (Throw e, st') -> False.
Proof. intros Hm H. by eapply Hm. Qed.

Lemma noThrow_ret {A : Type} (a : A) : noThrow (@ret S A a).
Proof. by intros st o st' [= <- <-]. Qed.

Lemma noThrow_hang {A : Type} : noThrow (@hang S A).
Proof. by intros st o st' [= <- <-]. Qed.

Lemma noThrow_gets {A : Type} (f : S -> A) : noThrow (gets f).
Proof. by intros st o st' [= <- <-]. Qed.

Lemma noThrow_modify (f : S -> S) : noThrow (modify f).
Proof. by intros st o st' [= <- <-]. Qed.

Lemma noThrow_bind {A B : Type} (m : M S A) (f : A -> M S B) :
  noThrow m -> (forall a, noThrow (f a)) -> noThrow (bind m f).
Proof.
  intros Hm Hf st o st' H.
  apply bind_inv in H as [(a & st1 & H1 & H2)|[(e & H1 & _)|[H1 ->]]].
  - by eapply Hf.
  - exfalso. by eapply (Hm _ _ _ H1).
  - done.
Qed.

(** A [try] whose handler throws nothing throws nothing. *)
Lemma noThrow_tryCatch {A : Type} (body : M S A) (h : JsError -> M S A) :
  (forall e, noThrow (h e)) -> noThrow (tryCatch body h).
Proof.
  intros Hh st o st' H.
  apply tryCatch_inv in H as [(e & st1 & H1 & H2)|[H1 ?]]; [|done].
  by eapply Hh.
Qed.

Lemma settles_ret {A : Type} (a : A) : settles (@ret S A a).
Proof. by intros st o st' [= <- <-]. Qed.

Lemma settles_throw {A : Type} e : settles (@throw S A e).
Proof. by intros st o st' [= <- <-]. Qed.

Lemma settles_gets {A : Type} (f : S -> A) : settles (gets f).
Proof. by intros st o st' [= <- <-]. Qed.

Lemma settles_modify (f : S -> S) : settles (modify f).
Proof. by intros st o st' [= <- <-]. Qed.

Lemma settles_bind {A B : Type} (m : M S A) (f : A -> M S B) :
  settles m -> (forall a, settles (f a)) -> settles (bind m f).
Proof.
  intros Hm Hf st o st' H.
  apply bind_inv in H as [(a & st1 & H1 & H2)|[(e & H1 & ->)|[H1 ->]]].
  - by eapply Hf.
  - done.
  - exfalso. by eapply (Hm _ _ _ H1).
Qed.

Lemma settles_tryCatch {A : Type} (body : M S A) (h : JsError -> M S A) :
  settles body -> (forall e, settles (h e)) -> settles (tryCatch body h).
Proof.
  intros Hb Hh st o st' H.
  apply tryCatch_inv in H as [(e & st1 & H1 & H2)|[H1 _]].
  - by eapply Hh.
  - by eapply Hb.
Qed.

End Laws.

Create HintDb effect discriminated.
#[export] Hint Resolve keeps_ret keeps_throw keeps_hang keeps_gets
  keeps_bind keeps_tryCatch noThrow_ret noThrow_hang noThrow_gets
  noThrow_modify noThrow_bind noThrow_tryCatch : effect.

End EffectFacts.

(** ** The pipeline *)

Module PipelineFacts.
Import Js JsFacts Supabase Gemini Pipeline EffectFacts.

Lemma startsWith_prefix p : forall s, startsWith p (p +:+ s) = true.
Proof.
  induction p as [|a p IH]; intros s; [done|].
  rewrite app_cons. simpl. by rewrite Ascii.eqb_refl, IH.
Qed.

(** Two texts that begin with different characters do not begin one
    another. *)
Lemma startsWith_differs (p q s : string) :
  match p, q with
  | String a _, String b _ => a <> b
  | _, _ => False
  end ->
  startsWith p (q +:+ s) = false.
Proof.
  destruct p as [|a p], q as [|b q]; try done. intros Hab.
  rewrite app_cons. simpl. destruct (Ascii.eqb a b) eqn:E; [|done].
  by apply Ascii.eqb_eq in E.
Qed.

Lemma hasStatus_statusOf i s st : hasStatus i s st -> statusOf (db st) i = Some s.
Proof. intros (a & Ha & _ & <-). unfold statusOf. by rewrite Ha. Qed.

Lemma applyUpdate_status a u : noStatus u -> status (applyUpdate a u) = status a.
Proof. by destruct a, u. Qed.

Lemma applyUpdates_status us : forall a,
  Forall noStatus us -> status (applyUpdates a us) = status a.
Proof.
  unfold applyUpdates.
  induction us as [|u us IH]; intros a Hus; simpl; [done|].
  inversion Hus; subst. rewrite IH by done. by apply applyUpdate_status.
Qed.

Lemma applyUpdate_id a u : id (applyUpdate a u) = id a.
Proof. by destruct a, u. Qed.

Lemma applyUpdates_id us : forall a, id (applyUpdates a us) = id a.
Proof.
  unfold applyUpdates.
  induction us as [|u us IH]; intros a; simpl; [done|].
  by rewrite IH, applyUpdate_id.
Qed.

(** Primitive steps are taken apart by computation. *)
Ltac prim :=
  let st := fresh "st" in let o := fresh "o" in let st' := fresh "st'" in
  let HP := fresh "HP" in let H := fresh "H" in
  intros st o st' HP H;
  unfold emit, ask, store, pushError, stageDone, setArticle, setContent,
    modify, gets, ret, throw, hang in H;
  simpl in H; repeat case_match; simplify_eq; simpl; auto.

Ltac keeps_step :=
  lazymatch goal with
  | |- keeps _ (ret _) => apply keeps_ret
  | |- keeps _ (throw _) => apply keeps_throw
  | |- keeps _ hang => apply keeps_hang
  | |- keeps _ (gets _) => apply keeps_gets
  | |- keeps _ (bind _ _) => apply keeps_bind; [|intros ?]
  | |- keeps _ (tryCatch _ _) => apply keeps_tryCatch; [|intros ?]
  | |- keeps _ (match ?x with _ => _ end) => destruct x
  end.

Ltac noThrow_step :=
  lazymatch goal with
  | |- noThrow (ret _) => apply noThrow_ret
  | |- noThrow hang => apply noThrow_hang
  | |- noThrow (gets _) => apply noThrow_gets
  | |- noThrow (modify _) => apply noThrow_modify
  | |- noThrow (tryCatch _ _) => apply noThrow_tryCatch; intros ?
  | |- noThrow (bind _ _) => apply noThrow_bind; [|intros ?]
  | |- noThrow (match ?x with _ => _ end) => destruct x
  end.

Section Run.
Variable env : Env.
Variable topic : string.
Variable author : option string.

Abbreviation updateArticle := (updateArticle env).
Abbreviation store := (store env).
Abbreviation slugStep := (slugStep env topic).
Abbreviation bodyEnds := (bodyEnds env).

(** *** The status of a row *)

Lemma updateArticle_status c i us j s :
  Forall noStatus us -> keeps (hasStatus j s) (updateArticle c i us).
Proof.
  intros Hus st o st' HP H.
  unfold Pipeline.updateArticle, Pipeline.store, bind, gets, ret, throw in H.
  simpl in H.
  destruct (articles (db st) !! i) as [a|] eqn:Ha;
    destruct (storeError env c); simplify_eq; try done.
  unfold hasStatus in *. simpl.
  destruct (decide (i = j)) as [->|Hne].
  - rewrite lookup_insert_eq. destruct HP as (a' & Ha' & Hid & Hs).
    simplify_eq. eexists. split_and!; [done|..].
    + by rewrite applyUpdates_id.
    + by rewrite applyUpdates_status.
  - by rewrite lookup_insert_ne.
Qed.

Lemma store_status c f j s :
  (forall d, articles (f d) = articles d) ->
  keeps (hasStatus j s) (store c f).
Proof.
  intros Hf st o st' HP H. unfold Pipeline.store in H.
  destruct (storeError env c); injection H as _ <-; [done|].
  unfold hasStatus in *. simpl. by rewrite Hf.
Qed.

Ltac status_prim :=
  first
    [ solve [apply updateArticle_status; repeat constructor]
    | solve [apply store_status; by intros []]
    | solve [unfold hasStatus; prim] ].

Ltac status_tac := repeat keeps_step; status_prim.

Lemma processImage_status j s i n p :
  keeps (hasStatus j s) (processImage env i n p).
Proof.
  unfold processImage, createArticleImage, uploadImage, updateImageUrl.
  status_tac.
Qed.

Lemma processImages_status j s i ps : forall n,
  keeps (hasStatus j s) (processImages env i n ps).
Proof.
  induction ps as [|p ps IH]; intros n; simpl; [apply keeps_ret|].
  apply keeps_bind; [apply processImage_status|intros _; apply IH].
Qed.

Lemma categoryStage_status j s i : keeps (hasStatus j s) (categoryStage env i).
Proof. unfold categoryStage. status_tac. Qed.

Lemma seoStage_status j s i : keeps (hasStatus j s) (seoStage env topic i).
Proof. unfold seoStage. status_tac. Qed.

Lemma writingStage_status j s i seo :
  keeps (hasStatus j s) (writingStage env topic i seo).
Proof. unfold writingStage. status_tac. Qed.

Lemma humanizingStage_status j s i :
  keeps (hasStatus j s) (humanizingStage env topic i).
Proof. unfold humanizingStage. status_tac. Qed.

Lemma visualStage_status j s i : keeps (hasStatus j s) (visualStage env topic i).
Proof.
  unfold visualStage, thumbnail, uploadImage.
  repeat keeps_step; try status_prim. apply processImages_status.
Qed.

Lemma interactiveStage_status j s i :
  keeps (hasStatus j s) (interactiveStage env topic i).
Proof. unfold interactiveStage, createComponent. status_tac. Qed.

Lemma finalReviewStage_status j s i :
  keeps (hasStatus j s) (finalReviewStage env topic i).
Proof. unfold finalReviewStage. status_tac. Qed.


(** *** The article of [result] *)

Lemma updateArticle_article c i us a :
  keeps (hasArticle a) (updateArticle c i us).
Proof.
  intros st o st' HP H.
  unfold Pipeline.updateArticle, Pipeline.store, bind, gets, ret, throw in H.
  simpl in H.
  destruct (articles (db st) !! i); destruct (storeError env c);
    simplify_eq; done.
Qed.

Ltac article_prim :=
  first
    [ solve [apply updateArticle_article]
    | solve [unfold hasArticle; prim] ].

Ltac article_tac := repeat keeps_step; article_prim.

Lemma processImages_article a i ps : forall n,
  keeps (hasArticle a) (processImages env i n ps).
Proof.
  induction ps as [|p ps IH]; intros n; simpl; [apply keeps_ret|].
  apply keeps_bind; [|intros _; apply IH].
  unfold processImage, createArticleImage, uploadImage, updateImageUrl.
  article_tac.
Qed.

Lemma categoryStage_article a i : keeps (hasArticle a) (categoryStage env i).
Proof. unfold categoryStage. article_tac. Qed.

Lemma seoStage_article a i : keeps (hasArticle a) (seoStage env topic i).
Proof. unfold seoStage. article_tac. Qed.

Lemma writingStage_article a i seo :
  keeps (hasArticle a) (writingStage env topic i seo).
Proof. unfold writingStage. article_tac. Qed.

Lemma humanizingStage_article a i :
  keeps (hasArticle a) (humanizingStage env topic i).
Proof. unfold humanizingStage. article_tac. Qed.

Lemma visualStage_article a i : keeps (hasArticle a) (visualStage env topic i).
Proof.
  unfold visualStage, thumbnail, uploadImage.
  repeat keeps_step; try article_prim. apply processImages_article.
Qed.

Lemma interactiveStage_article a i :
  keeps (hasArticle a) (interactiveStage env topic i).
Proof. unfold interactiveStage, createComponent. article_tac. Qed.

Lemma finalReviewStage_article a i :
  keeps (hasArticle a) (finalReviewStage env topic i).
Proof. unfold finalReviewStage. article_tac. Qed.

(** *** Stages that catch their own failures *)

Lemma pushError_noThrow e : noThrow (pushError e).
Proof. apply noThrow_modify. Qed.

Lemma emit_noThrow s m : noThrow (emit topic s m).
Proof. apply noThrow_modify. Qed.

Lemma categoryStage_noThrow i : noThrow (categoryStage env i).
Proof. apply noThrow_tryCatch. intros e. apply pushError_noThrow. Qed.

Lemma seoStage_noThrow i : noThrow (seoStage env topic i).
Proof.
  apply noThrow_bind; [apply emit_noThrow|intros _].
  apply noThrow_tryCatch. intros e.
  apply noThrow_bind; [apply pushError_noThrow|intros _; apply noThrow_ret].
Qed.

Lemma humanizingStage_noThrow i : noThrow (humanizingStage env topic i).
Proof.
  apply noThrow_bind; [apply emit_noThrow|intros _].
  apply noThrow_tryCatch. intros e. apply pushError_noThrow.
Qed.

Lemma visualStage_noThrow i : noThrow (visualStage env topic i).
Proof. apply noThrow_tryCatch. intros e. apply pushError_noThrow. Qed.

Lemma interactiveStage_noThrow i : noThrow (interactiveStage env topic i).
Proof.
  apply noThrow_bind; [apply emit_noThrow|intros _].
  apply noThrow_tryCatch. intros e. apply pushError_noThrow.
Qed.

Lemma finalReviewStage_noThrow i : noThrow (finalReviewStage env topic i).
Proof.
  apply noThrow_bind; [apply emit_noThrow|intros _].
  apply noThrow_tryCatch. intros e. apply pushError_noThrow.
Qed.

(** *** Before stage 3 *)

Lemma updateArticle_early c i us : keeps early (updateArticle c i us).
Proof.
  intros st o st' HP H.
  unfold Pipeline.updateArticle, Pipeline.store, bind, gets, ret, throw in H.
  simpl in H.
  destruct (articles (db st) !! i); destruct (storeError env c);
    simplify_eq; done.
Qed.

Ltac early_prim :=
  first
    [ solve [apply updateArticle_early]
    | solve [unfold early, fromWritingOff; prim;
             destruct_and?; split_and?; simpl; try done;
             try (apply Forall_app; split; [done|]);
             repeat constructor;
             unfold earlyError, earlyEvent, earlyCall; simpl;
             rewrite ?startsWith_prefix; auto;
             by destruct (stages (result _))] ].

Ltac early_tac := repeat keeps_step; early_prim.

Lemma categoryStage_early i : keeps early (categoryStage env i).
Proof. unfold categoryStage. early_tac. Qed.

Lemma seoStage_early i : keeps early (seoStage env topic i).
Proof. unfold seoStage. early_tac. Qed.


(** *** The steps of the outer [try] *)

Lemma createArticle_spec st o st' :
  createArticle env topic author st = (o, st') ->
  match o with
  | Ok a =>
      storeError env CreateArticle = None /\ id a = newArticleId env
      /\ hasStatus (newArticleId env) processing st'
      /\ result st' = result st /\ emitted st' = emitted st
      /\ asked st' = asked st
  | Throw e => storeError env CreateArticle = Some e /\ st' = st
  | Hang => False
  end.
Proof.
  unfold createArticle, Pipeline.store, bind, ret. simpl.
  destruct (storeError env CreateArticle); intros [= <- <-]; [done|].
  split_and!; try done. eexists. simpl. rewrite lookup_insert_eq. done.
Qed.

Lemma setStatus_spec c i v s st o st' :
  hasStatus i s st ->
  updateArticle c i [SetStatus v] st = (o, st') ->
  match o with
  | Ok a =>
      storeError env c = None /\ id a = i /\ hasStatus i v st'
      /\ result st' = result st
  | Throw e => storeError env c = Some e /\ st' = st
  | Hang => False
  end.
Proof.
  intros (a & Ha & Hid & Hs).
  unfold Pipeline.updateArticle, Pipeline.store, bind, gets, ret, throw.
  simpl. rewrite Ha.
  destruct (storeError env c); intros [= <- <-]; [done|].
  split_and!; try done.
  - by destruct a.
  - eexists. simpl. rewrite lookup_insert_eq. split_and!; [done|..]; by destruct a.
Qed.

Lemma writingStage_spec i seo st o st' :
  hasStatus i processing st -> early st ->
  writingStage env topic i seo st = (o, st') ->
  match o with
  | Ok _ => writingFailure env = None
  | Throw e =>
      e = criticalWriting
      /\ exists e', writingFailure env = Some e' /\ afterWritingFailure e' st'
  | Hang => True
  end.
Proof.
  intros (a & Ha & Hid & Hs) (Herr & Hev & Hask & Hst).
  unfold writingStage, writingFailure, Pipeline.updateArticle, Pipeline.store,
    emit, ask, pushError, stageDone, setContent, tryCatch, bind, gets, ret,
    throw, modify.
  simpl. destruct (writeArticle env) as [ac|e|]; simpl.
  - rewrite Ha. destruct (storeError env UpdateWriting) as [e|]; simpl.
    + intros [= <- <-]. split; [done|]. exists e. split; [done|].
      unfold afterWritingFailure. simpl. split_and!; try done.
      * by eexists.
      * apply Forall_app. split; [done|]. apply Forall_singleton. by right.
      * apply Forall_app. split; [done|]. apply Forall_singleton.
        unfold earlyCall. auto.
    + by intros [= <- <-].
  - intros [= <- <-]. split; [done|]. exists e. split; [done|].
    unfold afterWritingFailure. simpl. split_and!; try done.
    * by eexists.
    * apply Forall_app. split; [done|]. apply Forall_singleton. by right.
    * apply Forall_app. split; [done|]. apply Forall_singleton.
      unfold earlyCall. auto.
  - by intros [= <- <-].
Qed.


Lemma slugStep_early : keeps early slugStep.
Proof. unfold slugStep. early_tac. Qed.

Lemma slugStep_noArticle : keeps noArticle slugStep.
Proof. unfold slugStep. repeat keeps_step; solve [unfold noArticle; prim]. Qed.

Lemma slugStep_noThrow : noThrow slugStep.
Proof. apply noThrow_tryCatch. intros e. apply noThrow_ret. Qed.

Lemma setArticle_spec a st o st' :
  setArticle a st = (o, st') ->
  o = Ok tt /\ hasArticle a st'
  /\ (forall i s, hasStatus i s st -> hasStatus i s st')
  /\ (early st -> early st').
Proof. by intros [= <- <-]. Qed.

Lemma emit_spec stage msg st o st' :
  emit topic stage msg st = (o, st') ->
  o = Ok tt
  /\ (forall a, hasArticle a st -> hasArticle a st')
  /\ (forall i s, hasStatus i s st -> hasStatus i s st').
Proof. by intros [= <- <-]. Qed.

Ltac inv_bind H a st2 Hm :=
  apply bind_inv in H as [(a & st2 & Hm & H)|[(? & Hm & ->)|[Hm ->]]].

Ltac absurd_throw Hm lem :=
  exfalso; eapply noThrow_elim; [apply lem|exact Hm].

Theorem pipelineBody_spec d o st1 :
  pipelineBody env topic author (start d) = (o, st1) -> bodyEnds o st1.
Proof.
  unfold pipelineBody. intros H.
  assert (early (start d) /\ noArticle (start d)) as [He Hn].
  { unfold early, start, noArticle, fromWritingOff. simpl.
    split_and!; done || constructor. }
  (* the first event *)
  inv_bind H u stA Hm;
    [|by unfold emit, modify in Hm|by unfold emit, modify in Hm].
  assert (early stA /\ noArticle stA) as [HeA HnA].
  { unfold emit, modify in Hm. injection Hm as Hm. subst stA.
    unfold early, noArticle, fromWritingOff. simpl.
    split_and!; try done; try (by constructor).
    apply Forall_singleton. by left. }
  clear He Hn Hm.
  (* the slug *)
  change (tryCatch _ _) with slugStep in H.
  inv_bind H slug stB Hm; [|absurd_throw Hm slugStep_noThrow|done].
  pose proof (slugStep_early _ _ _ HeA Hm) as HeB.
  pose proof (slugStep_noArticle _ _ _ HnA Hm) as HnB.
  clear HeA HnA Hm.
  (* the record *)
  inv_bind H a stC Hm.
  2:{ apply createArticle_spec in Hm as [Hm ->]. left. done. }
  2:{ by apply createArticle_spec in Hm. }
  apply createArticle_spec in Hm as (Hcreate & Hid & HsC & Hres & Hev & Hask).
  assert (early stC) as HeC.
  { unfold early in *. by rewrite Hres, Hev, Hask. }
  inv_bind H u' stD Hm;
    [|by apply setArticle_spec in Hm as [? _]
     |by apply setArticle_spec in Hm as [? _]].
  apply setArticle_spec in Hm as (_ & HaD & HsD & HeD).
  specialize (HsD _ _ HsC). specialize (HeD HeC).
  clear HeB HnB HsC Hres Hev Hask HeC. rewrite Hid in H.
  (* stage 0 *)
  inv_bind H u0 stE Hm; [|absurd_throw Hm categoryStage_noThrow|done].
  pose proof (categoryStage_article _ _ _ _ _ HaD Hm) as HaE.
  pose proof (categoryStage_status _ _ _ _ _ _ HsD Hm) as HsE.
  pose proof (categoryStage_early _ _ _ _ HeD Hm) as HeE.
  clear HaD HsD HeD Hm.
  (* stage 1 *)
  inv_bind H seo stF Hm; [|absurd_throw Hm seoStage_noThrow|done].
  pose proof (seoStage_article _ _ _ _ _ HaE Hm) as HaF.
  pose proof (seoStage_status _ _ _ _ _ _ HsE Hm) as HsF.
  pose proof (seoStage_early _ _ _ _ HeE Hm) as HeF.
  clear HaE HsE HeE Hm.
  (* stage 2 *)
  inv_bind H u2 stG Hm; [| |done].
  2:{ pose proof (writingStage_article _ _ _ _ _ _ HaF Hm) as HaG.
      pose proof (writingStage_status _ _ _ _ _ _ _ HsF Hm) as HsG.
      apply (writingStage_spec _ _ _ _ _ HsF HeF) in Hm as (-> & e' & Hw & Hafter).
      right. split_and!; [done|by exists a|done|]. left. by exists e'. }
  pose proof (writingStage_article _ _ _ _ _ _ HaF Hm) as HaG.
  pose proof (writingStage_status _ _ _ _ _ _ _ HsF Hm) as HsG.
  apply (writingStage_spec _ _ _ _ _ HsF HeF) in Hm as Hwrite.
  clear HaF HsF HeF Hm.
  (* stage 3 *)
  inv_bind H u3 stH Hm; [|absurd_throw Hm humanizingStage_noThrow|done].
  pose proof (humanizingStage_article _ _ _ _ _ HaG Hm) as HaH.
  pose proof (humanizingStage_status _ _ _ _ _ _ HsG Hm) as HsH.
  clear HaG HsG Hm.
  (* stage 4 *)
  inv_bind H u4 stI Hm; [|absurd_throw Hm visualStage_noThrow|done].
  pose proof (visualStage_article _ _ _ _ _ HaH Hm) as HaI.
  pose proof (visualStage_status _ _ _ _ _ _ HsH Hm) as HsI.
  clear HaH HsH Hm.
  (* stage 5 *)
  inv_bind H u5 stJ Hm; [|absurd_throw Hm interactiveStage_noThrow|done].
  pose proof (interactiveStage_article _ _ _ _ _ HaI Hm) as HaJ.
  pose proof (interactiveStage_status _ _ _ _ _ _ HsI Hm) as HsJ.
  clear HaI HsI Hm.
  (* stage 6 *)
  inv_bind H u6 stK Hm; [|absurd_throw Hm finalReviewStage_noThrow|done].
  pose proof (finalReviewStage_article _ _ _ _ _ HaJ Hm) as HaK.
  pose proof (finalReviewStage_status _ _ _ _ _ _ HsJ Hm) as HsK.
  clear HaJ HsJ Hm.
  (* ready for review *)
  inv_bind H a' stL Hm.
  2:{ apply (setStatus_spec _ _ _ _ _ _ _ HsK) in Hm as [Hm ->].
      right. split_and!; [done|by exists a|done|]. by right. }
  2:{ by apply (setStatus_spec _ _ _ _ _ _ _ HsK) in Hm. }
  apply (setStatus_spec _ _ _ _ _ _ _ HsK) in Hm as (Hmark & Hid' & HsL & Hres).
  inv_bind H u7 stM Hm;
    [|by apply setArticle_spec in Hm as [? _]
     |by apply setArticle_spec in Hm as [? _]].
  apply setArticle_spec in Hm as (_ & HaM & HsM & _).
  apply emit_spec in H as (-> & Ha1 & Hs1).
  simpl. split_and!; try done.
  - exists a'. split; [by apply Ha1|done].
  - by apply Hs1, HsM.
Qed.

End Run.
End PipelineFacts.

Module PipelineRun.
Import Js JsFacts Supabase Gemini Pipeline EffectFacts PipelineFacts.

Section Run.
Variable env : Env.
Variable topic : string.
Variable author : option string.

(** The outer [catch], entered with a record: the record goes back
    to draft, or the update throws. *)
Lemma pipelineFailed_record error a s st o st' :
  hasArticle a st -> id a <> "" -> hasStatus (id a) s st ->
  pipelineFailed env error st = (o, st') ->
  match o with
  | Ok _ =>
      storeError env MarkDraft = None
      /\ hasStatus (id a) draft st'
      /\ result st' =
           {| article := Some a; stages := stages (result st);
              errors := errors (result st)
                        ++ ["Pipeline failed: " +:+ render error] |}
      /\ emitted st' = emitted st /\ asked st' = asked st
  | Throw e => storeError env MarkDraft = Some e
  | Hang => False
  end.
Proof.
  intros Ha Hid (row & Hrow & Hrid & Hs).
  unfold pipelineFailed, updateArticle, store, pushError, bind, gets, ret,
    throw, modify.
  simpl. rewrite Ha. destruct (id a) as [|c i] eqn:Ei; [done|]. simpl.
  rewrite Hrow. destruct (storeError env MarkDraft); intros [= <- <-]; [done|].
  split_and!; try done.
  - eexists. simpl. rewrite lookup_insert_eq. split_and!; [done|..]; by destruct row.
  - simpl. unfold hasArticle in Ha. by destruct (result st); simplify_eq/=.
Qed.

(** The outer [catch], entered without a record. *)
Lemma pipelineFailed_noRecord error st o st' :
  noArticle st ->
  pipelineFailed env error st = (o, st') ->
  o = Ok tt /\ noArticle st'.
Proof.
  unfold noArticle, pipelineFailed, pushError, bind, gets, ret, modify.
  simpl. intros Hn. rewrite Hn. by intros [= <- <-].
Qed.

(** A run that returns, by the way the outer [try] ended. *)
Lemma executePipeline_returns d r st :
  executePipeline env topic author d = (Ok r, st) ->
  r = result st /\
  ((pipelineBody env topic author (start d) = (Ok tt, st))
   \/ exists e st1,
        pipelineBody env topic author (start d) = (Throw e, st1)
        /\ pipelineFailed env e st1 = (Ok tt, st)).
Proof.
  unfold executePipeline, executePipelineM. intros H.
  apply bind_ok in H as ([] & st2 & H & [= <- <-]). split; [done|].
  apply tryCatch_inv in H as [(e & st1 & Hb & Hf)|[Hb _]]; [right|left; done].
  by exists e, st1.
Qed.

End Run.

End PipelineRun.

(** ** Runs that end *)

Module PipelineSettles.
Import Js JsFacts Regex ScanFacts Supabase Gemini GeminiFacts Pipeline
  EffectFacts PipelineFacts.

Ltac settles_step :=
  lazymatch goal with
  | |- settles (ret _) => apply settles_ret
  | |- settles (throw _) => apply settles_throw
  | |- settles (gets _) => apply settles_gets
  | |- settles (modify _) => apply settles_modify
  | |- settles (bind _ _) => apply settles_bind; [|intros ?]
  | |- settles (tryCatch _ _) => apply settles_tryCatch; [|intros ?]
  | |- settles (match ?x with _ => _ end) => destruct x eqn:?
  | |- settles (if ?x then _ else _) => destruct x eqn:?
  end.

Section Run.
Variable env : Env.
Variable topic : string.
Variable author : option string.

Lemma settles_store c f : settles (store env c f).
Proof.
  intros st o st'. unfold store. by destruct (storeError env c); intros [= <- _].
Qed.

(** A request settles when its answer is not left open. *)
Lemma settles_ask {A : Type} c (answer : outcome A) :
  answer <> Hang -> settles (ask c answer).
Proof. intros Hne st o st' [= <- _]. done. Qed.

Lemma settles_emit stage msg : settles (emit topic stage msg).
Proof. apply settles_modify. Qed.

Lemma settles_updateArticle c i us : settles (updateArticle env c i us).
Proof. unfold updateArticle. repeat settles_step; apply settles_store. Qed.

Ltac settles_prim :=
  first
    [ apply settles_store
    | apply settles_emit
    | apply settles_updateArticle
    | apply settles_modify
    | apply settles_ask; done
    | (unfold pushError, stageDone, setArticle, setContent; apply settles_modify) ].

Ltac settle := repeat first [settles_step | settles_prim].

Lemma settles_processImage i n p : settles (processImage env i n p).
Proof.
  unfold processImage, createArticleImage, uploadImage, updateImageUrl. settle.
Qed.

Lemma settles_processImages i ps : forall n, settles (processImages env i n ps).
Proof.
  induction ps as [|p ps IH]; intros n; simpl; [apply settles_ret|].
  apply settles_bind; [apply settles_processImage|intros _; apply IH].
Qed.

(** The loop of [extractImagePrompts] ends on every text. *)
Lemma extractImagePrompts_total c : extractImagePrompts c <> None.
Proof.
  destruct (execLoopFrom_total promptRegex promptRegex_productive
              (S (String.length c)) 0 c) as [ms Hms]; [lia|].
  unfold extractImagePrompts, execLoop. by rewrite Hms.
Qed.

Lemma settles_visualStage i : settles (visualStage env topic i).
Proof.
  unfold visualStage, thumbnail, uploadImage.
  apply settles_tryCatch; [|intros ?; settle].
  apply settles_bind; [settle|intros _].
  apply settles_bind; [settle|intros _].
  apply settles_bind; [settle|intros c].
  destruct (extractImagePrompts c) eqn:E; [|by apply extractImagePrompts_total in E].
  apply settles_bind; [apply settles_processImages|intros _]. settle.
Qed.

(** When every request is answered the body of the outer [try]
    ends. *)
Lemma settles_pipelineBody :
  answered env -> settles (pipelineBody env topic author).
Proof.
  intros (H1 & H2 & H3 & H4 & H5 & H6).
  unfold pipelineBody.
  apply settles_bind; [settle|intros _].
  apply settles_bind; [by settle|intros _].
  apply settles_bind; [unfold createArticle; settle|intros a].
  apply settles_bind; [settle|intros _].
  apply settles_bind; [unfold categoryStage; by settle|intros _].
  apply settles_bind; [unfold seoStage; by settle|intros seo].
  apply settles_bind; [unfold writingStage; by settle|intros _].
  apply settles_bind; [unfold humanizingStage; by settle|intros _].
  apply settles_bind; [apply settles_visualStage|intros _].
  apply settles_bind; [unfold interactiveStage, createComponent; by settle|intros _].
  apply settles_bind; [unfold finalReviewStage; by settle|intros _].
  settle.
Qed.

End Run.

End PipelineSettles.

(** ** Claims C1 and C2: how a run ends *)

Module C1C2.
Import Js JsFacts Supabase Gemini Pipeline EffectFacts PipelineFacts
  PipelineRun SampleRuns.

Lemma pipelineFailed_article env error a :
  keeps (hasArticle a) (pipelineFailed env error).
Proof.
  intros st o st' Ha.
  unfold pipelineFailed, updateArticle, store, pushError, bind, gets, ret,
    throw, modify.
  simpl. unfold hasArticle in Ha. rewrite Ha.
  destruct (truthy (id a)); simpl.
  - destruct (articles (db st) !! id a); simpl;
      destruct (storeError env MarkDraft); by intros [= <- <-].
  - by intros [= <- <-].
Qed.

(** A run in which every request is answered and the update to draft
    is accepted returns. *)
Lemma executePipeline_ends env topic author d :
  answered env -> newArticleId env <> "" -> storeError env MarkDraft = None ->
  exists r st, executePipeline env topic author d = (Ok r, st).
Proof.
  intros Hans Hid Hdraft. unfold executePipeline, executePipelineM, bind, tryCatch.
  destruct (pipelineBody env topic author (start d)) as [[u|e|] st1] eqn:Hbody.
  - by eexists _, _.
  - pose proof (pipelineBody_spec _ _ _ _ _ _ Hbody) as Hends. simpl in Hends.
    destruct (pipelineFailed env e st1) as [o st2] eqn:Hcatch.
    destruct Hends as [[_ Hnone]|(_ & (a & Ha & Hida) & Hs & _)].
    + apply (pipelineFailed_noRecord _ _ _ _ _ Hnone) in Hcatch as [-> _].
      by eexists _, _.
    + rewrite <-Hida in Hs, Hid.
      apply (pipelineFailed_record _ _ _ _ _ _ _ Ha Hid Hs) in Hcatch.
      destruct o as [[]|e'|]; [by eexists _, _| |done].
      by rewrite Hdraft in Hcatch.
  - by apply (PipelineSettles.settles_pipelineBody env topic author Hans) in Hbody.
Qed.

(** The status of the record of a run that returns, by what failed. *)
Lemma status_after env topic author d r st :
  storeError env CreateArticle = None ->
  newArticleId env <> "" ->
  executePipeline env topic author d = (Ok r, st) ->
  (writingFailure env = None /\ storeError env MarkReview = None
   /\ statusOf (db st) (newArticleId env) = Some review)
  \/ ((writingFailure env <> None \/ storeError env MarkReview <> None)
      /\ statusOf (db st) (newArticleId env) = Some draft).
Proof.
  intros Hcreate Hid Hrun.
  apply executePipeline_returns in Hrun as [-> [Hbody|(e & st1 & Hbody & Hcatch)]].
  - left.
    pose proof (pipelineBody_spec _ _ _ _ _ _ Hbody) as Hends. simpl in Hends.
    destruct Hends as (_ & Hw & Hm & _ & Hs).
    split_and!; [done|done|by apply hasStatus_statusOf].
  - right.
    pose proof (pipelineBody_spec _ _ _ _ _ _ Hbody) as Hends. simpl in Hends.
    destruct Hends as [[Hc _]|(_ & (a0 & Ha0 & Hid0) & Hs & Hwhy)];
      [by rewrite Hcreate in Hc|].
    rewrite <-Hid0 in Hs, Hid.
    apply (pipelineFailed_record _ _ _ _ _ _ _ Ha0 Hid Hs) in Hcatch
      as (_ & Hdraft & _).
    rewrite Hid0 in Hdraft. split; [|by apply hasStatus_statusOf].
    destruct Hwhy as [(e' & -> & _)|(_ & ->)]; [by left|by right].
Qed.

(** C1, as stated, fails: when only the update that marks the record
    for review fails, no stage has failed (the six flags are set and
    the writing stage has not failed), and yet the record of the run
    that returns is in draft, not in review. *)
Lemma C1_counterexample :
  writingFailure markReviewFails = None
  /\ stages <$> returned (fst (executePipeline markReviewFails "T" None emptyDb))
     = Some {| seoResearch := true; writing := true; humanizing := true;
               visualGeneration := true; interactive := true;
               finalReview := true |}
  /\ errors <$> returned (fst (executePipeline markReviewFails "T" None emptyDb))
     = Some ["Pipeline failed: Error: boom"]
  /\ statusOf (db (snd (executePipeline markReviewFails "T" None emptyDb))) "a1"
     = Some draft.
Proof. split_and!; by vm_compute. Qed.

(** C1, amended: in a run that created its record, when
    [executePipeline] returns the status the table holds for the
    record is review or draft; it is review exactly when neither the
    writing stage nor the final update to review failed, and draft
    otherwise.  And the run does return, in that status, whenever
    every request is answered and the update to draft is accepted: a
    failure that reaches the outer [catch] ends in a result, with the
    record in draft. *)
Theorem C1_status_review_or_draft env topic author d :
  storeError env CreateArticle = None ->
  newArticleId env <> "" ->
  (forall r st,
     executePipeline env topic author d = (Ok r, st) ->
     (statusOf (db st) (newArticleId env) = Some review
      \/ statusOf (db st) (newArticleId env) = Some draft)
     /\ (statusOf (db st) (newArticleId env) = Some review
         <-> writingFailure env = None /\ storeError env MarkReview = None)
     /\ (statusOf (db st) (newArticleId env) = Some draft
         <-> writingFailure env <> None \/ storeError env MarkReview <> None))
  /\ (answered env -> storeError env MarkDraft = None ->
      exists r st,
        executePipeline env topic author d = (Ok r, st)
        /\ (writingFailure env = None /\ storeError env MarkReview = None ->
            statusOf (db st) (newArticleId env) = Some review)
        /\ (writingFailure env <> None \/ storeError env MarkReview <> None ->
            statusOf (db st) (newArticleId env) = Some draft)).
Proof.
  intros Hcreate Hid. split.
  - intros r st Hrun.
    destruct (status_after _ _ _ _ _ _ Hcreate Hid Hrun)
      as [(Hw & Hm & ->)|[Hfail ->]].
    + split_and!; [by left|done|]. split; [done|]. rewrite Hw, Hm. by intros [?|?].
    + split_and!; [by right| |done]. split; [done|]. intros [Hw Hm].
      rewrite Hw, Hm in Hfail. by destruct Hfail.
  - intros Hans Hdraft.
    destruct (executePipeline_ends env topic author d Hans Hid Hdraft)
      as (r & st & Hrun).
    exists r, st. split; [done|].
    destruct (status_after _ _ _ _ _ _ Hcreate Hid Hrun)
      as [(Hw & Hm & ->)|[Hfail ->]].
    + split; [done|]. rewrite Hw, Hm. by intros [?|?].
    + split; [|done]. intros [Hw Hm]. rewrite Hw, Hm in Hfail. by destruct Hfail.
Qed.

(** C1 at work, on a run that fails: the writing request is answered
    with an error, the run returns and its record is in draft. *)
Lemma C1_witness :
  storeError writingFails CreateArticle = None
  /\ newArticleId writingFails <> ""
  /\ answered writingFails
  /\ storeError writingFails MarkDraft = None
  /\ writingFailure writingFails = Some boom
  /\ exists r st,
       executePipeline writingFails "T" None emptyDb = (Ok r, st)
       /\ statusOf (db st) "a1" = Some draft.
Proof.
  assert (answered writingFails) as Hans by (by split_and!).
  split_and!; [done..|].
  destruct (proj2 (C1_status_review_or_draft writingFails "T" None emptyDb
                     eq_refl ltac:(done)) Hans eq_refl)
    as (r & st & Hrun & _ & Hs).
  exists r, st. split; [done|]. apply Hs. by left.
Defined.

Lemma earlyError_not_late e : earlyError e -> ~ lateError e.
Proof.
  unfold earlyError, lateError.
  assert (forall a p b s, startsWith (String a p) (String b s)
                          = Ascii.eqb a b && startsWith p s) as Hcons by done.
  intros [H|H] [L|[L|[L|L]]]; destruct e as [|c e]; try done;
    rewrite Hcons in H, L;
    apply andb_true_iff in H as [H _]; apply andb_true_iff in L as [L _];
    apply Ascii.eqb_eq in H; apply Ascii.eqb_eq in L; congruence.
Qed.

(** C2, as stated, fails: when the writing request fails for topic
    ["T"] and keywords [["x"]], two entries of [errors] speak of the
    writing stage, the one of the stage and the one of the outer
    [catch]. *)
Lemma C2_counterexample :
  errors <$> returned (fst (executePipeline writingFails "T" None emptyDb))
    = Some ["Writing failed: Error: boom";
            "Pipeline failed: Error: Critical: Writing stage failed"]
  /\ length (filter (fun e => writingRelated e = true)
               ["Writing failed: Error: boom";
                "Pipeline failed: Error: Critical: Writing stage failed"]) = 2.
Proof. split; by vm_compute. Qed.

(** C2, amended: when the writing stage fails with [e] in a run that
    created its record and returns, no later stage has run (their
    flags are off, none of their events was emitted, none of their
    requests was sent), the record is in draft, and [errors] ends with
    the entry of the writing stage followed by the entry of the outer
    [catch], after entries of stages 0 and 1 only; it holds no entry of
    a stage that was not reached. *)
Theorem C2_writing_failure_aborts env topic author d r st e :
  executePipeline env topic author d = (Ok r, st) ->
  storeError env CreateArticle = None ->
  newArticleId env <> "" ->
  writingFailure env = Some e ->
  fromWritingOff (stages r)
  /\ Forall earlyEvent (emitted st)
  /\ Forall earlyCall (asked st)
  /\ statusOf (db st) (newArticleId env) = Some draft
  /\ (exists pre,
        errors r = pre ++ ["Writing failed: " +:+ render e;
                           "Pipeline failed: Error: Critical: Writing stage failed"]
        /\ Forall earlyError pre)
  /\ Forall (fun x => ~ lateError x) (errors r).
Proof.
  intros Hrun Hcreate Hid Hw.
  apply executePipeline_returns in Hrun as [-> [Hbody|(e0 & st1 & Hbody & Hcatch)]].
  { pose proof (pipelineBody_spec _ _ _ _ _ _ Hbody) as Hends. simpl in Hends.
    destruct Hends as (_ & Hw' & _). by rewrite Hw in Hw'. }
  pose proof (pipelineBody_spec _ _ _ _ _ _ Hbody) as Hends. simpl in Hends.
  destruct Hends as [[Hc _]|(_ & (a0 & Ha0 & Hid0) & Hs & Hwhy)];
    [by rewrite Hcreate in Hc|].
  destruct Hwhy as [(e' & Hw' & -> & Hafter)|[Hw' _]]; [|by rewrite Hw in Hw'].
  rewrite Hw in Hw'. injection Hw' as <-.
  rewrite <-Hid0 in Hs, Hid.
  apply (pipelineFailed_record _ _ _ _ _ _ _ Ha0 Hid Hs) in Hcatch
    as (_ & Hdraft & Hres & Hev & Hask).
  destruct Hafter as ((pre & Hpre & Hearly) & Hevents & Hcalls & Hoff).
  rewrite Hres, Hev, Hask. simpl. rewrite <-Hid0.
  split_and!; try done.
  - by apply hasStatus_statusOf.
  - exists pre. rewrite Hpre, <-app_assoc. done.
  - rewrite Hpre. repeat (apply Forall_app; split).
    + eapply Forall_impl; [exact Hearly|]. apply earlyError_not_late.
    + apply Forall_singleton. unfold lateError.
      rewrite !(startsWith_differs _ "Writing failed: ") by done.
      by intros [?|[?|[?|?]]].
    + apply Forall_singleton. by vm_compute; intros [?|[?|[?|?]]].
Qed.

(** C2 at work, on the run of the counterexample. *)
Lemma C2_witness :
  exists r st,
    executePipeline writingFails "T" None emptyDb = (Ok r, st)
    /\ storeError writingFails CreateArticle = None
    /\ writingFailure writingFails = Some boom
    /\ statusOf (db st) "a1" = Some draft
    /\ fromWritingOff (stages r).
Proof.
  assert (exists r, fst (executePipeline writingFails "T" None emptyDb) = Ok r)
    as [r Hr] by (vm_compute; by eexists).
  destruct (executePipeline writingFails "T" None emptyDb) as [o st] eqn:Hrun.
  simpl in Hr. subst o.
  assert (newArticleId writingFails <> "") as Hid by done.
  pose proof (C2_writing_failure_aborts writingFails "T" None emptyDb r st boom
                Hrun eq_refl Hid eq_refl) as (Hoff & _ & _ & Hdraft & _).
  exists r, st. split_and!; [reflexivity|reflexivity|reflexivity|exact Hdraft|exact Hoff].
Defined.

End C1C2.

(** ** Claim C3: the clean-up of stage 4 *)

Module C3.
Import Supabase Pipeline Samples SampleRuns.

(** C3 does not hold of the code: the clean-up expression reads
    [[^n\!]] where the expression of the substitution reads
    [[^\n\!]], so an annotation is removed up to its first letter n
    only, and one without that letter is removed together with the
    text that follows it.  When the image of [[IMAGE_PROMPT_1]:
    sunset over the ocean] is not generated the stored body keeps
    ["nset over the ocean"]; so does a fourth placeholder keep the end
    of its annotation; when the image is generated the same annotation
    goes as a whole. *)
Theorem C3_cleanup_leaves_annotation :
  storedBody (executePipeline (writes annotatedBody noImage) "T" None emptyDb)
    = Some ("Intro" +:+ Js.nl +:+ "nset over the ocean" +:+ Js.nl +:+ "More text")
  /\ storedBody (executePipeline (writes annotatedBody everyImage) "T" None emptyDb)
       = Some ("Intro" +:+ Js.nl +:+ Js.nl +:+ Js.nl +:+
               "![alt text](https://cdn.example/articles/a1/image-1.png)"
               +:+ Js.nl +:+ Js.nl +:+ Js.nl +:+ "More text")
  /\ storedBody (executePipeline (writes fourBody everyImage) "T" None emptyDb)
       = Some ("## A" +:+ Js.nl +:+ Js.nl +:+ Js.nl +:+
               "![alt text](https://cdn.example/articles/a1/image-1.png)"
               +:+ Js.nl +:+ Js.nl +:+ Js.nl +:+
               "## B" +:+ Js.nl +:+ Js.nl +:+ Js.nl +:+
               "![alt text](https://cdn.example/articles/a1/image-2.png)"
               +:+ Js.nl +:+ Js.nl +:+ Js.nl +:+
               "## C" +:+ Js.nl +:+ Js.nl +:+ Js.nl +:+
               "![alt text](https://cdn.example/articles/a1/image-3.png)"
               +:+ Js.nl +:+ Js.nl +:+ Js.nl +:+
               "## D" +:+ Js.nl +:+ "ne tree" +:+ Js.nl +:+ "The end.")
  /\ cleanup catBody = "ne".
Proof. split_and!; by vm_compute. Qed.

End C3.

(** ** Claim C5: the progress stream *)

Module C5.
Import Js Pipeline Stream.

Lemma emitAll_snoc events : forall bus s,
  emitAll events (bus ++ [s]) = emitAll events bus ++ [forwardTo events s].
Proof.
  unfold emitAll, forwardTo.
  induction events as [|e events IH]; intros bus s; simpl; [done|].
  unfold emit at 2. rewrite map_app. simpl. apply IH.
Qed.

Lemma receivedByLast_snoc bus s : receivedByLast (bus ++ [s]) = received s.
Proof.
  unfold receivedByLast. rewrite map_app.
  change (map Some [s]) with [Some s]. by rewrite last_last.
Qed.

Lemma deliver_topic e t s : sub_topic (deliver e t s) = sub_topic s.
Proof. unfold deliver. by destruct (matchesTopic _ _). Qed.

Lemma forwardTo_received events : forall s,
  received (forwardTo events s)
  = received s ++
    map (fun e => toMessage (fst e) (snd e))
      (filter (fun e => matchesTopic (sub_topic s) (fst e) = true) events).
Proof.
  unfold forwardTo.
  induction events as [|e events IH]; intros s; simpl; [by rewrite app_nil_r|].
  rewrite IH, deliver_topic. unfold deliver at 1.
  rewrite filter_cons. case_decide as E.
  - rewrite E. simpl. by rewrite <-app_assoc.
  - apply not_true_is_false in E. by rewrite E.
Qed.

Lemma matchesTopic_spec topic e :
  matchesTopic topic e = true <->
  exists tp, ev_topic e = Some tp
             /\ trim (toLowerCase tp) = trim (toLowerCase topic).
Proof.
  unfold matchesTopic, normalize. destruct (ev_topic e) as [tp|]; simpl.
  - rewrite String.eqb_eq. split; [by exists tp|by intros (? & [= <-] & ?)].
  - split; [done|by intros (? & ? & _)].
Qed.

(** C5: the client that subscribes to [topic] is first sent the
    acknowledgement, whose stage is ["System"], and then, in order,
    one message for each event emitted afterwards whose topic equals
    the subscribed one once both are lower-cased and trimmed, and for
    no other event.  A subscriber to ["Rust"] is sent an event with
    topic ["rust "] and none with topic ["go"] or ["rustacean"]. *)
Theorem C5_stream_filters_by_topic (bus : Bus) (topic t : string)
    (events : list (Event * string)) :
  receivedByLast (emitAll events (streamProgress topic t bus))
    = connectedEvent t ::
      map (fun e => toMessage (fst e) (snd e))
        (filter (fun e => matchesTopic topic (fst e) = true) events)
  /\ stage (connectedEvent t) = "System"
  /\ (forall e, matchesTopic topic e = true <->
        exists tp, ev_topic e = Some tp
                   /\ trim (toLowerCase tp) = trim (toLowerCase topic))
  /\ matchesTopic "Rust"
       {| ev_topic := Some "rust "; ev_stage := "writing"; ev_message := "m" |}
     = true
  /\ matchesTopic "Rust"
       {| ev_topic := Some "go"; ev_stage := "writing"; ev_message := "m" |}
     = false
  /\ matchesTopic "Rust"
       {| ev_topic := Some "rustacean"; ev_stage := "writing"; ev_message := "m" |}
     = false.
Proof.
  split_and!; [|done|apply matchesTopic_spec|by vm_compute..].
  unfold streamProgress.
  by rewrite emitAll_snoc, receivedByLast_snoc, forwardTo_received.
Qed.

End C5.

(** ** Claims C6, C7 and C8: the scheduler *)

Module SchedulerFacts.
Import Js Supabase Pipeline Agent EffectFacts.

Lemma armed_idle w : idle w -> armed w = [].
Proof.
  unfold idle, armed. induction (jobs w) as [|j l IH]; [done|].
  intros Hall. inversion Hall as [|?? Hj Hl]; subst.
  rewrite filter_cons_False by (by rewrite Hj). by apply IH.
Qed.

Section Service.
Variable env : Env.

Lemma stopJob_idle w h :
  wellFormed w -> cronJobs w !! JOB_NAME = Some h ->
  Forall (fun j => running j = false) (stopJob h (jobs w)).
Proof.
  intros Hwf Hreg. apply Forall_lookup. intros i x Hx. unfold stopJob in Hx.
  destruct (running x) eqn:Hrun; [exfalso|done].
  destruct (jobs w !! h) as [j|] eqn:Hh.
  - destruct (decide (h = i)) as [->|Hne].
    + rewrite list_lookup_insert_eq in Hx by (by eapply lookup_lt_Some).
      by simplify_eq.
    + rewrite list_lookup_insert_ne in Hx by done.
      pose proof (Hwf _ _ Hx Hrun) as Hreg'. congruence.
  - pose proof (Hwf _ _ Hx Hrun) as Hreg'. congruence.
Qed.

(** [stopCron] returns, and leaves no timer armed and no job
    registered. *)
Lemma stopCron_spec w o w' :
  wellFormed w -> stopCron w = (o, w') ->
  o = Ok tt /\ idle w' /\ cronJobs w' !! JOB_NAME = None
  /\ agent_config w' = agent_config w.
Proof.
  intros Hwf. unfold stopCron, tryCatch, bind, gets, ret, deleteCronJob.
  destruct (cronJobs w !! JOB_NAME) as [h|] eqn:Hreg; simpl.
  - rewrite Hreg. intros [= <- <-]. split_and!; try done.
    + by apply stopJob_idle.
    + simpl. apply lookup_delete_eq.
  - intros [= <- <-]. split_and!; try done.
    apply Forall_lookup. intros i x Hx.
    destruct (running x) eqn:Hrun; [|done].
    pose proof (Hwf _ _ Hx Hrun). congruence.
Qed.

Lemma idle_wellFormed w : idle w -> wellFormed w.
Proof.
  intros Hidle h j Hj Hrun. unfold idle in Hidle.
  rewrite Forall_lookup in Hidle. specialize (Hidle _ _ Hj). congruence.
Qed.

(** [updateCron]: with an expression the library accepts, exactly
    the new timer is armed; with one it rejects, the call throws and
    no timer is armed. *)
Lemma updateCron_spec cronExp w o w' :
  wellFormed w -> updateCron env cronExp w = (o, w') ->
  wellFormed w' /\ agent_config w' = agent_config w /\
  if cronAccepts env cronExp
  then o = Ok tt
       /\ armed w' = [{| cronTime := cronExp; running := true |}]
       /\ exists h, cronJobs w' !! JOB_NAME = Some h
                    /\ jobs w' !! h = Some {| cronTime := cronExp; running := true |}
  else (exists e, o = Throw e) /\ armed w' = []
       /\ cronJobs w' !! JOB_NAME = None.
Proof.
  intros Hwf H. unfold updateCron in H.
  apply bind_inv in H as [(u & w1 & Hstop & H)|[(e & Hstop & ->)|[Hstop ->]]];
    apply (stopCron_spec _ _ _ Hwf) in Hstop as (Ho & Hidle & Hnone & Hcfg);
    try done.
  unfold bind, newCronJob, addCronJob, modify in H.
  destruct (cronAccepts env cronExp) eqn:Hacc; simpl in H.
  - rewrite Hnone in H. simpl in H. injection H as <- <-. simpl.
    assert (startJob (length (jobs w1))
              (jobs w1 ++ [{| cronTime := cronExp; running := false |}])
            = jobs w1 ++ [{| cronTime := cronExp; running := true |}]) as Hjobs.
    { unfold startJob. rewrite lookup_app_r by lia.
      rewrite Nat.sub_diag. simpl.
      replace (length (jobs w1)) with (length (jobs w1) + 0) at 1 by lia.
      by rewrite insert_app_r. }
    rewrite Hjobs. split_and!; try done.
    + intros h j Hj Hrun. simpl in *. rewrite lookup_insert_eq.
      rewrite ?Hjobs in Hj.
      apply lookup_app_Some in Hj as [Hj|[Hlen Hj]].
      * unfold idle in Hidle. rewrite Forall_lookup in Hidle.
        specialize (Hidle _ _ Hj). congruence.
      * destruct (h - length (jobs w1)) as [|n] eqn:E; [|done].
        f_equal. lia.
    + unfold armed. simpl. rewrite ?Hjobs, filter_app.
      fold (armed w1). rewrite (armed_idle _ Hidle). done.
    + exists (length (jobs w1)). simpl. rewrite lookup_insert_eq. split; [done|].
      rewrite ?Hjobs, lookup_app_r by lia. by rewrite Nat.sub_diag.
  - injection H as <- <-. split_and!; try done.
    + by apply idle_wellFormed.
    + by eexists.
    + by apply armed_idle.
Qed.

End Service.
End SchedulerFacts.

(** ** When the jobs fire *)

Module CronFacts.
Import Js Cron Agent.
Local Open Scope N_scope.

Lemma mod_mod_divide x m k : (k | m) -> (x mod m) mod k = x mod k.
Proof.
  intros [j ->]. rewrite (N.mul_comm j k), N.Div0.mod_mul_r.
  rewrite (N.mul_comm k), N.Div0.mod_add. apply N.Div0.mod_mod.
Qed.

(** A moment is a multiple of [p] seconds. *)
Lemma every_multiple (fires : N -> bool) p :
  0 < p ->
  (forall t, fires t = true <-> t mod p = 0) ->
  fires 0 = true
  /\ forall t, fires t = true ->
       fires (t + p) = true
       /\ forall d, 0 < d < p -> fires (t + d) = false.
Proof.
  intros Hp Hiff. split; [apply Hiff; by rewrite N.Div0.mod_0_l|].
  intros t Ht. apply Hiff in Ht. split.
  - apply Hiff. rewrite <-(N.mul_1_l p) at 1. by rewrite N.Div0.mod_add.
  - intros d Hd. apply not_true_is_false. intros Hf. apply Hiff in Hf.
    rewrite <-N.Div0.add_mod_idemp_l, Ht, N.add_0_l in Hf.
    rewrite N.mod_small in Hf by lia. lia.
Qed.

Lemma minutes_multiple k t :
  0 < k -> (k | 60) ->
  (t mod 60 = 0 /\ (t / 60 mod 60) mod k = 0) <-> t mod (60 * k) = 0.
Proof.
  intros Hk Hdiv. rewrite mod_mod_divide by done.
  rewrite N.Div0.mod_mul_r. split.
  - intros [-> ->]. done.
  - intros [H1 H2]%N.eq_add_0. split; [done|].
    by apply N.eq_mul_0 in H2 as [?|?].
Qed.

Lemma hours_multiple k t :
  0 < k -> (k | 24) ->
  (t mod 60 = 0 /\ t / 60 mod 60 = 0 /\ (t / 3600 mod 24) mod k = 0)
  <-> t mod (3600 * k) = 0.
Proof.
  intros Hk Hdiv. rewrite mod_mod_divide by done.
  rewrite N.Div0.mod_mul_r.
  assert (t mod 3600 = t mod 60 + 60 * (t / 60 mod 60)) as H3600.
  { change 3600 with (60 * 60). apply N.Div0.mod_mul_r. }
  rewrite H3600. split.
  - intros (-> & -> & ->). done.
  - intros [[H1 H2]%N.eq_add_0 H3]%N.eq_add_0.
    apply N.eq_mul_0 in H2 as [?|H2]; [done|].
    apply N.eq_mul_0 in H3 as [?|H3]; [done|]. done.
Qed.

Lemma firesEvery_minutes e k :
  fields e = [Some (At 0); Some (Step k); Some Any; Some Any; Some Any; Some Any] ->
  0 < k -> (k | 60) -> firesEvery e (60 * k).
Proof.
  intros He Hk Hdiv. split; [lia|].
  apply every_multiple; [lia|]. intros t.
  rewrite <-minutes_multiple by done. unfold firesAt. rewrite He. simpl.
  rewrite andb_true_r, !andb_true_iff, !N.eqb_eq, N.ltb_lt. tauto.
Qed.

Lemma firesEvery_hours e k :
  fields e = [Some (At 0); Some (At 0); Some (Step k); Some Any; Some Any; Some Any] ->
  0 < k -> (k | 24) -> firesEvery e (3600 * k).
Proof.
  intros He Hk Hdiv. split; [lia|].
  apply every_multiple; [lia|]. intros t.
  rewrite <-hours_multiple by done. unfold firesAt. rewrite He. simpl.
  rewrite !andb_true_iff, !N.eqb_eq, N.ltb_lt. tauto.
Qed.

(** The fields of the expressions the service builds. *)
Lemma fields_minutes n :
  (0 < n < 60)%Z ->
  fields ("0 */" +:+ ofZ n +:+ " * * * *")
  = [Some (At 0); Some (Step (Z.to_N n)); Some Any; Some Any; Some Any; Some Any].
Proof.
  intros Hn.
  assert (forallb (fun i =>
            bool_decide (fields ("0 */" +:+ ofZ (Z.of_nat i) +:+ " * * * *")
                         = [Some (At 0); Some (Step (N.of_nat i)); Some Any;
                            Some Any; Some Any; Some Any]))
            (seq 1 59) = true) as Hall by (by vm_compute).
  rewrite forallb_forall in Hall.
  specialize (Hall (Z.to_nat n)). rewrite Z2Nat.id in Hall by lia.
  rewrite <-Z_N_nat, N2Nat.id in Hall.
  apply bool_decide_eq_true in Hall; [done|]. apply in_seq. lia.
Qed.

Lemma fields_hours h :
  (0 < h <= 24)%Z ->
  fields ("0 0 */" +:+ ofZ h +:+ " * * *")
  = [Some (At 0); Some (At 0); Some (Step (Z.to_N h)); Some Any; Some Any; Some Any].
Proof.
  intros Hn.
  assert (forallb (fun i =>
            bool_decide (fields ("0 0 */" +:+ ofZ (Z.of_nat i) +:+ " * * *")
                         = [Some (At 0); Some (At 0); Some (Step (N.of_nat i));
                            Some Any; Some Any; Some Any]))
            (seq 1 24) = true) as Hall by (by vm_compute).
  rewrite forallb_forall in Hall.
  specialize (Hall (Z.to_nat h)). rewrite Z2Nat.id in Hall by lia.
  rewrite <-Z_N_nat, N2Nat.id in Hall.
  apply bool_decide_eq_true in Hall; [done|]. apply in_seq. lia.
Qed.

Lemma divide_to_N a b : (0 < a)%Z -> (0 < b)%Z -> (a | b)%Z -> (Z.to_N a | Z.to_N b).
Proof.
  intros Ha Hb [q Hq]. exists (Z.to_N q). rewrite <-Z2N.inj_mul by nia. by rewrite Hq.
Qed.

Lemma cronExpression_minutes n :
  (0 < n < 60)%Z -> (n | 60)%Z ->
  firesEvery (cronExpression n) (Z.to_N (60 * n)).
Proof.
  intros Hn Hdiv.
  assert (cronExpression n = "0 */" +:+ ofZ n +:+ " * * * *") as ->.
  { unfold cronExpression. by destruct (n <? 60)%Z eqn:E; [|apply Z.ltb_ge in E; lia]. }
  rewrite Z2N.inj_mul by lia.
  apply firesEvery_minutes; [by apply fields_minutes|lia|].
  apply (divide_to_N n 60); [lia|lia|done].
Qed.

Lemma cronExpression_hours n :
  (60 <= n)%Z -> (n / 60 | 24)%Z ->
  firesEvery (cronExpression n) (Z.to_N (3600 * (n / 60))).
Proof.
  intros Hn Hdiv.
  assert (0 < n / 60)%Z as Hpos by (apply Z.div_str_pos; lia).
  assert (n / 60 <= 24)%Z as Hle by (apply Z.divide_pos_le; [lia|done]).
  assert (cronExpression n = "0 0 */" +:+ ofZ (n / 60) +:+ " * * *") as ->.
  { unfold cronExpression. by destruct (n <? 60)%Z eqn:E; [apply Z.ltb_lt in E; lia|]. }
  rewrite Z2N.inj_mul by lia.
  apply firesEvery_hours; [by apply fields_hours|lia|].
  apply (divide_to_N (n / 60) 24); [lia|lia|done].
Qed.

End CronFacts.

Module C6C7C8.
Import Js Supabase Pipeline Agent EffectFacts SchedulerFacts SampleWorlds.

(** How a reconciliation ends. *)
Lemma setupScheduler_spec env w o w' :
  wellFormed w -> setupScheduler env w = (o, w') ->
  (forall e, o <> Throw e)
  /\ wellFormed w'
  /\ match loaded env w with
     | None => w' = w
     | Some config =>
         if is_active config
         then if cronAccepts env (cronExpression (intervalMins config))
              then o = Ok tt
                   /\ armed w' =
                        [{| cronTime := cronExpression (intervalMins config);
                            running := true |}]
              else o = Ok tt /\ armed w' = []
                   /\ cronJobs w' !! JOB_NAME = None
         else o = Ok tt /\ armed w' = [] /\ cronJobs w' !! JOB_NAME = None
     end.
Proof.
  intros Hwf H. unfold setupScheduler in H.
  apply tryCatch_inv in H as [(e & w1 & Hbody & H)|[Hbody Hno]].
  - (* something was thrown and caught *)
    injection H as <- <-. split; [done|].
    unfold loaded. unfold bind, gets in Hbody.
    destruct (configSelect env) as [[|]|e'|]; simpl in Hbody;
      try (by injection Hbody as _ <-).
    destruct (single (agent_config w)) as [config|];
      [|by injection Hbody as _ <-].
    destruct (is_active config); simpl in Hbody.
    + destruct (updateCron_spec _ _ _ _ _ Hwf Hbody) as (Hwf' & _ & Hup).
      split; [done|].
      destruct (cronAccepts env _); destruct Hup as (Ho & Ha & Hr);
        [done|by split_and!].
    + by apply (stopCron_spec _ _ _ Hwf) in Hbody as [? _].
  - split; [done|].
    unfold loaded. unfold bind, gets in Hbody.
    destruct (configSelect env) as [[|]|e'|]; simpl in Hbody;
      try (by injection Hbody as _ <-).
    destruct (single (agent_config w)) as [config|];
      [|by injection Hbody as _ <-].
    destruct (is_active config); simpl in Hbody.
    + destruct (updateCron_spec _ _ _ _ _ Hwf Hbody) as (Hwf' & _ & Hup).
      split; [done|].
      destruct (cronAccepts env _).
      * by destruct Hup as (? & ? & _).
      * destruct Hup as ((e & ->) & _). by specialize (Hno e).
    + apply (stopCron_spec _ _ _ Hwf) in Hbody as (-> & Hidle & Hnone & _).
      split; [by apply idle_wellFormed|].
      split_and!; [done|by apply armed_idle|done].
Qed.

Lemma reachable_inv w : reachable w -> wellFormed w /\ length (armed w) <= 1.
Proof.
  induction 1 as [w Hj Hr|env w o w' _ [Hwf Hlen] Hsetup|w w' _ [Hwf Hlen] [Hr Hj]].
  - split.
    + intros h j Hh. by rewrite Hj in Hh.
    + unfold armed. rewrite Hj. simpl. lia.
  - destruct (setupScheduler_spec _ _ _ _ Hwf Hsetup) as (_ & Hwf' & Hcase).
    split; [done|].
    destruct (loaded env w) as [config|]; [|by subst].
    destruct (is_active config); [destruct (cronAccepts env _)|];
      destruct_and?; by match goal with H : armed _ = _ |- _ => rewrite H; simpl; lia end.
  - split.
    + intros h j. rewrite Hr, Hj. apply Hwf.
    + unfold armed in *. by rewrite Hj.
Qed.

(** C6, as stated, fails: with the interval -5 the configuration is
    active and reconciliation arms no timer, for the cron library
    rejects [0 */-5 * * * *]; and the timer armed for 45 minutes, with
    [0 */45 * * * *], fires at 00:45:00 and again at 01:00:00, a
    quarter of an hour later: it does not fire every 45 minutes. *)
Lemma C6_counterexample :
  loaded calmEnv (freshWorld (config (-5) true)) = Some (config (-5) true)
  /\ is_active (config (-5) true) = true
  /\ armed (snd (setupScheduler calmEnv (freshWorld (config (-5) true)))) = []
  /\ armed (snd (setupScheduler calmEnv (freshWorld (config 45 true))))
     = [{| cronTime := "0 */45 * * * *"; running := true |}]
  /\ Cron.firesAt "0 */45 * * * *" (45 * 60) = true
  /\ Cron.firesAt "0 */45 * * * *" (60 * 60) = true
  /\ ~ Cron.firesEvery "0 */45 * * * *" (45 * 60).
Proof.
  split_and!; [by vm_compute..|].
  intros (_ & _ & Hevery).
  destruct (Hevery (45 * 60)%N) as [_ Hnone]; [by vm_compute|].
  by specialize (Hnone (15 * 60)%N ltac:(lia)).
Qed.

(** C6, amended: with an active configuration whose interval is [n]
    minutes (120 when it is missing or 0), reconciliation returns and
    arms exactly one timer when the cron library accepts the
    expression, and none when it rejects it.  The expression is
    [0 */n * * * *] for [n] below 60 and [0 0 */h * * *] with [h] the
    floor of [n / 60] from 60 on.  Such a timer fires every [n]
    minutes when [n] divides 60 and every [h] hours when [h] divides
    24: 30 gives a timer that fires every 30 minutes and 150 one that
    fires every 2 hours. *)
Theorem C6_interval_to_schedule env w config :
  wellFormed w ->
  loaded env w = Some config ->
  is_active config = true ->
  let n := intervalMins config in
  fst (setupScheduler env w) = Ok tt
  /\ armed (snd (setupScheduler env w))
     = (if cronAccepts env (cronExpression n)
        then [{| cronTime := cronExpression n; running := true |}]
        else [])
  /\ ((n < 60)%Z -> cronExpression n = "0 */" +:+ ofZ n +:+ " * * * *")
  /\ ((60 <= n)%Z -> cronExpression n = "0 0 */" +:+ ofZ (n / 60) +:+ " * * *")
  /\ ((0 < n < 60)%Z -> (n | 60)%Z ->
      Cron.firesEvery (cronExpression n) (Z.to_N (60 * n)))
  /\ ((60 <= n)%Z -> (n / 60 | 24)%Z ->
      Cron.firesEvery (cronExpression n) (Z.to_N (3600 * (n / 60))))
  /\ Cron.firesEvery (cronExpression 30) (30 * 60)
  /\ Cron.firesEvery (cronExpression 150) (2 * 3600).
Proof.
  intros Hwf Hload Hact n.
  destruct (setupScheduler env w) as [o w'] eqn:Hsetup.
  destruct (setupScheduler_spec _ _ _ _ Hwf Hsetup) as (_ & _ & Hcase).
  rewrite Hload, Hact in Hcase. fold n in Hcase. simpl.
  split_and!.
  - destruct (cronAccepts env (cronExpression n)); by destruct Hcase as [? _].
  - destruct (cronAccepts env (cronExpression n));
      [by destruct Hcase as [_ ?]|by destruct Hcase as (_ & ? & _)].
  - intros Hlt. unfold cronExpression.
    by destruct (n <? 60)%Z eqn:E; [|apply Z.ltb_ge in E; lia].
  - intros Hge. unfold cronExpression.
    by destruct (n <? 60)%Z eqn:E; [apply Z.ltb_lt in E; lia|].
  - apply CronFacts.cronExpression_minutes.
  - apply CronFacts.cronExpression_hours.
  - apply (CronFacts.cronExpression_minutes 30); [lia|]. by exists 2%Z.
  - apply (CronFacts.cronExpression_hours 150); [lia|]. by exists 12%Z.
Qed.

(** C6 at work: fresh worlds whose configurations say 30 and 150
    minutes. *)
Lemma C6_witness :
  wellFormed (freshWorld (config 30 true))
  /\ loaded calmEnv (freshWorld (config 30 true)) = Some (config 30 true)
  /\ armed (snd (setupScheduler calmEnv (freshWorld (config 30 true))))
     = [{| cronTime := "0 */30 * * * *"; running := true |}]
  /\ Cron.firesEvery "0 */30 * * * *" 1800
  /\ armed (snd (setupScheduler calmEnv (freshWorld (config 150 true))))
     = [{| cronTime := "0 0 */2 * * *"; running := true |}]
  /\ Cron.firesEvery "0 0 */2 * * *" 7200.
Proof.
  assert (forall c, wellFormed (freshWorld c)) as Hwf.
  { intros c h j Hj. by vm_compute in Hj. }
  pose proof (C6_interval_to_schedule calmEnv _ (config 30 true)
                (Hwf _) eq_refl eq_refl) as (_ & H30 & _ & _ & _ & _ & P30 & P150).
  pose proof (C6_interval_to_schedule calmEnv _ (config 150 true)
                (Hwf _) eq_refl eq_refl) as (_ & H150 & _).
  split_and!; [done|by vm_compute|exact H30|exact P30|exact H150|exact P150].
Defined.


Lemma every30_reachable : reachable every30.
Proof.
  eapply (reachable_setup calmEnv (freshWorld (config 30 true))).
  - by apply reachable_start.
  - unfold every30. apply surjective_pairing.
Qed.


(** C8, as stated, fails: with a timer armed for 30 minutes and the
    interval then set to -5, reconciliation disarms the timer, the
    cron library rejects [0 */-5 * * * *], the failure is caught, and
    no timer is armed any more. *)
Lemma C8_counterexample :
  armed negativeInterval = [{| cronTime := "0 */30 * * * *"; running := true |}]
  /\ cronExpression (-5) = "0 */-5 * * * *"
  /\ fst (setupScheduler calmEnv negativeInterval) = Ok tt
  /\ armed (snd (setupScheduler calmEnv negativeInterval)) = []
  /\ cronJobs (snd (setupScheduler calmEnv negativeInterval)) !! JOB_NAME = None.
Proof. split_and!; by vm_compute. Qed.

(** C8, amended: no failure of [setupScheduler] reaches its caller.
    When the configuration cannot be loaded the world, and with it the
    armed timer, stays as it was.  When the configuration is active
    and the cron library rejects the expression, the call still
    returns, the timer that was armed has been disarmed and none is
    armed. *)
Theorem C8_reconcile_failures env w o w' :
  wellFormed w ->
  setupScheduler env w = (o, w') ->
  (forall e, o <> Throw e)
  /\ (loaded env w = None -> w' = w)
  /\ (forall config,
        loaded env w = Some config -> is_active config = true ->
        cronAccepts env (cronExpression (intervalMins config)) = false ->
        o = Ok tt /\ armed w' = [] /\ cronJobs w' !! JOB_NAME = None).
Proof.
  intros Hwf H.
  destruct (setupScheduler_spec _ _ _ _ Hwf H) as (Hno & _ & Hcase).
  split_and!; [done|..].
  - intros Hload. by rewrite Hload in Hcase.
  - intros config Hload Hact Hrej. by rewrite Hload, Hact, Hrej in Hcase.
Qed.

(** C8 at work, on the world of the counterexample. *)
Lemma C8_witness :
  wellFormed negativeInterval
  /\ loaded calmEnv negativeInterval = Some (config (-5) true)
  /\ armed (snd (setupScheduler calmEnv negativeInterval)) = [].
Proof.
  assert (wellFormed negativeInterval) as Hwf.
  { apply reachable_inv. eapply reachable_other; [apply every30_reachable|done]. }
  split_and!; [done|by vm_compute|].
  destruct (setupScheduler calmEnv negativeInterval) as [o w'] eqn:Hsetup.
  pose proof (C8_reconcile_failures calmEnv negativeInterval o w' Hwf Hsetup)
    as (_ & _ & Hrej).
  by destruct (Hrej (config (-5) true) eq_refl eq_refl eq_refl) as (_ & ? & _).
Defined.

End C6C7C8.

(** ** Claims C9 and C10: agent runs *)

Module AgentFacts.
Import Js Supabase Pipeline Agent EffectFacts.

Lemma bind_ok_eq {S A B : Type} (m : Effect.M S A) (f : A -> Effect.M S B) st a st' :
  m st = (Ok a, st') -> bind m f st = f a st'.
Proof. unfold bind. by intros ->. Qed.

Lemma bind_throw_eq {S A B : Type} (m : Effect.M S A) (f : A -> Effect.M S B) st e st' :
  m st = (Throw e, st') -> bind m f st = (Throw e, st').
Proof. unfold bind. by intros ->. Qed.

Section Service.
Variable env : Env.

Abbreviation finishRun := (finishRun env).
Abbreviation runFailed := (runFailed env).

(** [updateRunStatus] returns.  The row of the run, if there is
    one, gets the status, and the article when one is given, when the
    update reaches the table; otherwise it stays as it was. *)
Lemma updateRunStatus_spec run status entry tp art w :
  exists w',
    updateRunStatus env run status entry tp art w = (Ok tt, w')
    /\ sameButRuns w w'
    /\ ticks w' = ticks w
         + (if String.eqb status "completed" || String.eqb status "failed"
            then 2 else 1)
    /\ forall r0, agent_runs w !! run = Some r0 ->
         exists r1, agent_runs w' !! run = Some r1
           /\ (runUpdate env status = false -> r1 = r0)
           /\ (runUpdate env status = true ->
               run_status r1 = status
               /\ article_id r1 =
                    match art with
                    | Some a => if truthy a then Some a else article_id r0
                    | None => article_id r0
                    end).
Proof.
  unfold updateRunStatus, bind, gets, now, modify, ret. simpl.
  destruct (String.eqb status "completed" || String.eqb status "failed");
    destruct (runUpdate env status);
    simpl; eexists; (split; [reflexivity|]); (split; [done|]);
    (split; [simpl; lia|]);
    intros r0 Hr0; simpl; rewrite ?lookup_alter_eq, Hr0; simpl; by eexists.
Qed.

Lemma sameButRuns_trans w1 w2 w3 :
  sameButRuns w1 w2 -> sameButRuns w2 w3 -> sameButRuns w1 w3.
Proof. unfold sameButRuns. intros (?&?&?&?&?) (?&?&?&?&?). split_and!; congruence. Qed.


Lemma tryCatch_ok_eq {S A : Type} (body : Effect.M S A) h st a st' :
  body st = (Ok a, st') -> tryCatch body h st = (Ok a, st').
Proof. unfold tryCatch. by intros ->. Qed.

Lemma tryCatch_throw_eq {S A : Type} (body : Effect.M S A) h st e st' :
  body st = (Throw e, st') -> tryCatch body h st = h e st'.
Proof. unfold tryCatch. by intros ->. Qed.

(** The run up to the call of the pipeline: the two status updates
    and the topic. *)
Lemma beforePipeline run resp w
    (rest : string -> M unit) :
  titlesError env = None -> brainstormAnswer env = Ok resp ->
  exists w2,
    (updateRunStatus env run "searching" "Brainstorming unique tech topic..."
       None None ;;
     topicPrompt <- brainstormTopic env ;;
     updateRunStatus env run "generating" ("Topic selected: " +:+ topicPrompt)
       (Some topicPrompt) None ;;
     rest topicPrompt) (withRuns (insert run newRun) w)
    = rest (trim resp) w2
    /\ sameButRuns w w2
    /\ ticks w2 = ticks w + 2
    /\ exists r2, agent_runs w2 !! run = Some r2 /\ article_id r2 = None.
Proof.
  intros Htitles Hanswer.
  destruct (updateRunStatus_spec run "searching"
              "Brainstorming unique tech topic..." None None
              (withRuns (insert run newRun) w)) as (w1 & E1 & S1 & T1 & R1).
  destruct (R1 newRun) as (r1 & Hr1 & Hkept1 & Hset1);
    [simpl; apply lookup_insert_eq|].
  assert (article_id r1 = None) as Ha1.
  { destruct (runUpdate env "searching");
      [by destruct Hset1 as [_ ->]|by rewrite Hkept1]. }
  destruct (updateRunStatus_spec run "generating"
              ("Topic selected: " +:+ trim resp) (Some (trim resp)) None w1)
    as (w2 & E2 & S2 & T2 & R2).
  destruct (R2 r1 Hr1) as (r2 & Hr2 & Hkept2 & Hset2).
  assert (article_id r2 = None) as Ha2.
  { destruct (runUpdate env "generating");
      [destruct Hset2 as [_ ->]; done|by rewrite Hkept2]. }
  exists w2. split_and!.
  - rewrite (bind_ok_eq _ _ _ _ _ E1).
    unfold brainstormTopic. rewrite Htitles, Hanswer.
    unfold bind at 1. unfold bind at 1. simpl.
    by rewrite (bind_ok_eq _ _ _ _ _ E2).
  - eapply sameButRuns_trans; [|exact S2].
    eapply sameButRuns_trans; [|exact S1]. done.
  - rewrite T2, T1. simpl. lia.
  - by exists r2.
Qed.

Lemma executeAgentRun_topic run resp w :
  runInsert env = Some run ->
  titlesError env = None -> brainstormAnswer env = Ok resp ->
  exists w2,
    executeAgentRun env w
    = tryCatch (fun _ => finishRun run (trim resp) w2) (runFailed run) w2
    /\ sameButRuns w w2
    /\ ticks w2 = ticks w + 2
    /\ exists r2, agent_runs w2 !! run = Some r2 /\ article_id r2 = None.
Proof.
  intros Hinsert Htitles Hanswer.
  destruct (beforePipeline run resp w (finishRun run) Htitles Hanswer)
    as (w2 & E & S2 & T2 & R2).
  exists w2. split_and!; [|done..].
  unfold executeAgentRun. rewrite Hinsert.
  unfold bind at 1. unfold modify at 1. unfold tryCatch.
  fold newRun. unfold finishRun in E. by rewrite E.
Qed.

Lemma runFailed_spec run err w r0 :
  agent_runs w !! run = Some r0 ->
  exists w', runFailed run err w = (Ok tt, w')
    /\ sameButRuns w w'
    /\ (runUpdate env "failed" = true -> runStatus w' run = Some "failed")
    /\ (runUpdate env "failed" = false -> agent_runs w' !! run = Some r0).
Proof.
  intros Hr0. unfold runFailed.
  destruct (updateRunStatus_spec run "failed" ("Error: " +:+ message err)
              None None w) as (w' & E & S' & _ & R).
  destruct (R r0 Hr0) as (r1 & Hr1 & Hkept & Hset).
  exists w'. split_and!; [done..| |].
  - intros Hup. destruct (Hset Hup) as [Hs _]. unfold runStatus.
    by rewrite Hr1, <-Hs.
  - intros Hup. by rewrite Hr1, (Hkept Hup).
Qed.

(** What the update of [last_run_at] does to the rows. *)
Lemma touchActive_rows t rows :
  Forall2 (fun c c' =>
             interval_minutes c' = interval_minutes c
             /\ is_active c' = is_active c
             /\ (is_active c = true -> last_run_at c' = Some t))
    rows (map (touchActive t) rows).
Proof.
  induction rows as [|c rows IH]; simpl; constructor; [|done].
  unfold touchActive. by destruct (is_active c) eqn:E.
Qed.

(** The pipeline returned a record with an id: the run is completed
    and the active rows of the configuration get the time, when the
    store applies the two updates. *)
Lemma executeAgentRun_completed run resp w r st a :
  runInsert env = Some run ->
  titlesError env = None -> brainstormAnswer env = Ok resp ->
  executePipeline (pipelineEnv env) (trim resp) None (store w) = (Ok r, st) ->
  article r = Some a -> id a <> "" ->
  exists w' row,
    executeAgentRun env w = (Ok tt, w')
    /\ agent_runs w' !! run = Some row
    /\ (runUpdate env "completed" = true ->
        run_status row = "completed" /\ article_id row = Some (id a))
    /\ (runUpdate env "completed" = false -> article_id row = None)
    /\ agent_config w'
       = (if configTouch env
          then map (touchActive (isoTime env (ticks w + 4))) (agent_config w)
          else agent_config w)
    /\ store w' = db st.
Proof.
  intros Hinsert Htitles Hanswer Hpipe Hart Hid.
  destruct (executeAgentRun_topic run resp w Hinsert Htitles Hanswer)
    as (w2 & -> & (Hstore & Hcfg & _) & T2 & r2 & Hr2 & Hnone).
  set (w3 := withPipeline (db st) (emitted st) w2).
  destruct (updateRunStatus_spec run "completed"
              "Article generated successfully." (Some (trim resp))
              (Some (id a)) w3) as (w4 & E4 & (Hs4 & Hcfg4 & _) & T4 & R4).
  destruct (R4 r2 Hr2) as (row & Hrow & Hkept & Hset).
  assert (truthy (id a) = true) as Htruthy by (by destruct (id a)).
  rewrite Htruthy in Hset.
  assert (ticks w4 = ticks w + 4) as Hticks.
  { rewrite T4. simpl. rewrite T2. lia. }
  assert (finishRun run (trim resp) w2
          = (Ok tt, snd (touchConfig env (isoTime env (ticks w + 4)) (tick w4))))
    as Hfinish.
  { unfold finishRun, generateArticle.
    unfold bind at 1. rewrite Hstore, Hpipe. fold w3. rewrite Hart, Htruthy.
    rewrite (bind_ok_eq _ _ _ _ _ E4). unfold bind, now. rewrite Hticks.
    unfold touchConfig. by destruct (configTouch env). }
  eexists _, row. split_and!.
  - apply tryCatch_ok_eq. exact Hfinish.
  - unfold touchConfig. by destruct (configTouch env).
  - done.
  - intros Hup. by rewrite (Hkept Hup).
  - unfold touchConfig. destruct (configTouch env); simpl;
      by rewrite Hcfg4, <-Hcfg.
  - unfold touchConfig. destruct (configTouch env); simpl; by rewrite Hs4.
Qed.

(** The pipeline returned without a record, or threw: the run is
    failed. *)
Lemma executeAgentRun_failed run resp w o st :
  runInsert env = Some run ->
  titlesError env = None -> brainstormAnswer env = Ok resp ->
  executePipeline (pipelineEnv env) (trim resp) None (store w) = (o, st) ->
  match o with
  | Ok r =>
      match article r with
      | Some a => id a = ""
      | None => True
      end
  | Throw _ => True
  | Hang => False
  end ->
  exists w',
    executeAgentRun env w = (Ok tt, w')
    /\ (runUpdate env "failed" = true -> runStatus w' run = Some "failed")
    /\ agent_config w' = agent_config w
    /\ store w' = db st.
Proof.
  intros Hinsert Htitles Hanswer Hpipe Hwhy.
  destruct (executeAgentRun_topic run resp w Hinsert Htitles Hanswer)
    as (w2 & -> & (Hstore & Hcfg & _) & _ & r2 & Hr2 & _).
  set (w3 := withPipeline (db st) (emitted st) w2).
  destruct (runFailed_spec run
              match o with
              | Ok r => newError (failureMessage r)
              | Throw e => e
              | Hang => newError ""
              end w3 r2 Hr2) as (w' & E & (Hs' & Hc' & _) & Hfailed & _).
  exists w'. split_and!; [|done|by rewrite Hc', <-Hcfg|by rewrite Hs'].
  rewrite <-E. apply tryCatch_throw_eq.
  unfold finishRun, generateArticle. unfold bind at 1.
  rewrite Hstore, Hpipe. fold w3. destruct o as [r|e|]; [|done|done].
  destruct (article r) as [a|]; [|done]. by rewrite Hwhy.
Qed.

(** No topic: the run is failed and the pipeline is not called. *)
Lemma executeAgentRun_noTopic run w e :
  runInsert env = Some run ->
  titlesError env = Some e
  \/ (titlesError env = None /\ brainstormAnswer env = Throw e) ->
  exists w',
    executeAgentRun env w = (Ok tt, w')
    /\ (runUpdate env "failed" = true -> runStatus w' run = Some "failed")
    /\ store w' = store w.
Proof.
  intros Hinsert Hwhy.
  destruct (updateRunStatus_spec run "searching"
              "Brainstorming unique tech topic..." None None
              (withRuns (insert run newRun) w)) as (w1 & E1 & (S1 & _) & _ & R1).
  destruct (R1 newRun) as (r1 & Hr1 & _);
    [simpl; apply lookup_insert_eq|].
  destruct (runFailed_spec run e w1 r1 Hr1)
    as (w' & E & (Hs' & _) & Hfailed & _).
  exists w'. split_and!; [|done|by rewrite Hs', S1].
  unfold executeAgentRun. rewrite Hinsert.
  unfold bind at 1. unfold modify at 1. fold newRun.
  rewrite <-E. apply tryCatch_throw_eq.
  rewrite (bind_ok_eq _ _ _ _ _ E1). unfold brainstormTopic.
  destruct Hwhy as [->|[-> ->]]; done.
Qed.

End Service.
End AgentFacts.

Module C9C10.
Import Js Supabase Pipeline Agent EffectFacts AgentFacts SampleRuns SampleWorlds.

Lemma executeAgentRun_noThrow env : noThrow (executeAgentRun env).
Proof.
  unfold executeAgentRun. destruct (runInsert env) as [run|]; [|apply noThrow_ret].
  apply noThrow_bind; [apply noThrow_modify|intros _].
  apply noThrow_tryCatch. intros err w o w' H e.
  destruct (updateRunStatus_spec env run "failed" ("Error: " +:+ message err)
              None None w) as (w1 & E & _).
  rewrite E in H. by injection H as <- _.
Qed.

(** C9: whatever the authorization header, the trigger runs the agent
    on the same world with the same effect and ends the same way: it
    never throws, and when the run returns the answer is the success
    response.  The header only decides whether the controller logs the
    mismatch line. *)
Theorem C9_trigger_ignores_header env (secret h1 h2 : option string) c :
  fst (triggerAgent env secret h1 c) = fst (triggerAgent env secret h2 c)
  /\ world (snd (triggerAgent env secret h1 c))
     = world (snd (triggerAgent env secret h2 c))
  /\ world (snd (triggerAgent env secret h1 c))
     = snd (executeAgentRun env (world c))
  /\ fst (triggerAgent env secret h1 c)
     = match fst (executeAgentRun env (world c)) with
       | Ok _ => Ok triggered
       | Throw e => Throw e
       | Hang => Hang
       end
  /\ (forall e, fst (triggerAgent env secret h1 c) <> Throw e)
  /\ controllerLog (snd (triggerAgent env secret h1 c))
     = controllerLog c ++ (if mismatch secret h1 then [mismatchLine] else []).
Proof.
  assert (forall h,
    fst (triggerAgent env secret h c)
      = match fst (executeAgentRun env (world c)) with
        | Ok _ => Ok triggered
        | Throw e => Throw e
        | Hang => Hang
        end
    /\ world (snd (triggerAgent env secret h c))
       = snd (executeAgentRun env (world c))
    /\ controllerLog (snd (triggerAgent env secret h c))
       = controllerLog c ++ (if mismatch secret h then [mismatchLine] else []))
    as Hany.
  { intros h. unfold triggerAgent.
    match goal with
    | |- context [bind ?p _] => set (pre := p)
    end.
    assert (pre c = (Ok tt,
      {| world := world c;
         controllerLog := controllerLog c
           ++ (if mismatch secret h then [mismatchLine] else []) |})) as Hpre.
    { subst pre. unfold mismatch, logLine, modify, ret.
      destruct secret as [s|]; [destruct (truthy s);
        [destruct (bool_decide (h = Some ("Bearer " +:+ s)))|]|];
        cbn [andb negb]; rewrite ?app_nil_r; by destruct c. }
    rewrite (bind_ok_eq _ _ _ _ _ Hpre).
    unfold bind, onService, ret. cbn [world controllerLog].
    destruct (executeAgentRun env (world c)) as [[[]|e|] w']; done. }
  destruct (Hany h1) as (Ho1 & Hw1 & Hl1). destruct (Hany h2) as (Ho2 & Hw2 & _).
  split_and!; [congruence|congruence|done|done| |done].
  intros e. rewrite Ho1.
  destruct (executeAgentRun env (world c)) as [[[]|e'|] w'] eqn:Hrun; simpl; try done.
  exfalso. eapply noThrow_elim; [apply executeAgentRun_noThrow|exact Hrun].
Qed.

(** C10, as stated, fails: when the pipeline throws after its record
    was created (the writing request fails, and so does the update
    that would put the record back to draft), the run is marked failed
    although the record exists. *)
Lemma C10_counterexample :
  runStatus
    (snd (executeAgentRun (agentEnv draftFails (Ok "X"))
            (freshWorld (config 30 true)))) "run1"
  = Some "failed"
  /\ statusOf
       (store (snd (executeAgentRun (agentEnv draftFails (Ok "X"))
                      (freshWorld (config 30 true))))) "a1"
     = Some processing.
Proof. split; by vm_compute. Qed.

(** C10, amended.  When the pipeline returns a record with an id,
    whatever its errors and stages (a writing failure included), the
    run asks the store to mark its row completed with that record and
    then to set the last-run time; the source does not look at the
    answers.  Where the store applies the first update the row is
    completed with the record, and otherwise it stays without one;
    where it applies the second, every active row of the configuration
    carries the time read for it, the fifth reading of the clock in
    the run, and no interval or activity changes.  The run is marked
    failed, where the store applies that update, when the pipeline
    returns without such a record, when the pipeline throws, and when
    no topic could be chosen. *)
Theorem C10_run_record env w run :
  runInsert env = Some run ->
  (forall resp r st a,
     titlesError env = None -> brainstormAnswer env = Ok resp ->
     executePipeline (pipelineEnv env) (trim resp) None (store w) = (Ok r, st) ->
     article r = Some a -> id a <> "" ->
     exists row,
       fst (executeAgentRun env w) = Ok tt
       /\ agent_runs (snd (executeAgentRun env w)) !! run = Some row
       /\ (runUpdate env "completed" = true ->
           run_status row = "completed" /\ article_id row = Some (id a))
       /\ (runUpdate env "completed" = false -> article_id row = None)
       /\ (configTouch env = true ->
           Forall2 (fun c c' =>
                      interval_minutes c' = interval_minutes c
                      /\ is_active c' = is_active c
                      /\ (is_active c = true ->
                          last_run_at c' = Some (isoTime env (ticks w + 4))))
             (agent_config w) (agent_config (snd (executeAgentRun env w))))
       /\ (configTouch env = false ->
           agent_config (snd (executeAgentRun env w)) = agent_config w))
  /\ (forall resp o st,
        titlesError env = None -> brainstormAnswer env = Ok resp ->
        executePipeline (pipelineEnv env) (trim resp) None (store w) = (o, st) ->
        match o with
        | Ok r => match article r with Some a => id a = "" | None => True end
        | Throw _ => True
        | Hang => False
        end ->
        (runUpdate env "failed" = true ->
         runStatus (snd (executeAgentRun env w)) run = Some "failed")
        /\ agent_config (snd (executeAgentRun env w)) = agent_config w)
  /\ (forall e,
        titlesError env = Some e
        \/ (titlesError env = None /\ brainstormAnswer env = Throw e) ->
        runUpdate env "failed" = true ->
        runStatus (snd (executeAgentRun env w)) run = Some "failed").
Proof.
  intros Hinsert. split_and!.
  - intros resp r st a Ht Hb Hp Ha Hid.
    destruct (executeAgentRun_completed env run resp w r st a
                Hinsert Ht Hb Hp Ha Hid)
      as (w' & row & -> & Hrow & Hdone & Hnot & Hcfg & _).
    exists row. simpl. split_and!; [done..| |].
    + intros Htouch. rewrite Hcfg, Htouch. apply touchActive_rows.
    + intros Htouch. by rewrite Hcfg, Htouch.
  - intros resp o st Ht Hb Hp Hwhy.
    by destruct (executeAgentRun_failed env run resp w o st Hinsert Ht Hb Hp Hwhy)
      as (w' & -> & ? & ? & _).
  - intros e Hwhy.
    by destruct (executeAgentRun_noTopic env run w e Hinsert Hwhy)
      as (w' & -> & ? & _).
Qed.

(** C10 at work: the writing request fails, the record goes back to
    draft, and the run is completed all the same; the active row of
    the configuration carries the fifth reading of the clock. *)
Lemma C10_witness :
  runInsert (agentEnv writingFails (Ok "X")) = Some "run1"
  /\ statusOf
       (store (snd (executeAgentRun (agentEnv writingFails (Ok "X"))
                      (freshWorld (config 30 true))))) "a1"
     = Some draft
  /\ (exists row,
        agent_runs (snd (executeAgentRun (agentEnv writingFails (Ok "X"))
                           (freshWorld (config 30 true)))) !! "run1" = Some row
        /\ run_status row = "completed" /\ article_id row = Some "a1")
  /\ last_run_at <$> agent_config
        (snd (executeAgentRun (agentEnv writingFails (Ok "X"))
                (freshWorld (config 30 true))))
     = [Some "2026-01-01T00:00:04Z"].
Proof.
  split_and!; [done|by vm_compute| |].
  - set (env := agentEnv writingFails (Ok "X")).
    set (w := freshWorld (config 30 true)).
    pose proof (C10_run_record env w "run1" eq_refl) as (Hdone & _).
    destruct (executePipeline (pipelineEnv env) (trim "X") None (store w))
      as [o st] eqn:Hrun.
    assert (exists r a, o = Ok r /\ article r = Some a /\ id a = "a1")
      as (r & a & -> & Ha & Hid).
    { assert (fst (executePipeline (pipelineEnv env) (trim "X") None (store w)) = o)
        as Ho by (by rewrite Hrun).
      vm_compute in Ho. subst o. by eexists _, _. }
    assert (id a <> "") as Hne by (by rewrite Hid).
    destruct (Hdone "X" r st a eq_refl eq_refl Hrun Ha Hne)
      as (row & _ & Hrow & Hset & _).
    destruct (Hset eq_refl) as [Hs Hart]. rewrite Hid in Hart.
    exists row. split_and!; [exact Hrow|exact Hs|exact Hart].
  - by vm_compute.
Defined.

End C9C10.

(** ** Global replacement, for classes and repeated classes *)

Module RewriteFacts.
Import Js JsFacts Regex RegexFacts ScanFacts Rewrite.

Lemma app_empty_r (s : string) : s +:+ EmptyString = s.
Proof. induction s as [|a s IH]; [done|]. by rewrite app_cons, IH. Qed.

Lemma search_hit r pos s m : matchAt r pos s = Some m -> search r pos s = Some m.
Proof. intros H. destruct s; simpl; by rewrite H. Qed.

Lemma drop_S pos whole a t :
  drop pos whole = String a t -> drop (S pos) whole = t.
Proof.
  intros H. replace (S pos) with (pos + 1) by lia.
  by rewrite <-drop_drop, H.
Qed.

(** A match that [scanFrom] returns first does not begin before the
    position the scan began at. *)
Lemma scanFrom_head r fuel pos s m rest :
  scanFrom r fuel pos s = m :: rest -> pos <= index m /\ index m <= last m.
Proof.
  destruct fuel as [|f]; [done|]. simpl.
  destruct (search r pos s) as [m'|] eqn:E; [|done].
  intros [= -> _]. apply search_spec in E as (j & _ & E).
  apply matchAt_spec in E as (n & _ & -> & -> & _). lia.
Qed.

(** Where nothing matches at the head, the scan goes on behind it. *)
Lemma scanFrom_skip r f pos a t :
  matchAt r pos (String a t) = None ->
  scanFrom r (S f) pos (String a t) = scanFrom r (S f) (S pos) t.
Proof.
  intros H. cbn [scanFrom search]. rewrite H.
  destruct (search r (S pos) t) as [m|] eqn:E; [|done].
  apply search_spec in E as (j & _ & E).
  apply matchAt_spec in E as (n & _ & Hi & Hl & _).
  set (next := if last m =? index m then S (last m) else last m).
  assert (S pos <= next) as Hnext by (unfold next; destruct (_ =? _); lia).
  replace (next - pos) with (S (next - S pos)) by lia.
  f_equal.
Qed.

Section Splice.
Variable whole : string.
Variable render : found -> string.

Lemma splice_skip pos a t ms :
  drop pos whole = String a t ->
  (forall m rest, ms = m :: rest -> S pos <= index m) ->
  splice whole render pos ms = String a (splice whole render (S pos) ms).
Proof.
  intros Hdrop Hhead. destruct ms as [|m rest]; simpl.
  - rewrite Hdrop. f_equal. symmetry. by eapply drop_S.
  - specialize (Hhead _ _ eq_refl). unfold substring.
    rewrite Hdrop, (drop_S _ _ _ _ Hdrop).
    replace (index m - pos) with (S (index m - S pos)) by lia.
    simpl. by rewrite app_cons.
Qed.
End Splice.

(** One step of a global replacement, for an expression whose match
    at a position is told by [len]. *)
Section Step.
Variable r : re.
Variable len : string -> option nat.
Hypothesis Hmatch : forall pos s, matchAt r pos s = foundAt pos s <$> len s.
Hypothesis Hlen : forall s n, len s = Some n -> 0 < n <= String.length s.
Variable whole : string.
Variable render : found -> string.
Variable repl : string.
Hypothesis Hrender : forall m, render m = repl.

Lemma step_match f pos s n :
  len s = Some n ->
  splice whole render pos (scanFrom r (S f) pos s)
  = repl +:+ splice whole render (pos + n) (scanFrom r f (pos + n) (drop n s)).
Proof using Hmatch Hlen Hrender.
  intros Hn. pose proof (Hlen _ _ Hn) as [Hpos Hle].
  cbn [scanFrom]. rewrite (search_hit r pos s (foundAt pos s n))
    by (by rewrite Hmatch, Hn).
  cbn [foundAt last index].
  destruct (pos + n =? pos) eqn:E; [apply Nat.eqb_eq in E; lia|].
  replace (pos + n - pos) with n by lia.
  destruct (n <=? String.length s) eqn:E'; [|apply Nat.leb_gt in E'; lia].
  cbn [splice index last]. unfold substring. rewrite Nat.sub_diag.
  rewrite Hrender. by destruct (drop pos whole).
Qed.

Lemma step_skip f pos a t :
  drop pos whole = String a t ->
  len (String a t) = None ->
  splice whole render pos (scanFrom r (S f) pos (String a t))
  = String a (splice whole render (S pos) (scanFrom r (S f) (S pos) t)).
Proof using Hmatch.
  intros Hdrop Hn. rewrite scanFrom_skip by (by rewrite Hmatch, Hn).
  apply (splice_skip _ _ _ _ t); [done|]. intros m rest Hms.
  by apply scanFrom_head in Hms as [? _].
Qed.

Lemma step_end f pos :
  drop pos whole = EmptyString ->
  len EmptyString = None ->
  splice whole render pos (scanFrom r (S f) pos EmptyString) = EmptyString.
Proof using Hmatch.
  intros Hdrop Hn. cbn [scanFrom search]. rewrite Hmatch, Hn. simpl.
  by rewrite Hdrop.
Qed.
End Step.

(** *** A class *)

Section Class.
Variable neg : bool.
Variable items : list item.

Abbreviation p := (clsMatches neg items).

Lemma matchAt_cls pos s :
  matchAt (Cls neg items) pos s = foundAt pos s <$> oneChar p s.
Proof.
  unfold matchAt, oneChar, foundAt. simpl. destruct s as [|a t]; [done|].
  destruct (clsMatches neg items a); [|done]. simpl.
  replace (S pos - pos) with 1 by lia. by rewrite Nat.add_1_r.
Qed.

Lemma oneChar_length s n : oneChar p s = Some n -> 0 < n <= String.length s.
Proof.
  unfold oneChar. destruct s as [|a t]; [done|].
  destruct (clsMatches neg items a); [|done]. intros [= <-]. simpl. lia.
Qed.

Lemma splice_cls whole render repl :
  (forall m, render m = repl) ->
  forall s fuel pos,
    drop pos whole = s -> String.length s < fuel ->
    splice whole render pos (scanFrom (Cls neg items) fuel pos s)
    = replaceChars p repl s.
Proof.
  intros Hrender. induction s as [|a t IH]; intros fuel pos Hdrop Hfuel;
    (destruct fuel as [|f]; [simpl in Hfuel; lia|]).
  - by apply (step_end _ _ matchAt_cls).
  - simpl in Hfuel. cbn [replaceChars].
    destruct (clsMatches neg items a) eqn:Ea.
    + rewrite (step_match _ _ matchAt_cls oneChar_length _ _ _ Hrender _ _ _ 1)
        by (by simpl; rewrite Ea).
      cbn [drop]. rewrite IH; [done| |lia].
      rewrite Nat.add_1_r. by eapply drop_S.
    + rewrite (step_skip _ _ matchAt_cls) by (by simpl; rewrite ?Ea).
      rewrite IH; [done|by eapply drop_S|simpl; lia].
Qed.

(** [s.replace(/[...]/g, repl)], for a replacement that stands for
    itself. *)
Lemma replaceAll_cls repl s :
  (forall m, expand s m repl = repl) ->
  replaceAll (Cls neg items) repl s = replaceChars p repl s.
Proof.
  intros Hrepl. unfold replaceAll, scan.
  apply splice_cls; [done|by rewrite drop_0|lia].
Qed.
End Class.

(** *** A repeated class *)

Section Run.
Variable neg : bool.
Variable items : list item.

Abbreviation p := (clsMatches neg items).

Lemma runLength_le s : runLength p s <= String.length s.
Proof.
  induction s as [|a t IH]; simpl; [lia|].
  destruct (clsMatches neg items a); lia.
Qed.

(** The greedy iteration of a class goes over the whole run, when
    what follows cannot fail. *)
Lemma iterate_cls {R : Type} (k : cont R) :
  (forall pos s c, is_Some (k pos s c)) ->
  forall fuel pos s c, String.length s <= fuel ->
    iterate (fun q t d k' => run R (Cls neg items) q t d k') true k fuel pos s c
    = k (pos + runLength p s) (drop (runLength p s) s) c.
Proof.
  intros Hk. induction fuel as [|f IH]; intros pos s c Hfuel.
  - destruct s; [|simpl in Hfuel; lia]. simpl. by rewrite Nat.add_0_r.
  - cbn [iterate]. destruct s as [|a t].
    + simpl. by rewrite Nat.add_0_r.
    + simpl in Hfuel. cbn [run runLength].
      destruct (clsMatches neg items a) eqn:Ea.
      * assert ((pos <? S pos) = true) as -> by (apply Nat.ltb_lt; lia).
        rewrite IH by lia. unfold orElse.
        destruct (Hk (S pos + runLength p t) (drop (runLength p t) t) c)
          as [x Hx].
        rewrite Hx. rewrite <-Hx. simpl. f_equal. lia.
      * unfold orElse. simpl. by rewrite Nat.add_0_r.
Qed.

Lemma matchAt_plus pos s :
  matchAt (Plus true (Cls neg items)) pos s = foundAt pos s <$> wholeRun p s.
Proof.
  unfold matchAt, wholeRun, foundAt.
  destruct s as [|a t]; [done|]. cbn [run runLength].
  destruct (clsMatches neg items a) eqn:Ea; [|done].
  etransitivity; [apply iterate_cls; [by eexists|lia]|]. simpl.
  replace (S (pos + runLength p t) - pos) with (S (runLength p t)) by lia.
  simpl. do 2 f_equal. lia.
Qed.

Lemma wholeRun_length s n : wholeRun p s = Some n -> 0 < n <= String.length s.
Proof.
  unfold wholeRun. pose proof (runLength_le s).
  destruct (runLength p s) eqn:E; [done|]. intros [= <-]. lia.
Qed.

(** Behind a run, [squeeze] goes on with what follows the run. *)
Lemma squeeze_run repl s :
  0 < runLength p s ->
  squeeze p repl s = repl +:+ squeeze p repl (drop (runLength p s) s).
Proof.
  induction s as [|a t IH]; [simpl; lia|]. cbn [runLength squeeze].
  destruct (clsMatches neg items a) eqn:Ea; [|lia]. intros _.
  destruct t as [|b u]; [cbn [runLength drop squeeze]; by rewrite app_empty_r|].
  cbn [drop]. destruct (clsMatches neg items b) eqn:Eb.
  - rewrite IH by (cbn [runLength]; rewrite Eb; lia). done.
  - cbn [runLength]. rewrite Eb. by rewrite drop_0.
Qed.

Lemma splice_plus whole render repl :
  (forall m, render m = repl) ->
  forall n s fuel pos,
    String.length s <= n ->
    drop pos whole = s -> String.length s < fuel ->
    splice whole render pos (scanFrom (Plus true (Cls neg items)) fuel pos s)
    = squeeze p repl s.
Proof.
  intros Hrender. induction n as [|n IH]; intros s fuel pos Hn Hdrop Hfuel;
    (destruct fuel as [|f]; [lia|]).
  - destruct s; [|simpl in Hn; lia].
    by apply (step_end _ _ matchAt_plus).
  - destruct s as [|a t]; [by apply (step_end _ _ matchAt_plus)|].
    simpl in Hn, Hfuel.
    destruct (wholeRun p (String a t)) as [k|] eqn:Ek.
    + pose proof (wholeRun_length _ _ Ek) as [Hk1 Hk2].
      rewrite (step_match _ _ matchAt_plus wholeRun_length _ _ _ Hrender _ _ _ k)
        by done.
      unfold wholeRun in Ek.
      destruct (runLength p (String a t)) as [|k'] eqn:Erun; [done|].
      injection Ek as <-.
      rewrite squeeze_run by lia. rewrite Erun. f_equal.
      apply IH.
      * rewrite length_drop. simpl in *. lia.
      * by rewrite <-Hdrop, drop_drop.
      * rewrite length_drop. simpl in *. lia.
    + rewrite (step_skip _ _ matchAt_plus) by done.
      unfold wholeRun in Ek. cbn [runLength] in Ek. cbn [squeeze].
      destruct (clsMatches neg items a); [done|]. f_equal.
      apply IH; [lia|by eapply drop_S|simpl; lia].
Qed.

(** [s.replace(/[...]+/g, repl)], for a replacement that stands
    for itself. *)
Lemma replaceAll_plus repl s :
  (forall m, expand s m repl = repl) ->
  replaceAll (Plus true (Cls neg items)) repl s = squeeze p repl s.
Proof.
  intros Hrepl. unfold replaceAll, scan.
  apply (splice_plus _ _ _ Hrepl (String.length s)); [lia|by rewrite drop_0|lia].
Qed.
End Run.

End RewriteFacts.

(** ** Slugs *)

Module SlugFacts.
Import Js JsFacts Regex Rewrite RewriteFacts Slug.

Ltac by_cases a := destruct a as [[] [] [] [] [] [] [] []]; vm_compute; done.

Lemma every_impl (p q : ascii -> bool) s :
  (forall a, p a = true -> q a = true) -> every p s = true -> every q s = true.
Proof.
  intros Hpq. induction s as [|a t IH]; simpl; [done|].
  intros [Ha Ht]%andb_true_iff. by rewrite (Hpq _ Ha), IH.
Qed.

Lemma every_app p s t :
  every p s = true -> every p t = true -> every p (s +:+ t) = true.
Proof.
  intros Hs Ht. induction s as [|a s IH]; [done|]. rewrite app_cons.
  simpl in *. apply andb_true_iff in Hs as [-> Hs]. by apply IH.
Qed.

Lemma every_take p n : forall s, every p s = true -> every p (take n s) = true.
Proof.
  induction n as [|n IH]; intros [|a s]; simpl; try done.
  intros [-> Hs]%andb_true_iff. by apply IH.
Qed.

Lemma every_drop p n : forall s, every p s = true -> every p (drop n s) = true.
Proof.
  induction n as [|n IH]; intros [|a s]; simpl; try done.
  intros [_ Hs]%andb_true_iff. by apply IH.
Qed.

(** What is left after a replacement of characters: the characters
    that were not replaced, and the replacement. *)
Lemma every_replaceChars (p q0 q : ascii -> bool) repl s :
  (forall a, q0 a = true -> p a = false -> q a = true) ->
  every q repl = true -> every q0 s = true ->
  every q (replaceChars p repl s) = true.
Proof.
  intros Hq Hrepl. induction s as [|a t IH]; simpl; [done|].
  intros [Ha Ht]%andb_true_iff. destruct (p a) eqn:Ea.
  - apply every_app; [done|by apply IH].
  - simpl. by rewrite (Hq _ Ha Ea), IH.
Qed.

Lemma every_squeeze (p q0 q : ascii -> bool) repl s :
  (forall a, q0 a = true -> p a = false -> q a = true) ->
  every q repl = true -> every q0 s = true ->
  every q (squeeze p repl s) = true.
Proof.
  intros Hq Hrepl. induction s as [|a t IH]; [done|]. cbn [squeeze every].
  intros [Ha Ht]%andb_true_iff. destruct (p a) eqn:Ea.
  - destruct t as [|b u]; [done|]. destruct (p b); [by apply IH|].
    apply every_app; [done|by apply IH].
  - simpl. by rewrite (Hq _ Ha Ea), IH.
Qed.

(** After runs have given way to one character, no two neighbours
    are of the kind the runs were made of. *)
Lemma noRun_cons p a b x :
  noRun p (String a (String b x)) = negb (p a && p b) && noRun p (String b x).
Proof. reflexivity. Qed.

Lemma noRun_squeeze p c s : noRun p (squeeze p (String c EmptyString) s) = true.
Proof.
  induction s as [|a t IH]; [done|]. cbn [squeeze].
  destruct (p a) eqn:Ea.
  - destruct t as [|b u]; [done|]. destruct (p b) eqn:Eb; [done|].
    rewrite app_cons, app_empty. cbn [squeeze] in *. rewrite Eb in *.
    by rewrite noRun_cons, Eb, andb_false_r, IH.
  - destruct (squeeze p _ t) as [|b x]; [done|].
    by rewrite noRun_cons, Ea, IH.
Qed.

Lemma noRun_take p n : forall s, noRun p s = true -> noRun p (take n s) = true.
Proof.
  induction n as [|n IH]; intros [|a s]; try done.
  intros H. specialize (IH s). destruct s as [|b u]; [by destruct n|].
  rewrite noRun_cons in H. apply andb_true_iff in H as [Hab Hs].
  specialize (IH Hs). destruct n as [|n']; [done|].
  cbn [take] in *. by rewrite noRun_cons, Hab, IH.
Qed.

Lemma noRun_includes s : noRun isHyphen s = true -> includes "--" s = false.
Proof.
  induction s as [|a t IH]; [done|]. intros H.
  cbn [includes]. destruct t as [|b u].
  - cbn [startsWith includes]. by rewrite andb_false_r.
  - rewrite noRun_cons in H. apply andb_true_iff in H as [Hab Ht].
    rewrite (IH Ht), orb_false_r. cbn [startsWith].
    unfold isHyphen in Hab. rewrite (Ascii.eqb_sym "-" a), (Ascii.eqb_sym "-" b).
    rewrite andb_true_r. by apply negb_true_iff in Hab.
Qed.

(** A text without such characters is left as it is. *)
Lemma replaceChars_none p repl s :
  every (fun a => negb (p a)) s = true -> replaceChars p repl s = s.
Proof.
  induction s as [|a t IH]; simpl; [done|].
  intros [Ha Ht]%andb_true_iff. apply negb_true_iff in Ha. by rewrite Ha, IH.
Qed.

Lemma squeeze_none p repl s :
  every (fun a => negb (p a)) s = true -> squeeze p repl s = s.
Proof.
  induction s as [|a t IH]; [done|]. cbn [squeeze every].
  intros [Ha Ht]%andb_true_iff. apply negb_true_iff in Ha. by rewrite Ha, IH.
Qed.

(** A text without runs of hyphens is left as it is. *)
Lemma squeeze_hyphens s : noRun isHyphen s = true -> squeeze isHyphen "-" s = s.
Proof.
  induction s as [|a t IH]; [done|]. intros H. cbn [squeeze].
  destruct (isHyphen a) eqn:Ea.
  - unfold isHyphen in Ea. apply Ascii.eqb_eq in Ea as ->.
    destruct t as [|b u]; [done|]. rewrite noRun_cons in H.
    apply andb_true_iff in H as [Hab Ht].
    change (isHyphen "-") with true in Hab. rewrite andb_true_l in Hab.
    apply negb_true_iff in Hab. rewrite Hab. by rewrite IH.
  - f_equal. apply IH. destruct t; [done|]. rewrite noRun_cons in H.
    by apply andb_true_iff in H as [_ ?].
Qed.

Lemma take_all n : forall s, String.length s <= n -> take n s = s.
Proof.
  induction n as [|n IH]; intros [|a s]; simpl; try done; try lia.
  intros H. rewrite IH; [done|lia].
Qed.

Lemma toLowerCase_fixed s :
  every (fun a => negb (isUpper a) && (code a <? 128)) s = true ->
  toLowerCase s = s.
Proof.
  induction s as [|a t IH]; simpl; [done|].
  intros [Ha Ht]%andb_true_iff. rewrite IH by done. f_equal.
  clear -Ha. by_cases a.
Qed.

(** *** The classes of the chain *)

Lemma notSlugChar_spec a :
  clsMatches true [IRange "a" "z"; IRange "0" "9"; ISpace; IChar "-"] a
  = negb (isSlugChar a || isSpace a).
Proof. by_cases a. Qed.

Lemma spaces_spec a : clsMatches false [ISpace] a = isSpace a.
Proof. by_cases a. Qed.

Lemma hyphens_spec a : clsMatches false [IChar "-"] a = isHyphen a.
Proof. by_cases a. Qed.

Lemma replaceChars_ext p q repl s :
  (forall a, p a = q a) -> replaceChars p repl s = replaceChars q repl s.
Proof. intros H. induction s as [|a t IH]; simpl; [done|]. by rewrite H, IH. Qed.

Lemma squeeze_ext p q repl s :
  (forall a, p a = q a) -> squeeze p repl s = squeeze q repl s.
Proof.
  intros H. induction s as [|a t IH]; [done|]. cbn [squeeze].
  rewrite H, IH. destruct t; [done|]. by rewrite H.
Qed.

(** The chain, as functions on the text. *)
Lemma cleanSlug_eq text :
  cleanSlug text
  = take 100
      (squeeze isHyphen "-"
         (squeeze isSpace "-"
            (replaceChars (fun a => negb (isSlugChar a || isSpace a)) ""
               (toLowerCase text)))).
Proof.
  unfold cleanSlug, substring, notSlugChar, spaces, hyphens.
  rewrite drop_0, Nat.sub_0_r.
  rewrite !replaceAll_plus, replaceAll_cls by done.
  rewrite (squeeze_ext _ _ _ _ hyphens_spec), (squeeze_ext _ _ _ _ spaces_spec).
  by rewrite (replaceChars_ext _ _ _ _ notSlugChar_spec).
Qed.

(** The shape of a clean slug. *)
Lemma cleanSlug_shape text :
  every isSlugChar (cleanSlug text) = true
  /\ noRun isHyphen (cleanSlug text) = true
  /\ String.length (cleanSlug text) <= 100.
Proof.
  rewrite cleanSlug_eq. split_and!.
  - apply every_take.
    apply (every_squeeze _ isSlugChar); [done|done|].
    apply (every_squeeze _ (fun a => isSlugChar a || isSpace a)); [|done|].
    { intros a Ha Hs. rewrite Hs in Ha. by rewrite orb_false_r in Ha. }
    apply (every_replaceChars _ (fun _ => true)); [|done|].
    { intros a _ Ha. by apply negb_false_iff in Ha. }
    induction (toLowerCase text); [done|by simpl].
  - apply noRun_take, noRun_squeeze.
  - rewrite length_take. lia.
Qed.

(** On a text of that shape the chain only cuts. *)
Lemma cleanSlug_take s :
  every isSlugChar s = true -> noRun isHyphen s = true ->
  cleanSlug s = take 100 s.
Proof.
  intros Hall Hrun. rewrite cleanSlug_eq.
  rewrite toLowerCase_fixed.
  2:{ eapply every_impl; [|exact Hall]. intros a Ha. clear -Ha.
      revert Ha. by_cases a. }
  rewrite replaceChars_none.
  2:{ eapply every_impl; [|exact Hall]. intros a Ha. by rewrite negb_involutive, Ha. }
  rewrite (squeeze_none isSpace).
  2:{ eapply every_impl; [|exact Hall]. intros a Ha. clear -Ha.
      revert Ha. by_cases a. }
  by rewrite squeeze_hyphens.
Qed.

(** A text of that shape is its own clean slug. *)
Lemma cleanSlug_fixed s :
  every isSlugChar s = true -> noRun isHyphen s = true ->
  String.length s <= 100 -> cleanSlug s = s.
Proof.
  intros Hall Hrun Hlen. rewrite cleanSlug_take by done. by apply take_all.
Qed.

(** X1: [generateCategorySlug] writes lower-case letters, digits and
    hyphens only, never two hyphens in a row, and at most 100
    characters. *)
Theorem generateCategorySlug_shape text :
  every isSlugChar (generateCategorySlug text) = true
  /\ includes "--" (generateCategorySlug text) = false
  /\ String.length (generateCategorySlug text) <= 100.
Proof.
  destruct (cleanSlug_shape text) as (Hall & Hrun & Hlen).
  split_and!; [done|by apply noRun_includes|done].
Qed.

(** X2: [generateCategorySlug] applied to a slug it has made gives
    that slug back. *)
Theorem generateCategorySlug_idempotent text :
  generateCategorySlug (generateCategorySlug text) = generateCategorySlug text.
Proof.
  destruct (cleanSlug_shape text) as (Hall & Hrun & Hlen).
  by apply cleanSlug_fixed.
Qed.

(** X3: with suffixes in base 36, the slug [createArticle] inserts is
    a cleaned text of at most 100 characters, a hyphen and a suffix:
    for a custom slug that is not empty the characters at positions 2
    to 6 of the random number, which are five at most and may be none,
    and otherwise the time stamp.  It is made of lower-case letters,
    digits and hyphens, and it is not empty even for an empty topic. *)
Theorem articleSlug_shape stamp random topic customSlug :
  every isBase36 stamp = true ->
  every isBase36 (substring 2 7 random) = true ->
  exists clean suffix,
    articleSlug stamp random topic customSlug = clean +:+ "-" +:+ suffix
    /\ every isSlugChar clean = true
    /\ String.length clean <= 100
    /\ suffix = match customSlug with
                | Some c => if truthy c then substring 2 7 random else stamp
                | None => stamp
                end
    /\ String.length (substring 2 7 random) <= 5
    /\ every isSlugChar (articleSlug stamp random topic customSlug) = true
    /\ articleSlug stamp random topic customSlug <> "".
Proof.
  intros Hstamp Hrandom.
  assert (forall s, every isBase36 s = true -> every isSlugChar s = true) as Hbase.
  { intros s. apply every_impl. intros a. unfold isBase36, isSlugChar.
    intros ->. done. }
  assert (forall text suffix, every isBase36 suffix = true ->
            every isSlugChar (cleanSlug text +:+ "-" +:+ suffix) = true
            /\ cleanSlug text +:+ "-" +:+ suffix <> "") as Hshape.
  { intros text suffix Hsuffix.
    destruct (cleanSlug_shape text) as (Hall & _ & Hlen). split.
    - apply every_app; [done|]. apply every_app; [done|by apply Hbase].
    - intros Hnil. apply (f_equal String.length) in Hnil.
      rewrite !length_app in Hnil. simpl in Hnil. lia. }
  assert (String.length (substring 2 7 random) <= 5) as H5.
  { unfold substring. rewrite length_take. lia. }
  unfold articleSlug, formatCustomSlug, generateSlug.
  destruct customSlug as [c|]; [destruct (truthy c)|];
    [exists (cleanSlug c), (substring 2 7 random);
     destruct (Hshape c _ Hrandom) as (? & ?)
    |exists (cleanSlug topic), stamp;
     destruct (Hshape topic _ Hstamp) as (? & ?)..];
    [destruct (cleanSlug_shape c) as (? & _ & ?)
    |destruct (cleanSlug_shape topic) as (? & _ & ?)..];
    by split_and!.
Qed.

(** X3 at work: a topic with capitals and punctuation, without and
    with a custom slug, and a random number too short for a suffix. *)
Lemma articleSlug_shape_witness :
  every isBase36 "lq3k9z" = true
  /\ every isBase36 (substring 2 7 "0.4fzyo82mvyr") = true
  /\ articleSlug "lq3k9z" "0.4fzyo82mvyr" "Rust 2.0: What's New?" None
     = "rust-20-whats-new-lq3k9z"
  /\ articleSlug "lq3k9z" "0.4fzyo82mvyr" "T" (Some "Rust 2.0: What's New?")
     = "rust-20-whats-new-4fzyo"
  /\ articleSlug "lq3k9z" "0" "T" (Some "x") = "x-"
  /\ every isSlugChar
       (articleSlug "lq3k9z" "0.4fzyo82mvyr" "Rust 2.0: What's New?" None) = true.
Proof.
  split_and!; [by vm_compute..|].
  destruct (articleSlug_shape "lq3k9z" "0.4fzyo82mvyr" "Rust 2.0: What's New?"
              None) as (clean & suffix & _ & _ & _ & _ & _ & Hall & _);
    [by vm_compute..|exact Hall].
Defined.

End SlugFacts.

(** ** Splitting and trimming *)

Module TextFacts.
Import Js JsFacts Rewrite RewriteFacts SlugFacts.

(** The character [c] does not occur in [s]. *)
Lemma includes_char c a t :
  includes (String c EmptyString) (String a t)
  = Ascii.eqb c a || includes (String c EmptyString) t.
Proof. cbn [includes startsWith]. by rewrite andb_true_r. Qed.

Lemma splitChar_none c s :
  includes (String c EmptyString) s = false -> splitChar c s = [s].
Proof.
  induction s as [|a t IH]; [done|]. rewrite includes_char.
  intros [Ha Ht]%orb_false_iff. cbn [splitChar].
  rewrite Ascii.eqb_sym, Ha. by rewrite IH.
Qed.

Lemma splitChar_app c s rest :
  includes (String c EmptyString) s = false ->
  splitChar c (s +:+ String c rest) = s :: splitChar c rest.
Proof.
  induction s as [|a t IH].
  - intros _. rewrite app_empty. cbn [splitChar]. by rewrite Ascii.eqb_refl.
  - rewrite includes_char. intros [Ha Ht]%orb_false_iff.
    rewrite app_cons. cbn [splitChar]. rewrite Ascii.eqb_sym, Ha.
    by rewrite IH.
Qed.

Lemma splitChar_join c l :
  l <> [] ->
  Forall (fun s => includes (String c EmptyString) s = false) l ->
  splitChar c (join (String c EmptyString) l) = l.
Proof.
  intros Hne Hall. induction Hall as [|s l Hs Hl IH]; [done|].
  destruct l as [|s' l'].
  - simpl. by apply splitChar_none.
  - change (join (String c EmptyString) (s :: s' :: l'))
      with (s +:+ String c EmptyString +:+ join (String c EmptyString) (s' :: l')).
    change (String c EmptyString +:+ ?x) with (String c x).
    rewrite splitChar_app by done. f_equal. by apply IH.
Qed.

(** *** [trim] *)

Lemma trimStart_head s :
  match trimStart s with
  | String a _ => isSpace a = false
  | EmptyString => True
  end.
Proof.
  induction s as [|a t IH]; [done|]. cbn [trimStart].
  by destruct (isSpace a) eqn:Ea.
Qed.

Lemma trimStart_fixed s :
  match s with
  | String a _ => isSpace a = false
  | EmptyString => True
  end -> trimStart s = s.
Proof. destruct s as [|a t]; [done|]. cbn [trimStart]. by intros ->. Qed.

Lemma trimEnd_cons a t :
  trimEnd (String a t)
  = match trimEnd t with
    | EmptyString => if isSpace a then EmptyString else String a EmptyString
    | t' => String a t'
    end.
Proof. reflexivity. Qed.

Lemma trimEnd_head a t : isSpace a = false -> exists u, trimEnd (String a t) = String a u.
Proof.
  intros Ha. rewrite trimEnd_cons. destruct (trimEnd t); rewrite ?Ha; by eexists.
Qed.

Lemma trimEnd_trimEnd s : trimEnd (trimEnd s) = trimEnd s.
Proof.
  induction s as [|a t IH]; [done|]. rewrite (trimEnd_cons a t).
  destruct (trimEnd t) as [|b u] eqn:Et.
  - destruct (isSpace a) eqn:Ea; [done|]. rewrite trimEnd_cons. simpl.
    by rewrite Ea.
  - by rewrite trimEnd_cons, IH.
Qed.

Lemma trim_trim s : trim (trim s) = trim s.
Proof.
  unfold trim. rewrite (trimStart_fixed (trimEnd (trimStart s))).
  - apply trimEnd_trimEnd.
  - pose proof (trimStart_head s) as H. destruct (trimStart s) as [|a t]; [done|].
    destruct (trimEnd_head a t H) as [u ->]. done.
Qed.

End TextFacts.

(** ** Alternative text *)

Module AltFacts.
Import Js JsFacts TextFacts GeminiText.

(** X4: the alternative text [generateAltTags] falls back to when
    the request fails.  A prompt without colon is taken as it is;
    otherwise the text between the first colon and the second, trimmed,
    is taken when it is not blank, so what follows a second colon is
    lost; and the text is empty for the empty prompt only. *)
Theorem altFallback_spec :
  (forall prompt, includes ":" prompt = false -> altFallback prompt = prompt)
  /\ (forall a b, includes ":" a = false -> includes ":" b = false ->
        altFallback (a +:+ ":" +:+ b)
        = if truthy (trim b) then trim b else a +:+ ":" +:+ b)
  /\ (forall a b c, includes ":" a = false -> includes ":" b = false ->
        altFallback (a +:+ ":" +:+ b +:+ ":" +:+ c)
        = if truthy (trim b) then trim b else a +:+ ":" +:+ b +:+ ":" +:+ c)
  /\ (forall prompt, prompt <> "" -> altFallback prompt <> "")
  /\ (forall e prompt,
        generateAltTags (Effect.Throw e) "Illustration for: Getting started"
        = Effect.Ok "Getting started"
        /\ generateAltTags (Effect.Throw e) prompt = Effect.Ok (altFallback prompt)).
Proof.
  split_and!.
  - intros prompt H. unfold altFallback. by rewrite splitChar_none.
  - intros a b Ha Hb. unfold altFallback.
    change (":" +:+ b) with (String ":" b).
    by rewrite splitChar_app, (splitChar_none _ b).
  - intros a b c Ha Hb. unfold altFallback.
    change (":" +:+ b +:+ ":" +:+ c) with (String ":" (b +:+ String ":" c)).
    by rewrite splitChar_app, splitChar_app.
  - intros prompt Hne. unfold altFallback.
    destruct (splitChar ":" prompt) as [|x [|part rest]]; try done.
    destruct (truthy (trim part)) eqn:E; [|done]. by destruct (trim part).
  - intros e prompt. split; [by vm_compute|done].
Qed.

End AltFacts.

(** ** Allowed origins *)

Module HandlerFacts.
Import Js JsFacts TextFacts Handler.

Lemma filter_truthy (l : list string) :
  Forall (fun o => o <> "") l -> filter (fun o => truthy o = true) l = l.
Proof.
  induction 1 as [|o l Ho _ IH]; [done|].
  rewrite filter_cons_True by (by destruct o). by rewrite IH.
Qed.

(** X5: whatever [FRONTEND_URL] holds, the list of allowed origins
    ends with the four origins of the source, and none of its entries
    is empty or has white space around it. *)
Theorem allowedOrigins_shape url :
  (exists fromEnv, allowedOrigins url = fromEnv ++ defaultOrigins)
  /\ Forall (fun o => o <> "" /\ trim o = o) (allowedOrigins url)
  /\ allowedOrigins None = defaultOrigins
  /\ allowedOrigins (Some "") = defaultOrigins.
Proof.
  split_and!; [by eexists| |done|done].
  unfold allowedOrigins. apply Forall_app. split.
  - unfold envOrigins. apply Forall_forall. intros o Ho.
    apply list_elem_of_filter in Ho as [Ht Ho].
    apply list_elem_of_fmap in Ho as (raw & -> & _). split.
    + by destruct (trim raw).
    + apply trim_trim.
  - repeat constructor; by vm_compute.
Qed.

(** X6: origins written one after the other with commas between
    them, each without comma and without white space around it, are
    the origins read from [FRONTEND_URL], in the same order. *)
Theorem origins_round_trip l :
  Forall (fun o => o <> "" /\ trim o = o /\ includes "," o = false) l ->
  envOrigins (Some (join "," l)) = l.
Proof.
  intros Hall. unfold envOrigins. simpl.
  destruct l as [|o l']; [done|].
  rewrite splitChar_join; [|done|].
  2:{ eapply Forall_impl; [exact Hall|]. by intros s (_ & _ & ?). }
  assert (map trim (o :: l') = o :: l') as ->.
  { clear -Hall. induction Hall as [|s l (_ & Hs & _) _ IH]; [done|].
    simpl. by rewrite Hs, IH. }
  apply filter_truthy. eapply Forall_impl; [exact Hall|]. by intros s (? & _).
Qed.

(** X6 at work: two origins. *)
Lemma origins_round_trip_witness :
  Forall (fun o => o <> "" /\ trim o = o /\ includes "," o = false)
    ["https://a.example"; "https://b.example"]
  /\ join "," ["https://a.example"; "https://b.example"]
     = "https://a.example,https://b.example"
  /\ envOrigins (Some "https://a.example,https://b.example")
     = ["https://a.example"; "https://b.example"].
Proof.
  assert (Forall (fun o => o <> "" /\ trim o = o /\ includes "," o = false)
            ["https://a.example"; "https://b.example"]) as Hall.
  { repeat constructor; by vm_compute. }
  split_and!; [exact Hall|done|].
  exact (origins_round_trip _ Hall).
Defined.

End HandlerFacts.

(** ** Suggested slugs *)

Module SuggestFacts.
Import Js JsFacts Regex Rewrite RewriteFacts Slug SlugFacts Effect GeminiText
  TextFacts.

Lemma notSlugOrHyphen_spec a :
  clsMatches true [IRange "a" "z"; IRange "0" "9"; IChar "-"] a
  = negb (isSlugChar a).
Proof. by_cases a. Qed.

Lemma notAlphanumeric_spec a :
  clsMatches true [IRange "a" "z"; IRange "0" "9"] a = negb (isBase36 a).
Proof. by_cases a. Qed.

Lemma every_dropLeading p s :
  every p s = true -> every p (dropLeadingHyphen s) = true.
Proof.
  destruct s as [|a t]; [done|]. simpl.
  intros [Ha Ht]%andb_true_iff. destruct (Ascii.eqb a "-"); [done|].
  simpl. by rewrite Ha, Ht.
Qed.

Lemma dropTrailing_cons a b u :
  dropTrailingHyphen (String a (String b u))
  = String a (dropTrailingHyphen (String b u)).
Proof. reflexivity. Qed.

Lemma dropTrailing_head b u :
  dropTrailingHyphen (String b u) = EmptyString /\ b = "-"%char /\ u = EmptyString
  \/ exists u', dropTrailingHyphen (String b u) = String b u'.
Proof.
  destruct u as [|c v].
  - simpl. destruct (Ascii.eqb b "-") eqn:E.
    + left. by apply Ascii.eqb_eq in E.
    + right. by eexists.
  - right. rewrite dropTrailing_cons. by eexists.
Qed.

Lemma every_dropTrailing p s :
  every p s = true -> every p (dropTrailingHyphen s) = true.
Proof.
  induction s as [|a t IH]; [done|]. intros H.
  change (every p (String a t)) with (p a && every p t) in H.
  apply andb_true_iff in H as [Ha Ht]. destruct t as [|b u].
  - simpl. destruct (Ascii.eqb a "-"); [done|]. simpl. by rewrite Ha.
  - rewrite dropTrailing_cons.
    change (every p (String a ?x)) with (p a && every p x). by rewrite Ha, IH.
Qed.

Lemma noRun_tail p a t : noRun p (String a t) = true -> noRun p t = true.
Proof.
  destruct t as [|b u]; [done|]. rewrite noRun_cons.
  by intros [_ ?]%andb_true_iff.
Qed.

Lemma noRun_dropLeading p s :
  noRun p s = true -> noRun p (dropLeadingHyphen s) = true.
Proof.
  destruct s as [|a t]; [done|]. simpl dropLeadingHyphen.
  destruct (Ascii.eqb a "-"); [apply noRun_tail|done].
Qed.

Lemma noRun_dropTrailing p s :
  noRun p s = true -> noRun p (dropTrailingHyphen s) = true.
Proof.
  induction s as [|a t IH]; [done|]. destruct t as [|b u].
  - intros _. simpl. by destruct (Ascii.eqb a "-").
  - rewrite noRun_cons, dropTrailing_cons.
    intros [Hab Ht]%andb_true_iff. specialize (IH Ht).
    destruct (dropTrailing_head b u) as [(-> & _)|[u' Hu']]; [done|].
    rewrite Hu' in *. by rewrite noRun_cons, Hab, IH.
Qed.

Lemma lastChar_dropTrailing s :
  noRun isHyphen s = true -> lastChar (dropTrailingHyphen s) <> Some "-"%char.
Proof.
  induction s as [|a t IH]; [done|]. destruct t as [|b u].
  - intros _. simpl. destruct (Ascii.eqb a "-") eqn:E; [done|].
    simpl. intros [= ->]. done.
  - rewrite noRun_cons, dropTrailing_cons.
    intros [Hab Ht]%andb_true_iff. specialize (IH Ht).
    destruct (dropTrailing_head b u) as [(-> & -> & ->)|[u' Hu']].
    + simpl. intros [= ->]. done.
    + by rewrite Hu' in *.
Qed.

Lemma firstChar_strip s :
  noRun isHyphen s = true -> firstChar (stripHyphens s) <> Some "-"%char.
Proof.
  intros Hrun. unfold stripHyphens.
  assert (firstChar (dropLeadingHyphen s) <> Some "-"%char) as Hfirst.
  { destruct s as [|a t]; [done|]. simpl dropLeadingHyphen.
    destruct (Ascii.eqb a "-") eqn:E.
    - apply Ascii.eqb_eq in E as ->. destruct t as [|b u]; [done|].
      rewrite noRun_cons in Hrun. apply andb_true_iff in Hrun as [Hab _].
      simpl. intros [= ->]. done.
    - simpl. intros [= ->]. done. }
  destruct (dropLeadingHyphen s) as [|b u]; [done|].
  by destruct (dropTrailing_head b u) as [(-> & _)|[u' ->]].
Qed.

(** The shape of a suggestion, however the request ended. *)
Lemma suggestSlug_clean answer topic slug :
  suggestSlug answer topic = Ok slug ->
  every isSlugChar slug = true /\ noRun isHyphen slug = true.
Proof.
  unfold suggestSlug, notSlugOrHyphen, notAlphanumeric, hyphens.
  destruct answer as [response|e|]; intros [= <-].
  - rewrite replaceAll_plus, replaceAll_cls by done.
    rewrite (squeeze_ext _ _ _ _ hyphens_spec).
    rewrite (replaceChars_ext _ _ _ _ notSlugOrHyphen_spec).
    unfold stripHyphens. split.
    + apply every_dropTrailing, every_dropLeading.
      apply (every_squeeze _ isSlugChar); [done|done|].
      apply (every_replaceChars _ (fun _ => true)); [|done|].
      { intros a _ Ha. by apply negb_false_iff in Ha. }
      induction (toLowerCase (trim response)); [done|by simpl].
    + apply noRun_dropTrailing, noRun_dropLeading, noRun_squeeze.
  - rewrite replaceAll_plus, replaceAll_cls by done.
    rewrite (squeeze_ext _ _ _ _ hyphens_spec).
    rewrite (replaceChars_ext _ _ _ _ notAlphanumeric_spec).
    unfold substring. rewrite drop_0. split.
    + apply every_take.
      apply (every_squeeze _ isSlugChar); [done|done|].
      apply (every_replaceChars _ (fun _ => true)); [|done|].
      { intros a _ Ha. apply negb_false_iff in Ha. revert Ha. clear.
        unfold isBase36, isSlugChar. by intros ->. }
      induction (toLowerCase topic); [done|by simpl].
    + apply noRun_take, noRun_squeeze.
Qed.

(** X7: [suggestSlug] never throws: a failure of the request is
    answered from the topic.  What it returns is made of lower-case
    letters, digits and hyphens, without two hyphens in a row; made
    from an answer it neither begins nor ends with a hyphen, made from
    the topic it has at most 50 characters. *)
Theorem suggestSlug_shape answer topic :
  match suggestSlug answer topic with
  | Ok slug =>
      every isSlugChar slug = true
      /\ includes "--" slug = false
      /\ (forall response, answer = Ok response ->
            firstChar slug <> Some "-"%char /\ lastChar slug <> Some "-"%char)
      /\ (forall e, answer = Throw e -> String.length slug <= 50)
  | Throw _ => False
  | Hang => answer = Hang
  end.
Proof.
  destruct (suggestSlug answer topic) as [slug|e|] eqn:H.
  - destruct (suggestSlug_clean _ _ _ H) as [Hall Hrun].
    split_and!; [done|by apply noRun_includes|..].
    + intros response ->. unfold suggestSlug in H. injection H as <-.
      unfold hyphens, notSlugOrHyphen.
      rewrite replaceAll_plus by done.
      rewrite (squeeze_ext _ _ _ _ hyphens_spec). split.
      * apply firstChar_strip, noRun_squeeze.
      * unfold stripHyphens. apply lastChar_dropTrailing, noRun_dropLeading,
          noRun_squeeze.
    + intros e ->. unfold suggestSlug in H. injection H as <-.
      unfold substring. rewrite length_take. lia.
  - by destruct answer.
  - by destruct answer.
Qed.

Lemma every_trimStart p s : every p s = true -> every p (trimStart s) = true.
Proof.
  induction s as [|a t IH]; [done|]. intros H. simpl.
  destruct (isSpace a); [|done]. apply IH.
  simpl in H. by apply andb_true_iff in H as [_ ?].
Qed.

Lemma every_trimEnd p s : every p s = true -> every p (trimEnd s) = true.
Proof.
  induction s as [|a t IH]; [done|]. intros H.
  change (every p (String a t)) with (p a && every p t) in H.
  apply andb_true_iff in H as [Ha Ht]. specialize (IH Ht).
  rewrite trimEnd_cons. destruct (trimEnd t) as [|b u].
  - destruct (isSpace a); [done|]. simpl. by rewrite Ha.
  - change (every p (String a ?x)) with (p a && every p x). by rewrite Ha, IH.
Qed.

Lemma every_toLowerCase p s :
  every (fun a => p (lowerChar a)) s = every p (toLowerCase s).
Proof. induction s as [|a t IH]; [done|]. simpl. by rewrite IH. Qed.

(** A text of hyphens squeezes to one hyphen at most, which the strip
    removes. *)
Lemma strip_hyphens_only s :
  every isHyphen s = true -> stripHyphens (squeeze isHyphen "-" s) = "".
Proof.
  intros H.
  assert (squeeze isHyphen "-" s = "" \/ squeeze isHyphen "-" s = "-") as [-> | ->];
    [|done..].
  induction s as [|a t IH]; [by left|].
  change (every isHyphen (String a t)) with (isHyphen a && every isHyphen t) in H.
  apply andb_true_iff in H as [Ha Ht]. specialize (IH Ht).
  cbn [squeeze]. rewrite Ha. destruct t as [|b u]; [by right|].
  cbn [every] in Ht. apply andb_true_iff in Ht as [Hb _]. by rewrite Hb.
Qed.

Lemma replaceChars_hyphens s :
  every (fun a => negb (isBase36 a)) s = true ->
  every isHyphen (replaceChars (fun a => negb (isSlugChar a)) "-" s) = true.
Proof.
  induction s as [|a t IH]; [done|]. intros H.
  change (every ?p (String a t)) with (p a && every p t) in H.
  apply andb_true_iff in H as [Ha Ht]. specialize (IH Ht).
  cbn [replaceChars]. destruct (negb (isSlugChar a)) eqn:E.
  - rewrite app_cons, app_empty. simpl. done.
  - cbn [every]. rewrite IH, andb_true_r. clear -Ha E.
    apply negb_false_iff in E. apply negb_true_iff in Ha.
    unfold isSlugChar, isBase36, isHyphen in *.
    rewrite Ha in E. done.
Qed.

(** An answer without a letter or a digit gives the empty slug. *)
Lemma blank_answer response topic :
  every (fun a => negb (isBase36 (lowerChar a))) response = true ->
  suggestSlug (Ok response) topic = Ok "".
Proof.
  intros H. unfold suggestSlug, notSlugOrHyphen, hyphens. f_equal.
  rewrite replaceAll_plus, replaceAll_cls by done.
  rewrite (squeeze_ext _ _ _ _ hyphens_spec).
  rewrite (replaceChars_ext _ _ _ _ notSlugOrHyphen_spec).
  apply strip_hyphens_only, replaceChars_hyphens.
  rewrite <-(every_toLowerCase (fun a => negb (isBase36 a))).
  unfold trim. by apply every_trimEnd, every_trimStart.
Qed.

(** X8: the slug of an article whose slug was suggested.  The
    suggestion goes into the slug as it is, cut after 100 characters
    and followed by a hyphen and the characters at positions 2 to 6 of
    the random number, five at most; an empty suggestion is set aside
    and the slug is made from the topic and the time stamp, and an
    answer in which no character is a letter or a digit gives such an
    empty suggestion. *)
Theorem suggestion_kept answer topic slug stamp random :
  suggestSlug answer topic = Ok slug ->
  articleSlug stamp random topic (Some slug)
  = (if truthy slug
     then take 100 slug +:+ "-" +:+ substring 2 7 random
     else generateSlug stamp topic)
  /\ String.length (substring 2 7 random) <= 5
  /\ forall response,
       answer = Ok response ->
       every (fun a => negb (isBase36 (lowerChar a))) response = true ->
       slug = "".
Proof.
  intros H. destruct (suggestSlug_clean _ _ _ H) as [Hall Hrun]. split_and!.
  - unfold articleSlug, formatCustomSlug. destruct (truthy slug); [|done].
    by rewrite cleanSlug_take.
  - unfold substring. rewrite length_take. lia.
  - intros response -> Hblank. rewrite blank_answer in H by done.
    by injection H as <-.
Qed.

(** X8 at work: an answer in capitals with punctuation, and an
    answer of punctuation only. *)
Lemma suggestion_kept_witness :
  suggestSlug (Ok " Rust 2.0: What's New? ") "T" = Ok "rust-2-0-what-s-new"
  /\ articleSlug "lq3k9z" "0.4fzyo82mvyr" "T" (Some "rust-2-0-what-s-new")
     = "rust-2-0-what-s-new-4fzyo"
  /\ suggestSlug (Ok "?!") "My Topic" = Ok ""
  /\ articleSlug "lq3k9z" "0.4fzyo82mvyr" "My Topic" (Some "") = "my-topic-lq3k9z".
Proof.
  assert (suggestSlug (Ok " Rust 2.0: What's New? ") "T" = Ok "rust-2-0-what-s-new")
    as H1 by (by vm_compute).
  assert (suggestSlug (Ok "?!") "My Topic" = Ok "") as H2 by (by vm_compute).
  split_and!; [exact H1| |exact H2|].
  - by rewrite (proj1 (suggestion_kept _ _ _ "lq3k9z" "0.4fzyo82mvyr" H1)).
  - by rewrite (proj1 (suggestion_kept _ _ _ "lq3k9z" "0.4fzyo82mvyr" H2)).
Defined.

End SuggestFacts.

(** ** Placeholders, alternative text and suggested slugs *)

Module PromptFacts.
Import Js JsFacts Regex RegexFacts ScanFacts Gemini GeminiFacts Rewrite
  RewriteFacts SlugFacts GeminiText.

(** *** The number of a placeholder *)

(** What an iteration of a class has gone over is made of members
    of the class. *)
Lemma iterate_cls_inv {R : Type} neg items g (k : cont R) x :
  forall fuel pos s c,
    iterate (fun q t d k' => run R (Cls neg items) q t d k') g k fuel pos s c
    = Some x ->
    exists n, n <= String.length s
      /\ every (clsMatches neg items) (take n s) = true
      /\ k (pos + n) (drop n s) c = Some x.
Proof.
  induction fuel as [|f IH]; intros pos s c H.
  - exists 0. simpl in H. rewrite Nat.add_0_r, drop_0. split_and!; [lia|done|done].
  - cbn [iterate] in H.
    assert (k pos s c = Some x ->
            exists n, n <= String.length s
              /\ every (clsMatches neg items) (take n s) = true
              /\ k (pos + n) (drop n s) c = Some x) as Hstop.
    { intros Hk. exists 0. rewrite Nat.add_0_r, drop_0.
      split_and!; [lia|done|done]. }
    assert (run R (Cls neg items) pos s c
              (fun pos' s' c' =>
                 if pos <? pos'
                 then iterate (fun q t d k' => run R (Cls neg items) q t d k')
                        g k f pos' s' c'
                 else None) = Some x ->
            exists n, n <= String.length s
              /\ every (clsMatches neg items) (take n s) = true
              /\ k (pos + n) (drop n s) c = Some x) as Hmore.
    { cbn [run]. destruct s as [|a t]; [done|].
      destruct (clsMatches neg items a) eqn:Ea; [|done].
      destruct (pos <? S pos); [|done]. intros Hit.
      apply IH in Hit as (n & Hn & Hall & Hk). exists (S n).
      split_and!; [simpl; lia| |].
      - simpl. by rewrite Ea, Hall.
      - simpl. by rewrite <-Nat.add_succ_comm. }
    unfold orElse in H. destruct g.
    + match type of H with
      | match ?m with _ => _ end = _ => destruct m as [y|] eqn:Em
      end.
      * injection H as ->. by apply Hmore.
      * by apply Hstop.
    + destruct (k pos s c) as [y|] eqn:Ek.
      * injection H as ->. by apply Hstop.
      * by apply Hmore.
Qed.

Lemma run_plus_cls_inv {R : Type} neg items g pos s c (k : cont R) x :
  run R (Plus g (Cls neg items)) pos s c k = Some x ->
  exists n, 0 < n <= String.length s
    /\ every (clsMatches neg items) (take n s) = true
    /\ k (pos + n) (drop n s) c = Some x.
Proof.
  cbn [run]. destruct s as [|a t]; [done|].
  destruct (clsMatches neg items a) eqn:Ea; [|done]. intros H.
  apply iterate_cls_inv in H as (n & Hn & Hall & Hk). exists (S n).
  split_and!; [lia|simpl; lia| |].
  - simpl. by rewrite Ea, Hall.
  - simpl. by rewrite <-Nat.add_succ_comm.
Qed.

Lemma isDigit_spec a : clsMatches false [IDigit] a = isDigit a.
Proof. by_cases a. Qed.

(** The number of a placeholder is a string of digits, and not
    empty. *)
Lemma promptRegex_number pos s m :
  matchAt promptRegex pos s = Some m ->
  exists num,
    group 1 m = Some num /\ num <> "" /\ every isDigit num = true.
Proof.
  unfold matchAt, promptRegex. intros H.
  change (run found (?a >> ?b)) with
    (fun pos s c k => run found a pos s c
       (fun pos' s' c' => run found b pos' s' c' k)) in H.
  cbv beta in H.
  apply run_lit in H as [_ H].
  set (s1 := drop (String.length "[IMAGE_PROMPT_") s) in *.
  set (p1 := pos + String.length "[IMAGE_PROMPT_") in *.
  change (run found (?a >> ?b)) with
    (fun pos s c k => run found a pos s c
       (fun pos' s' c' => run found b pos' s' c' k)) in H.
  cbv beta in H.
  change (run found (Grp 1 digits) p1 s1 ∅ ?k) with
    (run found digits p1 s1 ∅
       (fun pos' s' c' => k pos' s' (<[1 := take (pos' - p1) s1]> c'))) in H.
  apply run_plus_cls_inv in H as (n & [Hn1 Hn2] & Hall & H).
  replace (p1 + n - p1) with n in H by lia.
  apply run_reaches in H as (n2 & c2 & _ & [= <-] & Hframe).
  exists (take n s1). split_and!.
  - unfold group. simpl. rewrite Hframe.
    + by rewrite lookup_insert_eq.
    + vm_compute. intros Hin. repeat (apply elem_of_cons in Hin as [Hin|Hin]; [done|]).
      by apply elem_of_nil in Hin.
  - intros Hnil. apply (f_equal String.length) in Hnil.
    rewrite length_take in Hnil. simpl in Hnil. lia.
  - eapply every_impl; [|exact Hall]. intros a. by rewrite isDigit_spec.
Qed.

(** X9: [extractImagePrompts] returns, every prompt it returns is a
    text that is not empty, and every placeholder is
    [[IMAGE_PROMPT_n]] for a string [n] of digits that is not
    empty. *)
Theorem prompts_well_formed content :
  match extractImagePrompts content with
  | Some ps =>
      Forall (fun p =>
        prompt p <> ""
        /\ exists num, num <> "" /\ every isDigit num = true
             /\ placeholder p = "[IMAGE_PROMPT_" +:+ num +:+ "]") ps
  | None => False
  end.
Proof.
  destruct (execLoopFrom_total promptRegex promptRegex_productive
              (S (String.length content)) 0 content) as [ms Hms]; [lia|].
  unfold extractImagePrompts, execLoop. rewrite Hms. simpl.
  apply execLoopFrom_ascending in Hms as [_ Hall].
  apply Forall_map. eapply Forall_impl; [exact Hall|]. intros m [_ Hm]. simpl.
  apply promptRegex_number in Hm as (num & Hnum & Hne & Hdigits). split.
  - destruct (annotation m) as [p|] eqn:Ea.
    + unfold annotation in Ea.
      destruct (trim <$> orUndefined (group 3 m) (group 2 m)) as [q|]; [|done].
      destruct (truthy q) eqn:Eq; [|done]. injection Ea as <-.
      by destruct q.
    + by destruct (headingBefore content (index m)).
  - exists num. rewrite Hnum. done.
Qed.

(** *** Texts without the token *)

Lemma includes_drop p : forall s j,
  includes p s = false -> startsWith p (drop j s) = false.
Proof.
  induction s as [|a t IH]; intros j H.
  - rewrite drop_empty. simpl in H. by apply orb_false_iff in H as [? _].
  - cbn [includes] in H. apply orb_false_iff in H as [Hhead Htail].
    destruct j as [|j]; [done|]. simpl. by apply IH.
Qed.

Lemma startsWith_app_l p q : forall s,
  startsWith (p +:+ q) s = true -> startsWith p s = true.
Proof.
  induction p as [|a p IH]; intros s; [done|]. rewrite app_cons.
  destruct s as [|b s]; simpl; [done|].
  intros [-> H]%andb_true_iff. by apply IH.
Qed.

Lemma search_none r : forall s pos,
  (forall j, matchAt r (pos + j) (drop j s) = None) -> search r pos s = None.
Proof.
  induction s as [|a t IH]; intros pos H.
  - simpl. specialize (H 0). rewrite Nat.add_0_r in H. simpl in H. by rewrite H.
  - cbn [search]. pose proof (H 0) as H0. rewrite Nat.add_0_r in H0.
    simpl in H0. rewrite H0. apply IH. intros j. specialize (H (S j)).
    simpl in H. by rewrite <-Nat.add_succ_comm in H.
Qed.

(** X10: a text in which ["[IMAGE_PROMPT_"] does not occur has no
    image prompt. *)
Theorem no_token_no_prompt content :
  includes "[IMAGE_PROMPT_" content = false ->
  extractImagePrompts content = Some [].
Proof.
  intros Hno. unfold extractImagePrompts, execLoop. cbn [execLoopFrom].
  rewrite search_none; [done|]. intros j.
  destruct (matchAt promptRegex (0 + j) (drop j content)) as [m|] eqn:E; [|done].
  apply promptRegex_token in E as (num & _ & Htok & _).
  pose proof (includes_drop _ _ j Hno) as Hj.
  apply startsWith_app_l in Htok.
  congruence.
Qed.

(** X10 at work: the document of the specification's spelling. *)
Lemma no_token_no_prompt_witness :
  includes "[IMAGE_PROMPT_" Samples.specBody = false
  /\ extractImagePrompts Samples.specBody = Some [].
Proof.
  split; [by vm_compute|]. apply no_token_no_prompt. by vm_compute.
Defined.

End PromptFacts.

(** ** The expressions of the source on tidy documents

    What the backtracking matcher does with [promptRegex] and
    [h2Regex] on texts given piece by piece, and from it the prompts of
    a document given line by line. *)

Module EngineFacts.
Import Js JsFacts Regex RegexFacts ScanFacts Rewrite RewriteFacts.

Lemma drop_app_length w : forall s, drop (String.length w) (w +:+ s) = s.
Proof. induction w as [|a w IH]; intros s; [done|]. rewrite app_cons. simpl. apply IH. Qed.

Lemma take_app_length w : forall s, take (String.length w) (w +:+ s) = w.
Proof.
  induction w as [|a w IH]; intros s; [by destruct s|]. rewrite app_cons. simpl.
  by rewrite IH.
Qed.

Lemma drop_app_le w : forall n s,
  n <= String.length w -> drop n (w +:+ s) = drop n w +:+ s.
Proof.
  induction w as [|a w IH]; intros n s Hn.
  - simpl in Hn. by replace n with 0 by lia.
  - destruct n as [|n]; [done|]. rewrite app_cons. simpl. apply IH. simpl in Hn. lia.
Qed.

Lemma runLength_app p w s :
  every p w = true -> headOut p s -> runLength p (w +:+ s) = String.length w.
Proof.
  induction w as [|a w IH]; intros Hw Hs.
  - rewrite app_empty. destruct s as [|b s]; [done|]. simpl in *. by rewrite Hs.
  - rewrite app_cons. simpl in *. apply andb_true_iff in Hw as [-> Hw].
    by rewrite IH.
Qed.

Section Forward.
Context {R : Type}.

Lemma run_seq r1 r2 pos s c (k : cont R) :
  run R (Seq r1 r2) pos s c k
  = run R r1 pos s c (fun pos' s' c' => run R r2 pos' s' c' k).
Proof. reflexivity. Qed.

Lemma run_grp n r pos s c (k : cont R) :
  run R (Grp n r) pos s c k
  = run R r pos s c (fun pos' s' c' => k pos' s' (<[n := take (pos' - pos) s]> c')).
Proof. reflexivity. Qed.

Lemma run_lit_app l s pos c (k : cont R) :
  run R (Lit l) pos (l +:+ s) c k = k (pos + String.length l) s c.
Proof. simpl. by rewrite PipelineFacts.startsWith_prefix, drop_app_length. Qed.

Lemma run_lit_none l s pos c (k : cont R) :
  startsWith l s = false -> run R (Lit l) pos s c k = None.
Proof. simpl. by intros ->. Qed.

Variable neg : bool.
Variable items : list item.
Abbreviation p := (clsMatches neg items).
Abbreviation body := (fun q t d (k' : cont R) => run R (Cls neg items) q t d k').

(** The greedy iteration stops behind the run when what follows
    succeeds there. *)
Lemma iterate_cls_max (k : cont R) x :
  forall fuel pos s c, String.length s <= fuel ->
    k (pos + runLength p s) (drop (runLength p s) s) c = Some x ->
    iterate body true k fuel pos s c = Some x.
Proof.
  induction fuel as [|f IH]; intros pos s c Hfuel Hk.
  - destruct s; [|simpl in Hfuel; lia]. simpl in *. by rewrite Nat.add_0_r in Hk.
  - cbn [iterate]. destruct s as [|a t].
    + simpl in *. by rewrite Nat.add_0_r in Hk.
    + simpl in Hfuel. cbn [run runLength] in *.
      destruct (clsMatches neg items a) eqn:Ea.
      * assert ((pos <? S pos) = true) as -> by (apply Nat.ltb_lt; lia).
        rewrite (IH (S pos) t c); [done|lia|].
        simpl in Hk. by rewrite <-Nat.add_succ_comm in Hk.
      * simpl in *. by rewrite Nat.add_0_r in Hk.
Qed.

(** The greedy iteration fails when what follows fails wherever the
    iteration can stop. *)
Lemma iterate_cls_none (k : cont R) :
  forall fuel pos s c,
    (forall n, n <= runLength p s -> k (pos + n) (drop n s) c = None) ->
    iterate body true k fuel pos s c = None.
Proof.
  induction fuel as [|f IH]; intros pos s c Hk.
  - specialize (Hk 0). simpl. rewrite Nat.add_0_r in Hk. apply Hk. lia.
  - cbn [iterate].
    assert (k pos s c = None) as Hstop.
    { specialize (Hk 0). rewrite Nat.add_0_r in Hk. apply Hk. lia. }
    destruct s as [|a t]; [by simpl|].
    cbn [run runLength] in *.
    destruct (clsMatches neg items a) eqn:Ea; [|by simpl].
    assert ((pos <? S pos) = true) as -> by (apply Nat.ltb_lt; lia).
    rewrite IH; [by simpl|].
    intros n Hn. specialize (Hk (S n)). simpl in Hk.
    rewrite <-Nat.add_succ_comm in Hk. apply Hk. lia.
Qed.

(** The lazy iteration stops at the first place where what follows
    succeeds. *)
Lemma iterate_cls_lazy (k : cont R) x :
  forall n fuel pos s c,
    n <= fuel -> n <= String.length s ->
    every p (take n s) = true ->
    (forall j, j < n -> k (pos + j) (drop j s) c = None) ->
    k (pos + n) (drop n s) c = Some x ->
    iterate body false k fuel pos s c = Some x.
Proof.
  induction n as [|n IH]; intros fuel pos s c Hfuel Hlen Hall Hnone Hk.
  - rewrite Nat.add_0_r in Hk. simpl in Hk.
    destruct fuel as [|f]; simpl; [done|]. by rewrite Hk.
  - destruct fuel as [|f]; [lia|]. cbn [iterate].
    assert (k pos s c = None) as ->.
    { specialize (Hnone 0). rewrite Nat.add_0_r in Hnone. apply Hnone. lia. }
    simpl orElse. destruct s as [|a t]; [simpl in Hlen; lia|].
    cbn [run]. simpl in Hall. apply andb_true_iff in Hall as [-> Hall].
    assert ((pos <? S pos) = true) as -> by (apply Nat.ltb_lt; lia).
    apply (IH f (S pos) t c); [lia|simpl in Hlen; lia|done| |].
    + intros j Hj. specialize (Hnone (S j)). simpl in Hnone.
      rewrite <-Nat.add_succ_comm in Hnone. apply Hnone. lia.
    + simpl in Hk. by rewrite <-Nat.add_succ_comm in Hk.
Qed.

Lemma run_star_cls w s pos c (k : cont R) x :
  every p w = true -> headOut p s ->
  k (pos + String.length w) s c = Some x ->
  run R (Star true (Cls neg items)) pos (w +:+ s) c k = Some x.
Proof.
  intros Hw Hs Hk. cbn [run]. apply iterate_cls_max; [done|].
  by rewrite runLength_app, drop_app_length.
Qed.

Lemma run_star_cls_none s pos c (k : cont R) :
  (forall n, n <= runLength p s -> k (pos + n) (drop n s) c = None) ->
  run R (Star true (Cls neg items)) pos s c k = None.
Proof. intros Hk. cbn [run]. by apply iterate_cls_none. Qed.

Lemma run_plus_cls w s pos c (k : cont R) x :
  w <> "" -> every p w = true -> headOut p s ->
  k (pos + String.length w) s c = Some x ->
  run R (Plus true (Cls neg items)) pos (w +:+ s) c k = Some x.
Proof.
  intros Hne Hw Hs Hk. destruct w as [|a w]; [done|]. rewrite app_cons.
  cbn [run]. simpl in Hw. apply andb_true_iff in Hw as [-> Hw].
  apply iterate_cls_max; [done|].
  rewrite runLength_app, drop_app_length by done.
  simpl in Hk. by rewrite <-Nat.add_succ_comm in Hk.
Qed.

Lemma run_plus_lazy_cls w s pos c (k : cont R) x :
  w <> "" -> every p w = true ->
  (forall j, 0 < j < String.length w -> k (pos + j) (drop j (w +:+ s)) c = None) ->
  k (pos + String.length w) s c = Some x ->
  run R (Plus false (Cls neg items)) pos (w +:+ s) c k = Some x.
Proof.
  intros Hne Hw Hnone Hk. destruct w as [|a w]; [done|]. rewrite app_cons.
  cbn [run]. simpl in Hw. apply andb_true_iff in Hw as [-> Hw].
  apply (iterate_cls_lazy k x (String.length w)).
  - rewrite length_app. lia.
  - rewrite length_app. lia.
  - by rewrite take_app_length.
  - intros j Hj. specialize (Hnone (S j)). rewrite app_cons in Hnone. simpl in Hnone.
    rewrite <-Nat.add_succ_comm in Hnone. apply Hnone. lia.
  - rewrite drop_app_length. simpl in Hk. by rewrite <-Nat.add_succ_comm in Hk.
Qed.

End Forward.
End EngineFacts.

Module TokenFacts.
Import Js JsFacts Regex RegexFacts ScanFacts Rewrite RewriteFacts Gemini
  SlugFacts PromptFacts EngineFacts Markdown.

Lemma app_assoc (a b c : string) : (a +:+ b) +:+ c = a +:+ (b +:+ c).
Proof. induction a as [|x a IH]; [done|]. by rewrite !app_cons, IH. Qed.

Lemma every_ext (p q : ascii -> bool) s :
  (forall a, p a = q a) -> every p s = every q s.
Proof. intros H. induction s as [|a t IH]; [done|]. simpl. by rewrite H, IH. Qed.

Lemma notLineEnd_spec a :
  clsMatches true [IChar LF; IChar "<"] a
  = negb (isLineFeed a) && negb (Ascii.eqb a "<").
Proof. by_cases a. Qed.

Lemma notHyphen_spec a :
  clsMatches true [IChar "-"] a = negb (Ascii.eqb a "-").
Proof. by_cases a. Qed.

Lemma notLineFeed_spec a : clsMatches true [IChar LF] a = negb (isLineFeed a).
Proof. by_cases a. Qed.

Lemma headOut_visible p s z :
  (forall a, isSpace a = false -> p a = false) ->
  visibleHead s = true -> headOut p (s +:+ z).
Proof.
  intros Hp. destruct s as [|a t]; [done|]. rewrite app_cons. simpl.
  intros Ha. apply Hp. by apply negb_true_iff.
Qed.

Lemma headOut_lineEnd p s : p LF = false -> lineEnd s -> headOut p s.
Proof. intros Hp. destruct s as [|a t]; [done|]. simpl. by intros ->. Qed.

Lemma headOut_stops s :
  stops s = true -> headOut (clsMatches true [IChar LF; IChar "<"]) s.
Proof.
  destruct s as [|a t]; [done|]. cbn [stops headOut]. rewrite notLineEnd_spec.
  intros [-> | ->]%orb_true_iff; [done|]. by rewrite andb_false_r.
Qed.

Lemma visibleHead_nonempty s : visibleHead s = true -> s <> "".
Proof. by destruct s. Qed.

(** A character of a text, met after [n] of its characters. *)
Lemma drop_head q : forall w n,
  every q w = true -> n < String.length w ->
  exists a t, drop n w = String a t /\ q a = true.
Proof.
  induction w as [|b w IH]; intros n Hw Hn; [simpl in Hn; lia|].
  simpl in Hw. apply andb_true_iff in Hw as [Hb Hw].
  destruct n as [|n]; [by exists b, w|]. simpl. apply IH; [done|simpl in Hn; lia].
Qed.

Lemma startsWith_other x l a t :
  x <> a -> startsWith (String x l) (String a t) = false.
Proof.
  intros Hne. simpl. destruct (Ascii.eqb x a) eqn:E; [|done].
  by apply Ascii.eqb_eq in E.
Qed.

(** A text whose characters all differ from [x] holds, with the
    character [c] behind it, no place where a text that begins with
    [x] begins. *)
Lemma startsWith_drop_out q x l w c z n :
  q x = false -> every q w = true -> q c = true -> n <= String.length w ->
  startsWith (String x l) (drop n (w +:+ String c z)) = false.
Proof.
  intros Hx Hw Hc Hn.
  destruct (decide (n = String.length w)) as [->|Hne].
  - rewrite drop_app_length. apply startsWith_other. by intros ->; congruence.
  - rewrite drop_app_le by lia.
    destruct (drop_head q w n Hw) as (a & t & -> & Ha); [lia|].
    rewrite app_cons. apply startsWith_other. by intros ->; congruence.
Qed.

Lemma runLength_ext (p q : ascii -> bool) s :
  (forall a, p a = q a) -> runLength p s = runLength q s.
Proof. intros H. induction s as [|a t IH]; [done|]. simpl. by rewrite H, IH. Qed.

(** Behind the white space at the head of a text that does not open
    an annotation there is neither a colon nor an angle bracket. *)
Lemma startsWith_closed x l : forall r n,
  opens r = false -> Ascii.eqb x ":" || Ascii.eqb x "<" = true ->
  n <= runLength isSpace r ->
  startsWith (String x l) (drop n r) = false.
Proof.
  intros r n Hr Hx. revert n.
  assert (isSpace x = false) as Hvis.
  { apply orb_true_iff in Hx as [->%Ascii.eqb_eq| ->%Ascii.eqb_eq]; done. }
  induction r as [|a t IH]; intros n Hn.
  - by destruct n.
  - unfold opens in Hr. simpl in Hr, Hn. destruct (isSpace a) eqn:Ea.
    + destruct n as [|n].
      * simpl drop. apply startsWith_other. intros ->. congruence.
      * simpl. apply IH; [done|lia].
    + replace n with 0 by lia. simpl drop. apply startsWith_other. intros ->.
      rewrite Hx in Hr. done.
Qed.

Lemma visibleEnd_cons a b t : visibleEnd (String a (String b t)) = visibleEnd (String b t).
Proof. reflexivity. Qed.

Lemma visibleEnd_drop : forall s j,
  visibleEnd s = true -> j < String.length s -> visibleEnd (drop j s) = true.
Proof.
  induction s as [|a t IH]; intros j Hs Hj; [done|].
  destruct j as [|j]; [done|]. simpl drop. simpl in Hj.
  destruct t as [|b u]; [simpl in Hj; lia|].
  rewrite visibleEnd_cons in Hs. apply IH; [done|lia].
Qed.

(** The white space at the head of a text that ends with something
    else ends inside the text. *)
Lemma runLength_visibleEnd : forall u z,
  visibleEnd u = true -> runLength isSpace (u +:+ z) < String.length u.
Proof.
  induction u as [|a t IH]; intros z Hu; [done|]. rewrite app_cons. simpl.
  destruct (isSpace a) eqn:Ea; [|lia].
  destruct t as [|b v]; [simpl in Hu; by rewrite Ea in Hu|].
  rewrite visibleEnd_cons in Hu. specialize (IH z Hu). simpl in *. lia.
Qed.

Section Forward.
Context {R : Type}.

Lemma run_opt_some r pos s c (k : cont R) x :
  run R r pos s c k = Some x -> run R (Opt r) pos s c k = Some x.
Proof. cbn [run]. by intros ->. Qed.

Lemma run_opt_none r pos s c (k : cont R) :
  run R r pos s c k = None -> run R (Opt r) pos s c k = k pos s c.
Proof. cbn [run]. by intros ->. Qed.

Lemma run_alt_left r1 r2 pos s c (k : cont R) x :
  run R r1 pos s c k = Some x -> run R (Alt r1 r2) pos s c k = Some x.
Proof. cbn [run]. by intros ->. Qed.

Lemma run_alt_right r1 r2 pos s c (k : cont R) :
  run R r1 pos s c k = None ->
  run R (Alt r1 r2) pos s c k = run R r2 pos s c k.
Proof. cbn [run]. by intros ->. Qed.

(** White space and then a text that begins with [x]: no match where
    no such text begins behind the white space. *)
Lemma run_ws_lit_none x l rest s pos c (k : cont R) :
  (forall n, n <= runLength isSpace s ->
     startsWith (String x l) (drop n s) = false) ->
  run R (ws >> Lit (String x l) >> rest) pos s c k = None.
Proof.
  intros H. rewrite run_seq. unfold ws. apply run_star_cls_none.
  intros n Hn. rewrite run_seq. apply run_lit_none. apply H.
  by rewrite <-(runLength_ext _ _ _ spaces_spec).
Qed.

Lemma run_ws_lit_none_end x l s pos c (k : cont R) :
  (forall n, n <= runLength isSpace s ->
     startsWith (String x l) (drop n s) = false) ->
  run R (ws >> Lit (String x l)) pos s c k = None.
Proof.
  intros H. rewrite run_seq. unfold ws. apply run_star_cls_none.
  intros n Hn. apply run_lit_none. apply H.
  by rewrite <-(runLength_ext _ _ _ spaces_spec).
Qed.

Lemma run_ws w s pos c (k : cont R) x :
  every isSpace w = true -> headOut isSpace s ->
  k (pos + String.length w) s c = Some x ->
  run R ws pos (w +:+ s) c k = Some x.
Proof.
  intros Hw Hs Hk. unfold ws. apply run_star_cls; [| |done].
  - by rewrite (every_ext _ _ _ spaces_spec).
  - destruct s as [|a t]; [done|]. cbn [headOut] in *. by rewrite spaces_spec.
Qed.

End Forward.
End TokenFacts.

Module MatchFacts.
Import Js JsFacts Regex RegexFacts ScanFacts Rewrite RewriteFacts Gemini
  SlugFacts PromptFacts EngineFacts Markdown TokenFacts.

Lemma promptRegex_eq :
  promptRegex
  = Lit "[IMAGE_PROMPT_" >> Grp 1 digits >> Lit "]" >>
    Opt (Alt colonTail commentTail).
Proof. reflexivity. Qed.

Section Tails.
Context {R : Type}.

Lemma take_here pos n (w s : string) :
  n = String.length w -> take (pos + n - pos) (w +:+ s) = w.
Proof. intros ->. replace (pos + _ - pos) with (String.length w) by lia. apply take_app_length. Qed.

(** A colon and its text. *)
Lemma run_colonTail w1 w2 text tail pos c (k : cont R) x :
  every isSpace w1 = true -> every isSpace w2 = true ->
  visibleHead text = true ->
  every (fun a => negb (isLineFeed a) && negb (Ascii.eqb a "<")) text = true ->
  stops tail = true ->
  k (pos + String.length w1 + 1 + String.length w2 + String.length text) tail
    (<[2 := text]> c) = Some x ->
  run R colonTail pos (w1 +:+ ":" +:+ w2 +:+ text +:+ tail) c k = Some x.
Proof.
  intros H1 H2 Hvis Hall Hend Hk. unfold colonTail.
  rewrite run_seq. apply run_ws; [done|by rewrite app_cons|].
  rewrite run_seq, run_lit_app.
  rewrite run_seq. apply run_ws; [done|by apply headOut_visible|].
  rewrite run_grp. apply run_plus_cls.
  - by apply visibleHead_nonempty.
  - by rewrite (every_ext _ _ _ notLineEnd_spec).
  - by apply headOut_stops.
  - rewrite take_here by done. simpl String.length. exact Hk.
Qed.

(** No colon behind the white space: the first annotation does not
    match. *)
Lemma run_colonTail_none s pos c (k : cont R) :
  (forall n, n <= runLength isSpace s -> startsWith ":" (drop n s) = false) ->
  run R colonTail pos s c k = None.
Proof. apply run_ws_lit_none. Qed.

Lemma run_commentTail_none s pos c (k : cont R) :
  (forall n, n <= runLength isSpace s -> startsWith "<!--" (drop n s) = false) ->
  run R commentTail pos s c k = None.
Proof. apply run_ws_lit_none. Qed.

(** A comment and its text. *)
Lemma run_commentTail w1 w2 w3 text w4 tail pos c (k : cont R) x :
  every isSpace w1 = true -> every isSpace w2 = true ->
  every isSpace w3 = true -> every isSpace w4 = true ->
  visibleHead text = true -> visibleEnd text = true ->
  every (fun a => negb (Ascii.eqb a "-")) text = true ->
  k (pos + String.length w1 + 4 + String.length w2 + 6 + String.length w3
     + String.length text + String.length w4 + 3) tail
    (<[3 := text]> c) = Some x ->
  run R commentTail pos
    (w1 +:+ "<!--" +:+ w2 +:+ "Image:" +:+ w3 +:+ text +:+ w4 +:+ "-->" +:+ tail)
    c k = Some x.
Proof.
  intros H1 H2 H3 H4 Hvis Hend Hall Hk. unfold commentTail.
  rewrite run_seq. apply run_ws; [done|by rewrite app_cons|].
  rewrite run_seq, run_lit_app.
  rewrite run_seq. apply run_ws; [done|by rewrite app_cons|].
  rewrite run_seq, run_lit_app.
  rewrite run_seq. apply run_ws; [done|by apply headOut_visible|].
  rewrite run_seq, run_grp. apply run_plus_lazy_cls.
  - by apply visibleHead_nonempty.
  - by rewrite (every_ext _ _ _ notHyphen_spec).
  - intros j Hj. apply run_ws_lit_none_end. intros n Hn.
    assert (j <= String.length text) as Hle by (clear -Hj; lia).
    rewrite (drop_app_le text j _ Hle) in Hn. rewrite (drop_app_le text j _ Hle).
    assert (j < String.length text) as Hlt by (clear -Hj; lia).
    pose proof (runLength_visibleEnd (drop j text) (w4 +:+ "-->" +:+ tail)
                  (visibleEnd_drop _ _ Hend Hlt)) as Hrun.
    assert (n < String.length (drop j text)) as Hn' by (clear -Hn Hrun; lia).
    rewrite (drop_app_le (drop j text) n) by (clear -Hn'; lia).
    destruct (drop_head _ (drop j text) n
                (every_drop _ j _ Hall) Hn') as (a & t & -> & Ha).
    rewrite app_cons. apply startsWith_other. intros <-. done.
  - rewrite take_here by done.
    rewrite run_seq. apply run_ws; [done|by rewrite app_cons|].
    rewrite run_lit_app. simpl String.length. exact Hk.
Qed.

End Tails.
End MatchFacts.

Module PlaceholderFacts.
Import Js JsFacts Regex RegexFacts ScanFacts Rewrite RewriteFacts Gemini
  SlugFacts TextFacts PromptFacts EngineFacts Markdown TokenFacts MatchFacts.

Lemma trimEnd_visibleEnd : forall s, visibleEnd s = true -> trimEnd s = s.
Proof.
  induction s as [|a t IH]; [done|]. intros H. rewrite trimEnd_cons.
  destruct t as [|b u].
  - simpl in *. by destruct (isSpace a).
  - rewrite visibleEnd_cons in H. by rewrite IH.
Qed.

Lemma trim_visible s :
  visibleHead s = true -> visibleEnd s = true -> trim s = s.
Proof.
  intros Hh He. unfold trim.
  assert (trimStart s = s) as ->.
  { destruct s as [|a t]; [done|]. simpl in *. by destruct (isSpace a). }
  by apply trimEnd_visibleEnd.
Qed.

Lemma trim_visibleHead s : visibleHead s = true -> truthy (trim s) = true.
Proof.
  destruct s as [|a t]; [done|]. simpl. intros Ha%negb_true_iff.
  unfold trim. simpl. rewrite Ha.
  by destruct (trimEnd_head a t Ha) as [u ->].
Qed.

(** The match at a placeholder with its annotation, in a document
    that goes on with [tail]. *)
Lemma matchAt_placeholder pos n a tail :
  truthy n = true -> every isDigit n = true -> tidyAnnotation a = true ->
  match a with
  | Bare => opens tail = false
  | Colon _ _ _ => stops tail = true
  | Comment _ _ _ _ _ => True
  end ->
  exists m,
    matchAt promptRegex pos (token n +:+ renderAnnotation a +:+ tail) = Some m
    /\ index m = pos
    /\ last m = pos + String.length (token n +:+ renderAnnotation a)
    /\ group 1 m = Some n
    /\ annotation m
       = match a with
         | Bare => None
         | Colon _ _ text => Some (trim text)
         | Comment _ _ _ text _ => Some text
         end.
Proof.
  intros Hn Hdigits Hann Htail.
  assert (n <> "") as Hne by (by destruct n).
  unfold token. rewrite !app_assoc.
  unfold matchAt. rewrite promptRegex_eq.
  set (s := "[IMAGE_PROMPT_" +:+ n +:+ "]" +:+ renderAnnotation a +:+ tail).
  set (k0 := fun (pos' : nat) (_ : string) (c : caps) =>
               Some (Found pos pos' (take (pos' - pos) s) c)).
  subst s.
  assert (forall z x,
    run found (Opt (Alt colonTail commentTail))
      (pos + String.length "[IMAGE_PROMPT_" + String.length n + 1) z
      (<[1 := n]> ∅) k0 = Some x ->
    run found (Lit "[IMAGE_PROMPT_" >> Grp 1 digits >> Lit "]" >>
               Opt (Alt colonTail commentTail)) pos
      ("[IMAGE_PROMPT_" +:+ n +:+ "]" +:+ z) ∅ k0 = Some x) as Hprefix.
  { intros z x Hx. rewrite run_seq, run_lit_app.
    rewrite run_seq, run_grp. unfold digits. apply run_plus_cls; [done| |by rewrite app_cons|].
    - by rewrite (every_ext _ _ _ isDigit_spec).
    - rewrite take_here by done. rewrite run_seq, run_lit_app. exact Hx. }
  destruct a as [|w1 w2 text|w1 w2 w3 text w4]; cbn [renderAnnotation tidyAnnotation] in *.
  - (* no annotation *)
    rewrite app_empty.
    eexists. split.
    { apply Hprefix. rewrite run_opt_none.
      - reflexivity.
      - rewrite run_alt_right.
        + apply run_commentTail_none. intros j Hj. by apply startsWith_closed.
        + apply run_colonTail_none. intros j Hj. by apply startsWith_closed. }
    cbn [index last]. split_and!; [done| |done|done].
    rewrite !length_app. simpl. lia.
  - (* a colon *)
    apply andb_true_iff in Hann as [Hann _].
    apply andb_true_iff in Hann as [Hann Hall].
    apply andb_true_iff in Hann as [Hann Hvis].
    apply andb_true_iff in Hann as [H1 H2].
    rewrite !app_assoc.
    eexists. split.
    { apply Hprefix. apply run_opt_some, run_alt_left.
      apply run_colonTail; [done..|]. reflexivity. }
    cbn [index last]. split_and!; [done| |done|].
    + rewrite !length_app. simpl. lia.
    + unfold annotation, group. cbn [groups].
      rewrite lookup_insert_ne, lookup_insert_ne by done.
      rewrite lookup_empty, lookup_insert_eq.
      cbn [orUndefined fmap option_fmap option_map].
      by rewrite trim_visibleHead.
  - (* a comment *)
    apply andb_true_iff in Hann as [Hann _].
    apply andb_true_iff in Hann as [Hann Hall].
    apply andb_true_iff in Hann as [Hann HvisE].
    apply andb_true_iff in Hann as [Hann Hvis].
    apply andb_true_iff in Hann as [Hann H4].
    apply andb_true_iff in Hann as [Hann H3].
    apply andb_true_iff in Hann as [H1 H2].
    rewrite !app_assoc.
    eexists. split.
    { apply Hprefix. apply run_opt_some. rewrite run_alt_right.
      - apply run_commentTail; [done..|]. reflexivity.
      - apply run_colonTail_none. intros j Hj.
        apply (startsWith_drop_out (fun a => negb (Ascii.eqb a ":")));
          [done| |done|].
        + eapply every_impl; [|exact H1]. intros b Hb.
          destruct (Ascii.eqb_spec b ":") as [->|]; done.
        + by rewrite runLength_app in Hj. }
    cbn [index last]. split_and!; [done| |done|].
    + rewrite !length_app. simpl. lia.
    + unfold annotation, group. cbn [groups].
      rewrite lookup_insert_eq.
      assert (truthy text = true) as Ht by (by destruct text).
      cbn [orUndefined]. rewrite Ht. cbn [fmap option_fmap option_map].
      rewrite trim_visible by done. by rewrite Ht.
Qed.

(** Where the token does not begin nothing matches. *)
Lemma matchAt_promptRegex_none pos s :
  startsWith "[IMAGE_PROMPT_" s = false -> matchAt promptRegex pos s = None.
Proof.
  intros H. unfold matchAt. rewrite promptRegex_eq, run_seq.
  by apply run_lit_none.
Qed.

End PlaceholderFacts.

Module HeadingFacts.
Import Js JsFacts Regex RegexFacts ScanFacts Rewrite RewriteFacts Gemini
  SlugFacts TextFacts PromptFacts EngineFacts Markdown TokenFacts MatchFacts
  PlaceholderFacts.

Lemma render_cons l ls : render (l :: ls) = renderLine l +:+ afterLine ls.
Proof.
  unfold render, afterLine. destruct ls as [|l' ls]; [by rewrite app_empty_r|].
  reflexivity.
Qed.

Lemma lineEnd_afterLine ls : lineEnd (afterLine ls).
Proof. destruct ls; [done|]. unfold afterLine, nl. by rewrite app_cons. Qed.

Lemma renderLines_snoc prev l :
  renderLines (prev ++ [l]) = renderLines prev +:+ renderLine l +:+ nl.
Proof.
  induction prev as [|x prev IH]; simpl.
  - by rewrite app_empty_r.
  - by rewrite IH, !app_assoc.
Qed.

(** A text in which [p] does not occur, and behind it a character
    that is not in [p]: [p] begins nowhere in that text. *)
Lemma startsWith_behind p c z : forall u,
  every (fun a => negb (Ascii.eqb a c)) p = true ->
  startsWith p (u +:+ String c z) = true -> startsWith p u = true.
Proof.
  induction p as [|x p IH]; intros u Hp H; [by destruct u|].
  simpl in Hp. apply andb_true_iff in Hp as [Hx Hp].
  destruct u as [|y u].
  - rewrite app_empty in H. simpl in H. apply andb_true_iff in H as [H _].
    by rewrite H in Hx.
  - rewrite app_cons in H. simpl in *.
    apply andb_true_iff in H as [-> H]. simpl. by apply IH.
Qed.

Lemma startsWith_line p w tail j :
  p <> "" -> every (fun a => negb (isLineFeed a)) p = true ->
  includes p w = false -> lineEnd tail -> j <= String.length w ->
  startsWith p (drop j (w +:+ tail)) = false.
Proof.
  intros Hne Hp Hw Hend Hj. rewrite drop_app_le by done.
  pose proof (includes_drop p w j Hw) as Hu.
  destruct tail as [|c z].
  - by rewrite app_empty_r.
  - simpl in Hend. subst c. apply not_true_is_false. intros H.
    apply startsWith_behind in H; [congruence|done].
Qed.

(** A text in which a word does not occur, and behind it the first
    character of the word, which the word holds once: the word begins
    nowhere in that text. *)
Lemma startsWith_ahead x l w z j :
  every (fun a => negb (Ascii.eqb a x)) l = true ->
  includes (String x l) w = false -> j < String.length w ->
  startsWith (String x l) (drop j (w +:+ String x z)) = false.
Proof.
  intros Hl Hw Hj. rewrite drop_app_le by lia.
  pose proof (includes_drop _ w j Hw) as Hu.
  destruct (drop j w) as [|y u] eqn:E.
  { apply (f_equal String.length) in E. rewrite length_drop in E. simpl in E. lia. }
  rewrite app_cons. apply not_true_is_false. intros H.
  cbn [startsWith] in H, Hu. apply andb_true_iff in H as [Hy H].
  rewrite Hy in Hu. simpl in Hu.
  apply startsWith_behind in H; [congruence|done].
Qed.

Lemma startsWith_app_r p : forall u x,
  startsWith p u = true -> startsWith p (u +:+ x) = true.
Proof.
  induction p as [|a p IH]; intros u x; [done|].
  destruct u as [|b u]; [done|]. rewrite app_cons. simpl.
  intros [-> H]%andb_true_iff. by apply IH.
Qed.

(** A word that does not occur in a text does not occur in what the
    text begins with. *)
Lemma includes_app_l p : forall w x,
  p <> "" -> includes p (w +:+ x) = false -> includes p w = false.
Proof.
  induction w as [|a w IH]; intros x Hp H.
  - by destruct p.
  - rewrite app_cons in H. cbn [includes] in *.
    apply orb_false_iff in H as [Hhead Htail]. apply orb_false_iff. split.
    + apply not_true_is_false. intros Hw.
      apply (startsWith_app_r _ _ x) in Hw. rewrite app_cons in Hw. congruence.
    + by apply (IH x).
Qed.

Lemma stops_afterLine ls : stops (afterLine ls) = true.
Proof. destruct ls; [done|]. unfold afterLine, nl. by rewrite app_cons. Qed.

Lemma stops_app z t : stops z = true -> stops t = true -> stops (z +:+ t) = true.
Proof. destruct z as [|a z]; [by rewrite app_empty|]. by rewrite app_cons. Qed.

(** *** The headings of [h2Regex] *)

Lemma matchAt_h2_none pos s :
  startsWith "##" s = false -> matchAt h2Regex pos s = None.
Proof. intros H. unfold matchAt, h2Regex. rewrite run_seq. by apply run_lit_none. Qed.

Lemma matchAt_heading pos h tail :
  visibleHead h = true -> every (fun c => negb (isLineFeed c)) h = true ->
  lineEnd tail ->
  matchAt h2Regex pos ("## " +:+ h +:+ tail)
  = Some (Found pos (pos + String.length ("## " +:+ h)) ("## " +:+ h)
            (<[1 := h]> ∅)).
Proof.
  intros Hvis Hall Hend. unfold matchAt, h2Regex.
  change ("## " +:+ h +:+ tail) with ("##" +:+ " " +:+ h +:+ tail).
  rewrite run_seq, run_lit_app. rewrite run_seq. unfold ws1.
  apply run_plus_cls; [done|by vm_compute| |].
  { apply headOut_visible; [|done]. intros a Ha. by rewrite spaces_spec. }
  rewrite run_grp. apply run_plus_cls.
  - by apply visibleHead_nonempty.
  - by rewrite (every_ext _ _ _ notLineFeed_spec).
  - by apply headOut_lineEnd.
  - rewrite take_here by done. rewrite length_app. simpl String.length.
    replace (pos + 2 + 1 + String.length h - pos) with (String.length ("## " +:+ h))
      by (rewrite length_app; simpl; lia).
    replace ("##" +:+ " " +:+ h +:+ tail) with (("## " +:+ h) +:+ tail)
      by (by rewrite app_assoc).
    rewrite take_app_length. do 2 f_equal. lia.
Qed.

(** The heading without its marks, as the source takes it. *)
Lemma replaceFirst_h2Prefix h :
  visibleHead h = true -> replaceFirst h2Prefix "" ("## " +:+ h) = h.
Proof.
  intros Hvis. unfold replaceFirst.
  assert (matchAt h2Prefix 0 ("## " +:+ h) = Some (Found 0 3 "## " ∅)) as Hm.
  { unfold matchAt, h2Prefix.
    change ("## " +:+ h) with ("##" +:+ " " +:+ h).
    rewrite run_seq. change (run found Bos 0 ?s ?c ?k) with (k 0 s c). cbv beta.
    rewrite run_seq, run_lit_app. unfold ws1.
    apply run_plus_cls; [done|by vm_compute| |].
    - rewrite <-(app_empty_r h). apply headOut_visible; [|done].
      intros a Ha. by rewrite spaces_spec.
    - by simpl. }
  rewrite (search_hit _ _ _ _ Hm). cbn [splice index last expand].
  unfold substring. rewrite !app_cons, !app_empty. by simpl.
Qed.

End HeadingFacts.

Module ScanLines.
Import Js JsFacts Regex RegexFacts ScanFacts Rewrite RewriteFacts Gemini
  SlugFacts TextFacts PromptFacts EngineFacts Markdown TokenFacts MatchFacts
  PlaceholderFacts HeadingFacts.

(** *** Going over what does not match *)

Lemma scanFrom_skip_many r f : forall w t pos,
  (forall j, j < String.length w -> matchAt r (pos + j) (drop j (w +:+ t)) = None) ->
  scanFrom r (S f) pos (w +:+ t) = scanFrom r (S f) (pos + String.length w) t.
Proof.
  induction w as [|a w IH]; intros t pos H.
  - rewrite app_empty. simpl. by rewrite Nat.add_0_r.
  - rewrite app_cons. rewrite scanFrom_skip.
    + rewrite IH.
      * by replace (pos + String.length (String a w))
          with (S pos + String.length w) by (simpl; lia).
      * intros j Hj. specialize (H (S j)). rewrite app_cons in H. simpl in H.
        rewrite <-Nat.add_succ_comm in H. apply H. lia.
    + specialize (H 0). rewrite app_cons, Nat.add_0_r in H. apply H. simpl. lia.
Qed.

Lemma scanFrom_hit r f pos s m :
  matchAt r pos s = Some m -> index m < last m ->
  scanFrom r (S f) pos s
  = m :: scanFrom r f (last m) (drop (last m - pos) s).
Proof.
  intros Hm Hne. cbn [scanFrom]. rewrite (search_hit _ _ _ _ Hm).
  apply matchAt_spec in Hm as (n & Hn & Hi & Hl & _).
  destruct (last m =? index m) eqn:E; [apply Nat.eqb_eq in E; lia|].
  destruct (last m - pos <=? String.length s) eqn:E'; [done|].
  apply Nat.leb_gt in E'. lia.
Qed.

Lemma execLoopFrom_skip r f pos a t :
  matchAt r pos (String a t) = None ->
  execLoopFrom r (S f) pos (String a t) = execLoopFrom r (S f) (S pos) t.
Proof.
  intros H. cbn [execLoopFrom search]. rewrite H.
  destruct (search r (S pos) t) as [m|] eqn:E; [|done].
  apply search_spec in E as (j & _ & E).
  apply matchAt_spec in E as (n & _ & Hi & Hl & _).
  destruct (last m <=? index m); [done|].
  replace (last m - pos) with (S (last m - S pos)) by lia. done.
Qed.

Lemma execLoopFrom_skip_many r f : forall w t pos,
  (forall j, j < String.length w -> matchAt r (pos + j) (drop j (w +:+ t)) = None) ->
  execLoopFrom r (S f) pos (w +:+ t) = execLoopFrom r (S f) (pos + String.length w) t.
Proof.
  induction w as [|a w IH]; intros t pos H.
  - rewrite app_empty. simpl. by rewrite Nat.add_0_r.
  - rewrite app_cons. rewrite execLoopFrom_skip.
    + rewrite IH.
      * by replace (pos + String.length (String a w))
          with (S pos + String.length w) by (simpl; lia).
      * intros j Hj. specialize (H (S j)). rewrite app_cons in H. simpl in H.
        rewrite <-Nat.add_succ_comm in H. apply H. lia.
    + specialize (H 0). rewrite app_cons, Nat.add_0_r in H. apply H. simpl. lia.
Qed.

Lemma execLoopFrom_hit r f pos s m :
  matchAt r pos s = Some m -> index m < last m ->
  execLoopFrom r (S f) pos s
  = (cons m) <$> execLoopFrom r f (last m) (drop (last m - pos) s).
Proof.
  intros Hm Hne. cbn [execLoopFrom]. rewrite (search_hit _ _ _ _ Hm).
  destruct (last m <=? index m) eqn:E; [apply Nat.leb_le in E; lia|].
  by destruct (execLoopFrom r f (last m) (drop (last m - pos) s)).
Qed.

(** *** The headings of a document *)

Lemma last_cons {A : Type} (a d : A) l : List.last (a :: l) d = List.last l a.
Proof.
  revert a d. induction l as [|b l IH]; intros a d; [done|].
  change (List.last (a :: b :: l) d) with (List.last (b :: l) d).
  by rewrite !IH.
Qed.

Lemma lastHeading_headings ls :
  lastHeading ls = List.last (map Some (headings ls)) None.
Proof.
  unfold lastHeading. generalize (@None string) as acc.
  induction ls as [|l ls IH]; intros acc; [done|].
  destruct l as [t|h|b n a z]; cbn [fold_left]; rewrite IH; [done| |done].
  change (headings (Heading h :: ls)) with (h :: headings ls).
  cbn [map]. by rewrite last_cons.
Qed.

Lemma lastHeading_snoc prev l :
  lastHeading (prev ++ [l])
  = match l with Heading h => Some h | _ => lastHeading prev end.
Proof. unfold lastHeading. rewrite fold_left_app. by destruct l. Qed.

Lemma tidy_mark l :
  tidyLine l = true ->
  match l with
  | Heading h => visibleHead h = true
                 /\ every (fun c => negb (isLineFeed c)) h = true
  | _ => includes "##" (renderLine l) = false
  end.
Proof.
  destruct l as [t|h|b n a z]; cbn [tidyLine].
  - intros [_ H]%andb_true_iff. by apply negb_true_iff.
  - by intros [[? ?]%andb_true_iff _]%andb_true_iff.
  - intros [[_ H]%andb_true_iff _]%andb_true_iff. by apply negb_true_iff.
Qed.

(** The matches of [h2Regex] in tidy lines, and in a text without
    [##] behind them, are the headings of the lines. *)
Lemma scan_headings z : forall ls fuel pos,
  tidyLines ls = true -> includes "##" z = false ->
  String.length (renderLines ls +:+ z) < fuel ->
  map text (scanFrom h2Regex fuel pos (renderLines ls +:+ z))
  = map (fun h => "## " +:+ h) (headings ls).
Proof.
  induction ls as [|l ls IH]; intros fuel pos Htidy Hz Hfuel;
    (destruct fuel as [|f]; [lia|]).
  - cbn [renderLines fold_right]. rewrite app_empty.
    rewrite <-(app_empty_r z) at 1. rewrite scanFrom_skip_many.
    + cbn [scanFrom search]. by rewrite matchAt_h2_none.
    + intros j Hj. apply matchAt_h2_none. rewrite app_empty_r.
      by apply includes_drop.
  - unfold tidyLines in Htidy. cbn [forallb] in Htidy.
    apply andb_true_iff in Htidy as [Hl Hls].
    cbn [renderLines fold_right] in *. fold (renderLines ls) in *.
    rewrite !app_assoc in *.
    set (rest := renderLines ls +:+ z) in *.
    rewrite !length_app in Hfuel. simpl in Hfuel.
    assert (forall f' p, String.length rest < S f' ->
              map text (scanFrom h2Regex (S f') p (nl +:+ rest))
              = map (fun h => "## " +:+ h) (headings ls)) as Hnl.
    { intros f' p Hf'. unfold nl. rewrite app_cons, app_empty.
      rewrite scanFrom_skip by (by apply matchAt_h2_none).
      by apply IH. }
    pose proof (tidy_mark l Hl) as Hmark.
    assert (lineEnd (nl +:+ rest)) as Hend
      by (unfold nl; by rewrite app_cons).
    destruct l as [t|h|b n a y].
    + (* a text *)
      rewrite scanFrom_skip_many.
      * apply Hnl. lia.
      * intros j Hj. apply matchAt_h2_none.
        apply startsWith_line; [done|done|done|done|lia].
    + (* a heading *)
      destruct Hmark as [Hvis Hall].
      change (headings (Heading h :: ls)) with (h :: headings ls).
      cbn [renderLine] in *. rewrite length_app in Hfuel. simpl in Hfuel.
      rewrite app_assoc.
      rewrite (scanFrom_hit _ _ _ _ _ (matchAt_heading pos h _ Hvis Hall Hend));
        [|cbn [index last]; rewrite length_app; simpl; lia].
      cbn [index last text map]. f_equal.
      replace (pos + String.length ("## " +:+ h) - pos)
        with (String.length ("## " +:+ h)) by lia.
      rewrite <-app_assoc, drop_app_length.
      destruct f as [|f']; [lia|]. apply Hnl. lia.
    + (* a placeholder *)
      rewrite scanFrom_skip_many.
      * apply Hnl. lia.
      * intros j Hj. apply matchAt_h2_none.
        apply startsWith_line; [done|done|done|done|lia].
Qed.

Lemma tidy_headings prev :
  tidyLines prev = true -> Forall (fun h => visibleHead h = true) (headings prev).
Proof.
  induction prev as [|l prev IH]; intros Htidy; [constructor|].
  unfold tidyLines in *. cbn [forallb] in Htidy.
  apply andb_true_iff in Htidy as [Hl Hls].
  destruct l as [t|h|b n a z]; try by apply IH.
  change (headings (Heading h :: prev)) with (h :: headings prev).
  constructor; [|by apply IH]. by apply tidy_mark in Hl as [? _].
Qed.

Lemma last_heading_text hs : forall d e,
  Forall (fun h => visibleHead h = true) hs ->
  match d with
  | Some h => Some (replaceFirst h2Prefix "" h)
  | None => None
  end = e ->
  match List.last (map Some (map (fun h => "## " +:+ h) hs)) d with
  | Some h => Some (replaceFirst h2Prefix "" h)
  | None => None
  end = List.last (map Some hs) e.
Proof.
  induction hs as [|h hs IH]; intros d e Hvis Hde; [done|].
  inversion Hvis as [|? ? Hh Hhs]; subst. cbn [map]. rewrite !last_cons.
  apply IH; [done|]. by rewrite replaceFirst_h2Prefix.
Qed.

(** The nearest heading before a place that lies behind the lines
    [prev] and a text without [##]. *)
Lemma headingBefore_lines prev before rest :
  tidyLines prev = true -> includes "##" before = false ->
  headingBefore (renderLines prev +:+ before +:+ rest)
    (String.length (renderLines prev) + String.length before)
  = lastHeading prev.
Proof.
  intros Htidy Hb. unfold headingBefore, substring.
  rewrite drop_0, Nat.sub_0_r.
  rewrite <-app_assoc, <-length_app, take_app_length.
  unfold matchGlobal, scan.
  pose proof (scan_headings before prev
                (S (String.length (renderLines prev +:+ before))) 0 Htidy Hb
                ltac:(lia)) as Hscan.
  rewrite lastHeading_headings.
  destruct (scanFrom h2Regex _ 0 (renderLines prev +:+ before)) as [|m ms] eqn:E.
  - simpl in Hscan. by destruct (headings prev).
  - rewrite Hscan. apply last_heading_text; [by apply tidy_headings|done].
Qed.

End ScanLines.

Module DocumentFacts.
Import Js JsFacts Regex RegexFacts ScanFacts Rewrite RewriteFacts Gemini
  SlugFacts TextFacts PromptFacts EngineFacts Markdown TokenFacts MatchFacts
  PlaceholderFacts HeadingFacts ScanLines.

Lemma tidy_token l :
  tidyLine l = true ->
  match l with
  | Placeholder before _ _ after =>
      includes "[IMAGE_PROMPT_" before = false
      /\ includes "[IMAGE_PROMPT_" after = false
  | _ => includes "[IMAGE_PROMPT_" (renderLine l) = false
  end.
Proof.
  destruct l as [t|h|b n a z]; cbn [tidyLine].
  - intros [H _]%andb_true_iff. by apply negb_true_iff.
  - intros [_ H]%andb_true_iff. by apply negb_true_iff.
  - intros [[[[_ Hb]%andb_true_iff Hz]%andb_true_iff _]%andb_true_iff _]%andb_true_iff.
    split; by apply negb_true_iff.
Qed.

Lemma tidy_snoc prev l :
  tidyLines prev = true -> tidyLine l = true -> tidyLines (prev ++ [l]) = true.
Proof.
  intros Hp Hl. unfold tidyLines in *. rewrite forallb_app. simpl. by rewrite Hp, Hl.
Qed.

(** The loop of [extractImagePrompts] over the lines [ls] of a
    document whose lines before them are [prev]. *)
Lemma exec_lines : forall ls prev fuel,
  tidyLines prev = true -> tidy ls = true -> String.length (render ls) < fuel ->
  exists ms,
    execLoopFrom promptRegex fuel (String.length (renderLines prev)) (render ls)
    = Some ms
    /\ map (promptOfMatch (renderLines prev +:+ render ls)) ms
       = promptsFrom (lastHeading prev) ls.
Proof.
  induction ls as [|l ls IH]; intros prev fuel Hprev Htidy Hfuel;
    (destruct fuel as [|f]; [lia|]).
  { exists []. split; [|done]. cbn [render map join execLoopFrom search].
    by rewrite matchAt_promptRegex_none. }
  unfold tidy, tidyLines in Htidy. cbn [forallb unannotated] in Htidy.
  apply andb_true_iff in Htidy as [Hlines Hun].
  apply andb_true_iff in Hlines as [Hl Hls].
  apply andb_true_iff in Hun as [Hbare Hun].
  assert (tidy ls = true) as Htidy by (unfold tidy, tidyLines; by rewrite Hls, Hun).
  rewrite render_cons in *. rewrite length_app in Hfuel.
  set (pos := String.length (renderLines prev)) in *.
  set (w := renderLine l) in *.
  set (content := renderLines prev +:+ w +:+ afterLine ls).
  assert (forall f', String.length (afterLine ls) < S f' ->
            exists ms,
              execLoopFrom promptRegex (S f') (pos + String.length w) (afterLine ls)
              = Some ms
              /\ map (promptOfMatch content) ms
                 = promptsFrom (lastHeading (prev ++ [l])) ls) as Hafter.
  { intros f' Hf'. destruct ls as [|l' ls'].
    - exists []. split; [|done]. cbn [afterLine execLoopFrom search].
      by rewrite matchAt_promptRegex_none.
    - unfold afterLine in *. unfold nl in *. rewrite app_cons, app_empty in *.
      rewrite execLoopFrom_skip by (by apply matchAt_promptRegex_none).
      destruct (IH (prev ++ [l]) (S f') (tidy_snoc _ _ Hprev Hl) Htidy)
        as (ms & Hms & Hmap); [simpl in Hf'; lia|].
      exists ms. split.
      + rewrite <-Hms. f_equal. rewrite renderLines_snoc, !length_app.
        fold pos w. simpl. lia.
      + rewrite <-Hmap. f_equal. f_equal. subst content.
        rewrite renderLines_snoc. fold w. rewrite !app_assoc.
        unfold nl. by rewrite app_cons, app_empty. }
  pose proof (lineEnd_afterLine ls) as Hend.
  pose proof (tidy_token l Hl) as Htoken.
  pose proof (tidy_mark l Hl) as Hmark.
  rewrite (lastHeading_snoc prev l) in Hafter.
  destruct l as [t|h|b n a z].
  - (* a text *)
    rewrite execLoopFrom_skip_many.
    + apply Hafter. lia.
    + intros j Hj. apply matchAt_promptRegex_none.
      apply startsWith_line; [done|done|done|done|lia].
  - (* a heading *)
    rewrite execLoopFrom_skip_many.
    + apply Hafter. lia.
    + intros j Hj. apply matchAt_promptRegex_none.
      apply startsWith_line; [done|done|done|done|lia].
  - (* a placeholder *)
    destruct Htoken as [Hb Hz].
    cbn [tidyLine] in Hl.
    apply andb_true_iff in Hl as [Hl Hstops].
    apply andb_true_iff in Hl as [Hl _].
    apply andb_true_iff in Hl as [Hl _].
    apply andb_true_iff in Hl as [Hl _].
    apply andb_true_iff in Hl as [Hl Hann].
    apply andb_true_iff in Hl as [Hn Hdigits].
    set (mid := token n +:+ renderAnnotation a) in *.
    set (tail := z +:+ afterLine ls) in *.
    assert (w = b +:+ mid +:+ z) as Hw
      by (subst w mid; cbn [renderLine]; by rewrite !app_assoc).
    assert (w +:+ afterLine ls = b +:+ mid +:+ tail) as Hshape
      by (rewrite Hw; subst tail; by rewrite !app_assoc).
    assert (0 < String.length mid) as Hmid.
    { subst mid. unfold token. rewrite !length_app. simpl. lia. }
    assert (String.length w = String.length b + String.length mid + String.length z)
      as Hlen by (rewrite Hw, !length_app; lia).
    destruct (matchAt_placeholder (pos + String.length b) n a tail Hn Hdigits Hann)
      as (m & Hm & Hi & Hlast & Hnum & Hprompt).
    { destruct a as [|w1 w2 text|w1 w2 w3 text w4]; [|
|done].
      - by apply negb_true_iff.
      - subst tail. apply stops_app; [done|apply stops_afterLine]. }
    fold mid in Hm, Hlast. rewrite <-app_assoc in Hm.
    rewrite Hshape.
    (* the text before the token *)
    rewrite execLoopFrom_skip_many.
    2:{ intros j Hj. apply matchAt_promptRegex_none.
        assert (exists y, mid +:+ tail = String "[" y) as [y ->].
        { subst mid. unfold token. rewrite !app_assoc. by eexists. }
        by apply startsWith_ahead. }
    (* the token and its annotation *)
    rewrite (execLoopFrom_hit _ _ _ _ _ Hm) by lia.
    rewrite Hlast.
    replace (pos + String.length b + String.length mid - (pos + String.length b))
      with (String.length mid) by lia.
    rewrite drop_app_length.
    (* the text behind them *)
    destruct f as [|f']; [lia|].
    subst tail. rewrite execLoopFrom_skip_many.
    2:{ intros j Hj. apply matchAt_promptRegex_none.
        apply startsWith_line; [done|done|done|done|lia]. }
    replace (pos + String.length b + String.length mid + String.length z)
      with (pos + String.length w) by lia.
    destruct (Hafter f') as (ms & -> & Hmap); [lia|].
    exists (m :: ms). split; [done|]. cbn [map promptsFrom]. f_equal; [|done].
    unfold promptOfMatch. rewrite Hnum, Hprompt, Hi. cbn [default].
    unfold promptOf. destruct a as [|w1 w2 text|w1 w2 w3 text w4]; [|done|done].
    subst content pos. rewrite Hshape.
    rewrite headingBefore_lines; [done|done|].
    apply (includes_app_l _ _ (mid +:+ z)); [done|]. by rewrite <-Hw.
Qed.

(** The refinement: on a tidy document the prompts of the source are
    the prompts of the claim. *)
Lemma extractImagePrompts_lines ls :
  tidy ls = true -> extractImagePrompts (render ls) = Some (expectedPrompts ls).
Proof.
  intros Htidy. unfold extractImagePrompts, execLoop, expectedPrompts.
  destruct (exec_lines ls [] (S (String.length (render ls))) eq_refl Htidy)
    as (ms & Hms & Hmap); [lia|].
  cbn [renderLines fold_right String.length] in Hms, Hmap.
  rewrite app_empty in Hmap. rewrite Hms. cbn [fmap option_fmap option_map].
  f_equal. exact Hmap.
Qed.

End DocumentFacts.

(** ** Claim C4: placeholder extraction *)

Module C4.
Import Js JsFacts Regex Gemini Samples Markdown.

(** C4, as stated, fails: on the document of the specification, whose
    tokens are spelled [ASSET_PROMPT], [extractImagePrompts] finds no
    placeholder at all. *)
Lemma C4_counterexample :
  map prompt <$> extractImagePrompts specBody = Some []
  /\ map prompt <$> extractImagePrompts specBody
       <> Some ["Illustration for: A"; "custom prompt"].
Proof. split; by vm_compute. Qed.

(** C4, amended: for a document of tidy lines (texts without
    placeholder and without [##]; heading lines [## h]; placeholders
    [[IMAGE_PROMPT_n]] with text before and after them, followed by
    nothing, by [: text] up to the end of the line or by
    [<!-- Image: text -->] whose text has no hyphen)
    [extractImagePrompts] returns one entry for every placeholder, in
    the order of the document: its prompt is the text of the
    annotation when there is one, otherwise ["Illustration for: "] and
    the nearest heading before it, otherwise ["Blog section
    illustration n"].  On the document
    ["## A\n[IMAGE_PROMPT_1]\n## B\n[IMAGE_PROMPT_2]: custom prompt"]
    the prompts are ["Illustration for: A"] and ["custom prompt"]. *)
Theorem C4_extractImagePrompts ls :
  tidy ls = true ->
  extractImagePrompts (render ls) = Some (expectedPrompts ls)
  /\ extractImagePrompts imageBody
     = Some [ {| prompt := "Illustration for: A"; placeholder := "[IMAGE_PROMPT_1]" |};
              {| prompt := "custom prompt"; placeholder := "[IMAGE_PROMPT_2]" |} ].
Proof.
  intros Htidy. split; [by apply DocumentFacts.extractImagePrompts_lines|].
  by vm_compute.
Qed.

(** C4 at work: the document of the claim, line by line, and a
    document with placeholders inside its sentences, one of them with
    a comment. *)
Lemma C4_witness :
  tidy [Heading "A"; Placeholder "" "1" Bare ""; Heading "B";
        Placeholder "" "2" (Colon "" " " "custom prompt") ""] = true
  /\ render [Heading "A"; Placeholder "" "1" Bare ""; Heading "B";
             Placeholder "" "2" (Colon "" " " "custom prompt") ""] = imageBody
  /\ extractImagePrompts imageBody
     = Some (expectedPrompts
               [Heading "A"; Placeholder "" "1" Bare ""; Heading "B";
                Placeholder "" "2" (Colon "" " " "custom prompt") ""])
  /\ render [Placeholder "" "7" Bare ""; Text "Intro: a fox."; Heading "A";
             Placeholder "See " "1" (Comment " " " " " " "a red fox" " ") " here.";
             Text ""; Placeholder "And " "2" Bare " below."]
     = "[IMAGE_PROMPT_7]" +:+ nl +:+ "Intro: a fox." +:+ nl +:+ "## A" +:+ nl
       +:+ "See [IMAGE_PROMPT_1] <!-- Image: a red fox --> here." +:+ nl +:+ nl
       +:+ "And [IMAGE_PROMPT_2] below."
  /\ extractImagePrompts
       (render [Placeholder "" "7" Bare ""; Text "Intro: a fox."; Heading "A";
                Placeholder "See " "1" (Comment " " " " " " "a red fox" " ") " here.";
                Text ""; Placeholder "And " "2" Bare " below."])
     = Some [ {| prompt := "Blog section illustration 7";
                 placeholder := "[IMAGE_PROMPT_7]" |};
              {| prompt := "a red fox"; placeholder := "[IMAGE_PROMPT_1]" |};
              {| prompt := "Illustration for: A";
                 placeholder := "[IMAGE_PROMPT_2]" |} ].
Proof.
  split_and!; [by vm_compute|by vm_compute| |by vm_compute|].
  - exact (proj1 (C4_extractImagePrompts
             [Heading "A"; Placeholder "" "1" Bare ""; Heading "B";
              Placeholder "" "2" (Colon "" " " "custom prompt") ""] eq_refl)).
  - exact (proj1 (C4_extractImagePrompts
             [Placeholder "" "7" Bare ""; Text "Intro: a fox."; Heading "A";
              Placeholder "See " "1" (Comment " " " " " " "a red fox" " ") " here.";
              Text ""; Placeholder "And " "2" Bare " below."] eq_refl)).
Defined.

End C4.

(** ** Runs of the pipeline, as their callers see them *)

Module RunFacts.
Import Js JsFacts Supabase Gemini Pipeline EffectFacts PipelineFacts
  PipelineRun Stream Articles.

Section Run.
Variable env : Env.
Variable topic : string.
Variable author : option string.

(** *** What does not depend on the database *)

Lemma store_keeps (P : St -> Prop) c g :
  (forall st, P st -> P (withDb g st)) -> keeps P (store env c g).
Proof.
  intros HP st o st' Hst H. unfold store in H.
  destruct (storeError env c); injection H as _ <-; [done|by apply HP].
Qed.

Lemma updateArticle_keeps (P : St -> Prop) c i us :
  (forall st a, P st -> P (withDb (withArticles (fun m => <[i := a]> m)) st)) ->
  keeps P (updateArticle env c i us).
Proof.
  intros HP st o st' Hst H.
  unfold updateArticle, store, bind, gets, ret, throw in H. simpl in H.
  destruct (articles (db st) !! i); destruct (storeError env c);
    simplify_eq; try done; by apply HP.
Qed.

Lemma ask_keeps {A : Type} (P : St -> Prop) c (answer : outcome A) :
  (forall st, P st ->
     P {| db := db st; emitted := emitted st; asked := asked st ++ [c];
          result := result st; content := content st |}) ->
  keeps P (ask c answer).
Proof. intros HP st o st' Hst [= <- <-]. by apply HP. Qed.

(** *** The events of a run *)

Abbreviation itsEvents := (itsEvents topic).

Ltac events_prim :=
  first
    [ solve [apply updateArticle_keeps; by intros ? ?]
    | solve [apply store_keeps; by intros ?]
    | solve [apply ask_keeps; by intros ?]
    | solve [intros ? ? ? ? [= <- <-]; done]
    | solve [intros ? ? ? ? [= <- <-]; unfold itsEvents in *; simpl;
             apply Forall_app; split; [done|by apply Forall_singleton]] ].

Lemma processImages_events i ps : forall n,
  keeps itsEvents (processImages env i n ps).
Proof.
  induction ps as [|p ps IH]; intros n; simpl; [apply keeps_ret|].
  apply keeps_bind; [|intros _; apply IH].
  unfold processImage, createArticleImage, uploadImage, updateImageUrl,
    setContent.
  repeat keeps_step; events_prim.
Qed.

Lemma executePipelineM_events :
  keeps itsEvents (executePipelineM env topic author).
Proof.
  unfold executePipelineM, pipelineBody, pipelineFailed, createArticle,
    categoryStage, seoStage, writingStage, humanizingStage, visualStage,
    interactiveStage, finalReviewStage, thumbnail, uploadImage,
    createComponent, setArticle, pushError, stageDone, setContent, emit.
  repeat keeps_step; try events_prim; apply processImages_events.
Qed.

(** *** Properties that no step undoes *)

Section Stable.
Variable P : St -> Prop.
Hypothesis HP : stable P.

Lemma stable_store c g : keeps P (store env c g).
Proof using HP. apply store_keeps. intros st. apply (on_db P HP). Qed.

Lemma stable_updateArticle c i us : keeps P (updateArticle env c i us).
Proof using HP. apply updateArticle_keeps. intros st a. apply (on_db P HP). Qed.

Lemma stable_ask {A : Type} c (answer : outcome A) : keeps P (ask c answer).
Proof using HP. apply ask_keeps. intros st. apply (on_ask P HP). Qed.

Lemma stable_emit stage msg : keeps P (Pipeline.emit topic stage msg).
Proof using HP. intros st o st' Hst [= <- <-]. by apply (on_emit P HP). Qed.

Lemma stable_pushError e : keeps P (pushError e).
Proof using HP. intros st o st' Hst [= <- <-]. by apply (on_error P HP). Qed.

Lemma stable_stageDone g : keeps P (stageDone g).
Proof using HP. intros st o st' Hst [= <- <-]. by apply (on_stage P HP). Qed.

Lemma stable_setArticle a : keeps P (setArticle a).
Proof using HP. intros st o st' Hst [= <- <-]. by apply (on_article P HP). Qed.

Lemma stable_setContent c : keeps P (setContent c).
Proof using HP. intros st o st' Hst [= <- <-]. by apply (on_content P HP). Qed.

Ltac stable_prim :=
  first
    [ apply stable_store | apply stable_updateArticle | apply stable_ask
    | apply stable_emit | apply stable_pushError | apply stable_stageDone
    | apply stable_setArticle | apply stable_setContent ].

Ltac stable_tac := repeat keeps_step; stable_prim.

Lemma stable_processImages i ps : forall n,
  keeps P (processImages env i n ps).
Proof using HP.
  induction ps as [|p ps IH]; intros n; simpl; [apply keeps_ret|].
  apply keeps_bind; [|intros _; apply IH].
  unfold processImage, createArticleImage, uploadImage, updateImageUrl.
  stable_tac.
Qed.

Lemma stable_slugStep : keeps P (slugStep env topic).
Proof using HP. unfold slugStep. stable_tac. Qed.

Lemma stable_createArticle : keeps P (createArticle env topic author).
Proof using HP. unfold createArticle. stable_tac. Qed.

Lemma stable_categoryStage i : keeps P (categoryStage env i).
Proof using HP. unfold categoryStage. stable_tac. Qed.

Lemma stable_seoStage i : keeps P (seoStage env topic i).
Proof using HP. unfold seoStage. stable_tac. Qed.

Lemma stable_writingStage i seo : keeps P (writingStage env topic i seo).
Proof using HP. unfold writingStage. stable_tac. Qed.

Lemma stable_humanizingStage i : keeps P (humanizingStage env topic i).
Proof using HP. unfold humanizingStage. stable_tac. Qed.

Lemma stable_visualStage i : keeps P (visualStage env topic i).
Proof using HP.
  unfold visualStage, thumbnail, uploadImage.
  repeat keeps_step; try stable_prim. apply stable_processImages.
Qed.

Lemma stable_interactiveStage i : keeps P (interactiveStage env topic i).
Proof using HP. unfold interactiveStage, createComponent. stable_tac. Qed.

Lemma stable_finalReviewStage i : keeps P (finalReviewStage env topic i).
Proof using HP. unfold finalReviewStage. stable_tac. Qed.

End Stable.

Lemma stable_dirty : stable dirty.
Proof.
  split; unfold dirty; simpl; try done.
  intros st e _ H. by apply app_eq_nil in H as [_ ?].
Qed.

Lemma stable_flagOn g : stable (flagOn g).
Proof.
  split; unfold flagOn; simpl; try done.
  intros st h. by destruct g, h, (stages (result st)).
Qed.

(** *** What a stage that returns has done *)

Lemma returns_skip {A B : Type} (P : St -> Prop) (Q : B -> St -> Prop)
    (m : M A) (f : A -> M B) :
  (forall a, returns (fun _ => True) (f a) Q) -> returns P (bind m f) Q.
Proof.
  intros Hf st b st' _ H. apply bind_ok in H as (a & st1 & _ & H).
  by eapply Hf.
Qed.

Lemma returns_then {A B : Type} (P R : St -> Prop) (Q : B -> St -> Prop)
    (m : M A) (f : A -> M B) :
  returns P m (fun _ => R) -> (forall a, returns R (f a) Q) ->
  returns P (bind m f) Q.
Proof.
  intros Hm Hf st b st' HP H. apply bind_ok in H as (a & st1 & H1 & H).
  eapply Hf; [|exact H]. by eapply Hm.
Qed.

Lemma returns_keeps {A : Type} (P : St -> Prop) (m : M A) :
  keeps P m -> returns P m (fun _ => P).
Proof. intros Hm st a st' HP H. by eapply Hm. Qed.

Lemma returns_stageDone g :
  returns (fun _ => True) (stageDone g) (fun _ => flagOn g).
Proof.
  intros st a st' _ H. unfold stageDone, modify in H. injection H as _ <-.
  unfold flagOn. simpl. by destruct g, (stages (result st)).
Qed.

(** A [try] whose handler records an error: when it returns with
    no error recorded, its body has returned. *)
Lemma returns_try {A : Type} (Q : St -> Prop) (body : M A)
    (h : JsError -> M A) :
  returns (fun _ => True) body (fun _ => Q) ->
  (forall e, returns (fun _ => True) (h e) (fun _ => dirty)) ->
  returns (fun _ => True) (tryCatch body h) (fun _ st => clean st -> Q st).
Proof.
  intros Hb Hh st a st' _ H Hclean.
  apply tryCatch_inv in H as [(e & st1 & _ & H)|[H _]].
  - exfalso. by eapply (Hh e st1 a st' I H).
  - by eapply Hb.
Qed.

Lemma returns_hang {A : Type} (P : St -> Prop) (Q : A -> St -> Prop) :
  returns P hang Q.
Proof. by intros st a st' _ H. Qed.

Lemma returns_throw {A : Type} (P : St -> Prop) (Q : A -> St -> Prop) e :
  returns P (throw e) Q.
Proof. by intros st a st' _ H. Qed.

Lemma returns_pushError e :
  returns (fun _ => True) (pushError e) (fun _ => dirty).
Proof.
  intros st a st' _ H. unfold pushError, modify in H. injection H as _ <-.
  unfold dirty. simpl. intros Hnil. by apply app_eq_nil in Hnil as [_ ?].
Qed.

Ltac done_step :=
  lazymatch goal with
  | |- returns _ (bind (stageDone ?g) _) _ =>
      apply (returns_then _ (flagOn g));
        [apply returns_stageDone
        |intros ?; apply returns_keeps;
         first [apply keeps_ret
               |apply (stable_setContent _ (stable_flagOn g))]]
  | |- returns _ (stageDone ?g) _ => apply returns_stageDone
  | |- returns _ (bind (pushError ?e) _) _ =>
      apply (returns_then _ dirty);
        [apply returns_pushError
        |intros ?; first [apply returns_keeps; apply keeps_ret
                         |apply returns_throw]]
  | |- returns _ (pushError ?e) _ => apply returns_pushError
  | |- returns _ (bind _ _) _ => apply returns_skip; intros ?
  | |- returns _ (match ?x with _ => _ end) _ => destruct x
  | |- returns _ hang _ => apply returns_hang
  end.

Ltac done_tac := apply returns_try; [|intros ?]; repeat done_step.

Lemma seoStage_done i :
  returns (fun _ => True) (seoStage env topic i)
    (fun _ st => clean st -> flagOn SeoResearch st).
Proof. unfold seoStage. apply returns_skip. intros _. done_tac. Qed.

Lemma writingStage_done i seo :
  returns (fun _ => True) (writingStage env topic i seo)
    (fun _ st => clean st -> flagOn Writing st).
Proof. unfold writingStage. apply returns_skip. intros _. done_tac. Qed.

Lemma humanizingStage_done i :
  returns (fun _ => True) (humanizingStage env topic i)
    (fun _ st => clean st -> flagOn Humanizing st).
Proof. unfold humanizingStage. apply returns_skip. intros _. done_tac. Qed.

Lemma visualStage_done i :
  returns (fun _ => True) (visualStage env topic i)
    (fun _ st => clean st -> flagOn VisualGeneration st).
Proof. unfold visualStage. done_tac. Qed.

Lemma interactiveStage_done i :
  returns (fun _ => True) (interactiveStage env topic i)
    (fun _ st => clean st -> flagOn Interactive st).
Proof. unfold interactiveStage. apply returns_skip. intros _. done_tac. Qed.

Lemma finalReviewStage_done i :
  returns (fun _ => True) (finalReviewStage env topic i)
    (fun _ st => clean st -> flagOn FinalReview st).
Proof. unfold finalReviewStage. apply returns_skip. intros _. done_tac. Qed.

Lemma stable_doneSoFar gs : stable (doneSoFar gs).
Proof.
  split; unfold doneSoFar, clean, flagOn; simpl; try done.
  - intros st e _ H. by apply app_eq_nil in H as [_ ?].
  - intros st g H Hclean. specialize (H Hclean).
    eapply Forall_impl; [exact H|]. intros h. simpl.
    by destruct g, h, (stages (result st)).
Qed.

(** A stage that sets its flag unless it records an error. *)
Lemma doneSoFar_add {A : Type} gs g (m : M A) :
  keeps (doneSoFar gs) m ->
  returns (fun _ => True) m (fun _ st => clean st -> flagOn g st) ->
  returns (doneSoFar gs) m (fun _ => doneSoFar (g :: gs)).
Proof.
  intros Hk Hr st a st' Hd H Hclean. constructor.
  - by eapply Hr.
  - by eapply (Hk st (Ok a) st' Hd H).
Qed.

(** The body of the outer [try], when it returns: every stage has
    set its flag, unless an error is recorded. *)
Lemma pipelineBody_done :
  returns (doneSoFar []) (pipelineBody env topic author)
    (fun _ => doneSoFar
       [FinalReview; Interactive; VisualGeneration; Humanizing; Writing;
        SeoResearch]).
Proof.
  unfold pipelineBody.
  pose proof (fun gs => stable_doneSoFar gs) as Hs.
  eapply returns_then;
    [apply returns_keeps, stable_emit, Hs|intros _].
  eapply returns_then;
    [apply returns_keeps, (stable_slugStep _ (Hs [])) |intros _].
  eapply returns_then;
    [apply returns_keeps, stable_createArticle, Hs|intros a].
  eapply returns_then;
    [apply returns_keeps, stable_setArticle, Hs|intros _].
  cbv zeta.
  eapply returns_then;
    [apply returns_keeps, stable_categoryStage, Hs|intros _].
  eapply returns_then;
    [apply doneSoFar_add; [apply stable_seoStage, Hs|apply seoStage_done]
    |intros seo].
  eapply returns_then;
    [apply doneSoFar_add; [apply stable_writingStage, Hs|apply writingStage_done]
    |intros _].
  eapply returns_then;
    [apply doneSoFar_add;
       [apply stable_humanizingStage, Hs|apply humanizingStage_done]
    |intros _].
  eapply returns_then;
    [apply doneSoFar_add; [apply stable_visualStage, Hs|apply visualStage_done]
    |intros _].
  eapply returns_then;
    [apply doneSoFar_add;
       [apply stable_interactiveStage, Hs|apply interactiveStage_done]
    |intros _].
  eapply returns_then;
    [apply doneSoFar_add;
       [apply stable_finalReviewStage, Hs|apply finalReviewStage_done]
    |intros _].
  eapply returns_then;
    [apply returns_keeps, stable_updateArticle, Hs|intros a'].
  eapply returns_then;
    [apply returns_keeps, stable_setArticle, Hs|intros _].
  apply returns_keeps, stable_emit, Hs.
Qed.

(** The outer [catch] records an error. *)
Lemma pipelineFailed_dirty e :
  returns (fun _ => True) (pipelineFailed env e) (fun _ => dirty).
Proof. unfold pipelineFailed. repeat done_step. Qed.

(** *** The image rows of a run *)

Lemma placed_setStorageUrl img url l :
  map placed (map (setStorageUrl img url) l) = map placed l.
Proof.
  induction l as [|r l IH]; simpl; [done|]. rewrite IH. f_equal.
  unfold setStorageUrl. by destruct (String.eqb _ _).
Qed.

Ltac places_prim :=
  first
    [ solve [apply updateArticle_keeps; by intros ? ?]
    | solve [apply store_keeps; intros ?; unfold placesAre; simpl;
             by rewrite ?placed_setStorageUrl]
    | solve [apply ask_keeps; by intros ?]
    | solve [intros ? ? ? ? [= <- <-]; done] ].

Ltac places_tac := repeat keeps_step; places_prim.

Lemma carries_keeps {A : Type} (P : St -> Prop) (m : M A) :
  keeps P m -> carries P m P.
Proof. done. Qed.

Lemma carries_post {A : Type} (P P1 P2 : St -> Prop) (m : M A) :
  carries P m P1 -> (forall st, P1 st -> P2 st) -> carries P m P2.
Proof. intros Hm H12 st o st' HP H. apply H12. by eapply Hm. Qed.

Lemma carries_bind {A B : Type} (P P1 P2 : St -> Prop) (m : M A)
    (f : A -> M B) :
  carries P m P1 -> (forall st, P1 st -> P2 st) ->
  (forall a, carries P1 (f a) P2) -> carries P (bind m f) P2.
Proof.
  intros Hm H12 Hf st o st' HP H.
  apply bind_inv in H as [(a & st1 & H1 & H2)|[(e & H1 & _)|[H1 _]]].
  - eapply Hf; [|exact H2]. by eapply Hm.
  - apply H12. by eapply Hm.
  - apply H12. by eapply Hm.
Qed.

Lemma carries_try {A : Type} (P P1 P2 : St -> Prop) (body : M A)
    (h : JsError -> M A) :
  carries P body P1 -> (forall st, P1 st -> P2 st) ->
  (forall e, carries P1 (h e) P2) -> carries P (tryCatch body h) P2.
Proof.
  intros Hb H12 Hh st o st' HP H.
  apply tryCatch_inv in H as [(e & st1 & H1 & H2)|[H1 _]].
  - eapply Hh; [|exact H2]. by eapply Hb.
  - apply H12. by eapply Hb.
Qed.

(** What keeps the places, whatever they are, keeps their growth. *)
Lemma keeps_grown {A : Type} l i n b (m : M A) :
  (forall l', keeps (placesAre l') m) -> keeps (placesGrown l i n b) m.
Proof.
  intros Hm st o st' (k & Hk & Hl) H. exists k. split; [done|].
  by eapply (Hm _ st o st' Hl H).
Qed.

Lemma grown_more l i n b b' st :
  b <= b' -> placesGrown l i n b st -> placesGrown l i n b' st.
Proof. intros Hb (k & Hk & Hl). exists k. split; [lia|done]. Qed.

Lemma grown_none l i n b st : placesAre l st -> placesGrown l i n b st.
Proof. intros Hl. exists 0. split; [lia|]. simpl. by rewrite app_nil_r. Qed.

(** One turn of the loop: a row for position [n] is added, unless
    the insertion fails. *)
Lemma processImage_places i n p l st o st' :
  placesAre l st ->
  processImage env i n p st = (o, st') ->
  match o with
  | Ok _ => placesAre (l ++ [(i, n)]) st'
  | _ => placesGrown l i n 1 st'
  end.
Proof.
  intros Hl H. unfold processImage in H.
  apply bind_inv in H as [(r & st1 & Hc & H)|[(e & Hc & ->)|[Hc ->]]].
  - assert (placesAre (l ++ [(i, n)]) st1) as Hl1.
    { unfold createArticleImage, store, bind, ret in Hc.
      destruct (storeError env (CreateArticleImage n)); simplify_eq.
      unfold placesAre in *. simpl. by rewrite map_app, Hl. }
    assert (placesAre (l ++ [(i, n)]) st') as Hl'.
    { revert Hl1 H. generalize st1 o st'.
      change (keeps (placesAre (l ++ [(i, n)]))
        (tryCatch
           (imageBuffer <- ask (AskImage n) (Ok (generateImage env n)) ;;
            match imageBuffer with
            | Some buffer =>
                imageUrl <- uploadImage env (UploadImage n) i buffer
                              ("image-" +:+ ofNat n +:+ ".png") ;;
                updateImageUrl env n (image_id r) imageUrl ;;
                altTag <- ask (AskAltTags n) (Ok (generateAltTags env n)) ;;
                let imageMarkdown :=
                  nl +:+ nl +:+ "![" +:+ altTag +:+ "](" +:+ imageUrl +:+ ")"
                  +:+ nl +:+ nl in
                c <- gets content ;;
                setContent
                  (Regex.replaceAll (fullPlaceholderRegex (placeholder p))
                     imageMarkdown c)
            | None => ret tt
            end)
           (fun _ => ret tt))).
      unfold uploadImage, updateImageUrl. places_tac. }
    destruct o; [done| |]; exists 1; (split; [lia|done]).
  - apply grown_none.
    unfold createArticleImage, store, bind, ret in Hc.
    by destruct (storeError env (CreateArticleImage n)); simplify_eq.
  - unfold createArticleImage, store, bind, ret in Hc.
    by destruct (storeError env (CreateArticleImage n)); simplify_eq.
Qed.

Lemma processImages_places i ps : forall n l,
  carries (placesAre l) (processImages env i n ps)
    (placesGrown l i n (length ps)).
Proof.
  induction ps as [|p ps IH]; intros n l st o st' Hl H; simpl in H.
  - injection H as _ <-. by apply grown_none.
  - apply bind_inv in H as [(u & st1 & H1 & H)|[(e & H1 & _)|[H1 _]]].
    + apply (processImage_places _ _ _ _ _ _ _ Hl) in H1.
      destruct (IH _ _ _ _ _ H1 H) as (k & Hk & Hk').
      exists (S k). split; [simpl; lia|].
      rewrite Hk', <-app_assoc. done.
    + apply (processImage_places _ _ _ _ _ _ _ Hl) in H1.
      eapply grown_more; [|exact H1]. simpl. lia.
    + apply (processImage_places _ _ _ _ _ _ _ Hl) in H1.
      eapply grown_more; [|exact H1]. simpl. lia.
Qed.

Lemma visualStage_places i l :
  carries (placesAre l) (visualStage env topic i) (placesGrown l i 1 3).
Proof.
  unfold visualStage.
  apply (carries_try _ (placesGrown l i 1 3)); [|done|].
  2:{ intros e. apply carries_keeps, keeps_grown. intros l'. places_tac. }
  apply (carries_bind _ (placesAre l)); [|apply grown_none|intros _].
  { apply carries_keeps. unfold thumbnail, uploadImage. places_tac. }
  apply (carries_bind _ (placesAre l)); [|apply grown_none|intros _].
  { apply carries_keeps. places_tac. }
  apply (carries_bind _ (placesAre l)); [|apply grown_none|intros c].
  { apply carries_keeps. places_tac. }
  destruct (extractImagePrompts c) as [ps|].
  2:{ eapply carries_post; [apply carries_keeps, keeps_hang|apply grown_none]. }
  apply (carries_bind _ (placesGrown l i 1 3)); [|done|intros _].
  { eapply carries_post; [apply processImages_places|].
    intros st. apply grown_more. rewrite list.length_take. lia. }
  apply carries_keeps, keeps_grown. intros l'. places_tac.
Qed.

(** *** Where a run can throw *)

Lemma raises_noThrow {A : Type} (P R : St -> Prop) (m : M A) :
  noThrow m -> raises P m R.
Proof. intros Hm st e st' _ H. exfalso. by eapply noThrow_elim. Qed.

Lemma raises_keeps {A : Type} (P R : St -> Prop) (m : M A) :
  keeps P m -> (forall st, P st -> R st) -> raises P m R.
Proof. intros Hm HPR st e st' HP H. apply HPR. by eapply Hm. Qed.

(** A step that keeps [P], and then a continuation. *)
Lemma raises_bind {A B : Type} (P R : St -> Prop) (m : M A) (f : A -> M B) :
  keeps P m -> (forall st, P st -> R st) ->
  (forall a, raises P (f a) R) -> raises P (bind m f) R.
Proof.
  intros Hm HPR Hf st e st' HP H.
  apply bind_inv in H as [(a & st1 & H1 & H2)|[(e' & H1 & _)|[_ ?]]]; [| |done].
  - eapply Hf; [|exact H2]. by eapply Hm.
  - apply HPR. by eapply Hm.
Qed.

(** A step that establishes [Q], and then a continuation. *)
Lemma raises_bind_returns {A B : Type} (P R : St -> Prop) (Q : A -> St -> Prop)
    (m : M A) (f : A -> M B) :
  returns P m Q -> raises P m R ->
  (forall a, raises (Q a) (f a) R) -> raises P (bind m f) R.
Proof.
  intros Hm Hr Hf st e st' HP H.
  apply bind_inv in H as [(a & st1 & H1 & H2)|[(e' & H1 & [= <-])|[_ ?]]];
    [| |done].
  - eapply Hf; [|exact H2]. by eapply Hm.
  - by eapply Hr.
Qed.

Abbreviation a0 := (createdRecord env topic author).

(** When the body of the outer [try] throws, [result] holds no
    record or the record as it was created. *)
Lemma pipelineBody_raises :
  raises noArticle (pipelineBody env topic author)
    (fun st => noArticle st \/ hasArticle a0 st).
Proof.
  unfold pipelineBody.
  apply raises_bind; [solve [unfold noArticle; prim]|by left|intros _].
  apply raises_bind; [apply slugStep_noArticle|by left|intros _].
  apply (raises_bind_returns _ _ (fun a st => a = a0 /\ noArticle st)).
  { intros st a st' Hn H. unfold createArticle, store, bind, ret in H.
    destruct (storeError env CreateArticle); by simplify_eq. }
  { apply raises_keeps; [|by left]. unfold createArticle.
    repeat keeps_step; first [apply store_keeps; by intros ?|apply keeps_ret]. }
  intros a.
  apply (raises_bind_returns _ _ (fun _ st => a = a0 /\ hasArticle a0 st)).
  { intros st u st' [-> _] H. unfold setArticle, modify in H.
    injection H as _ <-. done. }
  { apply raises_noThrow, noThrow_modify. }
  intros _ st e st' [-> Ha]. revert st e st' Ha.
  change (raises (hasArticle a0)
    (categoryStage env (id a0) ;;
     seoData <- seoStage env topic (id a0) ;;
     writingStage env topic (id a0) seoData ;;
     humanizingStage env topic (id a0) ;;
     visualStage env topic (id a0) ;;
     interactiveStage env topic (id a0) ;;
     finalReviewStage env topic (id a0) ;;
     a' <- updateArticle env MarkReview (id a0) [SetStatus review] ;;
     setArticle a' ;;
     Pipeline.emit topic "finalReview"
       "Pipeline completed successfully. Article is ready for preview.")
    (fun st => noArticle st \/ hasArticle a0 st)).
  apply raises_bind; [apply categoryStage_article|by right|intros _].
  apply raises_bind; [apply seoStage_article|by right|intros seo].
  apply raises_bind; [apply writingStage_article|by right|intros _].
  apply raises_bind; [apply humanizingStage_article|by right|intros _].
  apply raises_bind; [apply visualStage_article|by right|intros _].
  apply raises_bind; [apply interactiveStage_article|by right|intros _].
  apply raises_bind; [apply finalReviewStage_article|by right|intros _].
  apply raises_bind; [apply updateArticle_article|by right|intros a'].
  apply raises_noThrow.
  apply noThrow_bind; [apply noThrow_modify|intros _; apply noThrow_modify].
Qed.

(** [updateArticle] returns the row it has written. *)
Lemma updateArticle_row c i us st a st' :
  updateArticle env c i us st = (Ok a, st') ->
  articles (db st') !! i = Some a
  /\ (exists row, articles (db st) !! i = Some row /\ a = applyUpdates row us).
Proof.
  unfold updateArticle, store, bind, gets, ret, throw. simpl.
  destruct (articles (db st) !! i) as [row|]; destruct (storeError env c);
    intros H; simplify_eq. simpl. rewrite lookup_insert_eq. split; [done|].
  by exists row.
Qed.

(** When the body of the outer [try] returns, [result] holds the
    row of the table. *)
Lemma pipelineBody_row d st :
  pipelineBody env topic author (start d) = (Ok tt, st) ->
  exists a, article (result st) = Some a
            /\ articles (db st) !! newArticleId env = Some a.
Proof.
  unfold pipelineBody. intros H.
  apply bind_ok in H as (? & ? & _ & H).
  apply bind_ok in H as (? & ? & _ & H).
  apply bind_ok in H as (a & ? & Hc & H).
  apply createArticle_spec in Hc as (_ & Hid & _). cbv zeta in H.
  rewrite Hid in H.
  do 8 (apply bind_ok in H as (? & ? & _ & H)).
  apply bind_ok in H as (a' & st1 & Hm & H).
  apply updateArticle_row in Hm as [Hrow _].
  apply bind_ok in H as (? & ? & [= <- <-] & [= <-]).
  by exists a'.
Qed.

(** *** Runs as a whole *)

(** [createArticle] returns the record it has built. *)
Lemma carries_created {B : Type} (P P2 : St -> Prop) (f : Article -> M B) :
  (forall st, P st ->
     P (withDb (withArticles (fun m => <[newArticleId env := a0]> m)) st)) ->
  (forall st, P st -> P2 st) ->
  carries P (f a0) P2 ->
  carries P (bind (createArticle env topic author) f) P2.
Proof.
  intros Hdb H12 Hf st o st' HP H. unfold bind in H.
  destruct (createArticle env topic author st) as [[a|e|] st1] eqn:Hc;
    unfold createArticle, store, bind, ret in Hc;
    destruct (storeError env CreateArticle); simplify_eq.
  - eapply Hf; [|exact H]. by apply Hdb.
  - by apply H12.
Qed.

Lemma executePipelineM_places l :
  carries (placesAre l) (executePipelineM env topic author)
    (placesGrown l (newArticleId env) 1 3).
Proof.
  unfold executePipelineM.
  apply (carries_bind _ (placesGrown l (newArticleId env) 1 3));
    [|done|intros _; apply carries_keeps, keeps_gets].
  apply (carries_try _ (placesGrown l (newArticleId env) 1 3)); [|done|].
  2:{ intros e. apply carries_keeps, keeps_grown. intros l'.
      unfold pipelineFailed. places_tac. }
  unfold pipelineBody.
  apply (carries_bind _ (placesAre l)); [|apply grown_none|intros _].
  { apply carries_keeps. places_tac. }
  apply (carries_bind _ (placesAre l)); [|apply grown_none|intros _].
  { apply carries_keeps. places_tac. }
  apply carries_created; [done|apply grown_none|]. cbv zeta.
  change (id a0) with (newArticleId env).
  apply (carries_bind _ (placesAre l)); [|apply grown_none|intros _].
  { apply carries_keeps. places_tac. }
  apply (carries_bind _ (placesAre l)); [|apply grown_none|intros _].
  { apply carries_keeps. unfold categoryStage. places_tac. }
  apply (carries_bind _ (placesAre l)); [|apply grown_none|intros seo].
  { apply carries_keeps. unfold seoStage. places_tac. }
  apply (carries_bind _ (placesAre l)); [|apply grown_none|intros _].
  { apply carries_keeps. unfold writingStage. places_tac. }
  apply (carries_bind _ (placesAre l)); [|apply grown_none|intros _].
  { apply carries_keeps. unfold humanizingStage. places_tac. }
  apply (carries_bind _ (placesGrown l (newArticleId env) 1 3));
    [apply visualStage_places|done|intros _].
  apply carries_keeps, keeps_grown. intros l'.
  unfold interactiveStage, finalReviewStage, createComponent. places_tac.
Qed.

(** *** The rows of other articles *)

Section Others.
Variable j : string.
Variable v : option Article.
Hypothesis Hj : j <> newArticleId env.

Ltac rows_prim :=
  first
    [ solve [apply updateArticle_keeps; intros ? ? ?; unfold rowIs in *;
             simpl; by rewrite lookup_insert_ne]
    | solve [apply store_keeps; by intros ?]
    | solve [apply ask_keeps; by intros ?]
    | solve [intros ? ? ? ? [= <- <-]; done] ].

Ltac rows_tac := repeat keeps_step; rows_prim.

Lemma processImages_rows i ps : forall n,
  keeps (rowIs j v) (processImages env i n ps).
Proof using Type.
  induction ps as [|p ps IH]; intros n; simpl; [apply keeps_ret|].
  apply keeps_bind; [|intros _; apply IH].
  unfold processImage, createArticleImage, uploadImage, updateImageUrl.
  rows_tac.
Qed.

Lemma pipelineBody_rows : keeps (rowIs j v) (pipelineBody env topic author).
Proof using Hj.
  unfold pipelineBody.
  apply keeps_bind; [rows_tac|intros _].
  apply keeps_bind; [rows_tac|intros _].
  apply carries_created; [|done|].
  { intros st Hst. unfold rowIs in *. simpl. by rewrite lookup_insert_ne. }
  apply carries_keeps. cbv zeta. change (id a0) with (newArticleId env).
  unfold categoryStage, seoStage, writingStage, humanizingStage, visualStage,
    interactiveStage, finalReviewStage, thumbnail, uploadImage,
    createComponent.
  repeat keeps_step; try rows_prim. apply processImages_rows.
Qed.

Lemma pipelineFailed_rows e st o st' :
  noArticle st \/ hasArticle a0 st ->
  rowIs j v st ->
  pipelineFailed env e st = (o, st') ->
  rowIs j v st'.
Proof using Hj.
  intros Ha Hrow H. unfold pipelineFailed in H.
  unfold noArticle, hasArticle in Ha.
  apply bind_inv in H as [(r & st1 & [= <- <-] & H)|[(? & ? & _)|[? _]]];
    [|done|done].
  destruct Ha as [Ha|Ha]; rewrite Ha in H.
  - revert Hrow H. generalize st o st'.
    change (keeps (rowIs j v)
      (ret tt ;; pushError ("Pipeline failed: " +:+ render e))).
    rows_tac.
  - change (id a0) with (newArticleId env) in H.
    revert Hrow H. generalize st o st'.
    change (keeps (rowIs j v)
      ((if truthy (newArticleId env)
        then _ <- updateArticle env MarkDraft (newArticleId env)
                    [SetStatus draft] ;; ret tt
        else ret tt) ;;
       pushError ("Pipeline failed: " +:+ render e))).
    rows_tac.
Qed.

End Others.

End Run.

(** X11: a run adds at most three rows to [article_images], all of
    the new article, at positions 1, 2 and 3 in that order; the rows
    that were there keep their article and position. *)
Theorem image_rows env topic author d :
  exists k, k <= 3
    /\ map placed (article_images (db (snd (executePipeline env topic author d))))
       = map placed (article_images d)
         ++ map (fun p => (newArticleId env, p)) (seq 1 k).
Proof.
  unfold executePipeline.
  destruct (executePipelineM env topic author (start d)) as [o st] eqn:H.
  by eapply (executePipelineM_places env topic author _ _ _ _ eq_refl H).
Qed.

(** X12: a run reads and writes the row of its own article only:
    under every other key the table holds what it held before. *)
Theorem other_rows_untouched env topic author d j :
  j <> newArticleId env ->
  articles (db (snd (executePipeline env topic author d))) !! j = articles d !! j.
Proof.
  intros Hj. unfold executePipeline, executePipelineM.
  destruct (bind _ _ (start d)) as [o st] eqn:H. simpl.
  assert (rowIs j (articles d !! j) (start d)) as H0 by done.
  apply bind_inv in H as [(u & st1 & H & [= _ <-])|[(e & H & _)|[H _]]];
    (apply tryCatch_inv in H as [(e0 & st0 & Hb & Hc)|[Hb _]];
     [|by eapply (pipelineBody_rows env topic author j _ Hj _ _ _ H0 Hb)]);
    (eapply (pipelineFailed_rows env topic author j _ Hj); [| |exact Hc];
     [by eapply (pipelineBody_raises env topic author (start d) _ _ eq_refl Hb)
     |by eapply (pipelineBody_rows env topic author j _ Hj _ _ _ H0 Hb)]).
Qed.

(** X12 at work: a table that holds another article. *)
Lemma other_rows_untouched_witness :
  "a0" <> newArticleId SampleRuns.quietEnv
  /\ articles
       (db (snd (executePipeline SampleRuns.quietEnv "T" None
                   (withArticles
                      (insert "a0" (createdRecord SampleRuns.writingFails "U" None))
                      SampleRuns.emptyDb)))) !! "a0"
     = Some (createdRecord SampleRuns.writingFails "U" None).
Proof.
  split; [done|].
  rewrite (other_rows_untouched SampleRuns.quietEnv "T" None _ "a0") by done.
  simpl. by rewrite lookup_insert_eq.
Defined.

Lemma map_imap {A B C} (g : B -> C) (l : list A) : forall f : nat -> A -> B,
  map g (imap f l) = imap (fun i x => g (f i x)) l.
Proof.
  induction l as [|x l IH]; intros f; [done|]. simpl. f_equal. apply IH.
Qed.

(** X13: a client that subscribed to the topic of a run, up to case
    and surrounding white space, before the run began is sent the
    acknowledgement and then every event of the run, in order; a
    client of another topic is sent none of them. *)
Theorem run_events_reach_subscriber env topic author d
    (subscribed t : string) (bus : Bus) (clock : nat -> string) :
  let events := emitted (snd (executePipeline env topic author d)) in
  receivedByLast (emitAll (timed events clock) (streamProgress subscribed t bus))
  = connectedEvent t ::
    if decide (trim (toLowerCase subscribed) = trim (toLowerCase topic))
    then imap (fun i e => toMessage e (clock i)) events
    else [].
Proof.
  intros events.
  replace (imap (fun i e => toMessage e (clock i)) events)
    with (map (fun e => toMessage (fst e) (snd e)) (timed events clock))
    by (unfold timed; by rewrite map_imap).
  unfold streamProgress.
  rewrite C5.emitAll_snoc, C5.receivedByLast_snoc, C5.forwardTo_received.
  simpl. f_equal.
  assert (Forall (ofTopic topic) events) as Hall.
  { unfold events, executePipeline.
    destruct (executePipelineM env topic author (start d)) as [o st] eqn:H.
    eapply (executePipelineM_events env topic author); [|exact H].
    unfold itsEvents. simpl. constructor. }
  assert (forall e, e ∈ timed events clock ->
            matchesTopic subscribed (fst e)
            = bool_decide (trim (toLowerCase subscribed) = trim (toLowerCase topic)))
    as Hsame.
  { intros [ev tm] Hin. simpl.
    assert (ofTopic topic ev) as Hev.
    { rewrite Forall_forall in Hall. apply Hall.
      unfold timed in Hin.
      apply elem_of_lookup_imap in Hin as (i & y & [= -> _] & Hy).
      by eapply list_elem_of_lookup_2. }
    unfold matchesTopic, normalize. rewrite Hev. simpl.
    destruct (String.eqb_spec (trim (toLowerCase topic))
                (trim (toLowerCase subscribed))) as [E|E]; symmetry.
    - by apply bool_decide_eq_true.
    - apply bool_decide_eq_false. congruence. }
  induction (timed events clock) as [|e l IH]; [by case_decide|].
  rewrite filter_cons, (Hsame e) by (apply elem_of_cons; by left).
  specialize (IH (fun e' He' =>
    Hsame e' (proj2 (elem_of_cons l e' e) (or_intror He')))).
  case_decide as E.
  - rewrite decide_True by (by apply bool_decide_eq_true). simpl. by rewrite IH.
  - rewrite decide_False by (by rewrite bool_decide_eq_true). done.
Qed.

(** X14: what the caller of a run that returns holds in
    [result.article].  After a run without fatal failure it is the
    row of the table, in status review.  After a fatal failure it is
    still the record as [createArticle] returned it, in status
    processing and without content, while the row of the table is in
    draft. *)
Theorem returned_record env topic author d r st a :
  executePipeline env topic author d = (Ok r, st) ->
  article r = Some a ->
  id a <> "" ->
  (~ fatalFailure env topic author d ->
     articles (db st) !! id a = Some a /\ status a = review)
  /\ (fatalFailure env topic author d ->
        a = createdRecord env topic author
        /\ status a = processing /\ content_markdown a = None
        /\ statusOf (db st) (id a) = Some draft).
Proof.
  intros Hrun Hart Hid.
  apply executePipeline_returns in Hrun as [-> [Hbody|(e & st1 & Hbody & Hcatch)]].
  - (* the outer [try] ended normally *)
    split; [intros _|intros (e & st' & He); by rewrite Hbody in He].
    pose proof (pipelineBody_spec _ _ _ _ _ _ Hbody) as Hends. simpl in Hends.
    destruct Hends as (_ & _ & _ & (a1 & Ha1 & Hid1) & (row & Hrow & _ & Hs)).
    destruct (pipelineBody_row _ _ _ _ _ Hbody) as (a2 & Ha2 & Hrow2).
    unfold hasArticle in Ha1. simplify_eq. by rewrite Hid1.
  - (* an exception was caught *)
    split; [intros Hnot; exfalso; apply Hnot; by exists e, st1|intros _].
    assert (noArticle (start d)) as Hn0 by done.
    destruct (pipelineBody_raises _ _ _ _ _ _ Hn0 Hbody) as [Hn|Ha0].
    { apply (pipelineFailed_noRecord _ _ _ _ _ Hn) in Hcatch as [_ Hn'].
      unfold noArticle in Hn'. by rewrite Hart in Hn'. }
    pose proof (C1C2.pipelineFailed_article _ _ _ _ _ _ Ha0 Hcatch) as Ha1.
    unfold hasArticle in Ha1. rewrite Hart in Ha1. injection Ha1 as ->.
    split_and!; [done..|].
    pose proof (pipelineBody_spec _ _ _ _ _ _ Hbody) as Hends. simpl in Hends.
    destruct Hends as [[_ Hnone]|(_ & _ & Hs & _)].
    { unfold noArticle, hasArticle in *. by rewrite Ha0 in Hnone. }
    apply (pipelineFailed_record _ _ _ _ _ _ _ Ha0 Hid Hs) in Hcatch
      as (_ & Hdraft & _).
    by apply hasStatus_statusOf.
Qed.

(** X14 at work: the writing request fails. *)
Lemma returned_record_witness :
  exists r st a,
    executePipeline SampleRuns.writingFails "T" None SampleRuns.emptyDb = (Ok r, st)
    /\ article r = Some a
    /\ id a <> ""
    /\ status a = processing
    /\ statusOf (db st) (id a) = Some draft.
Proof.
  assert (exists r a,
            fst (executePipeline SampleRuns.writingFails "T" None SampleRuns.emptyDb)
            = Ok r /\ article r = Some a /\ id a = "a1") as Hfst.
  { vm_compute. by eexists _, _. }
  destruct (executePipeline SampleRuns.writingFails "T" None SampleRuns.emptyDb)
    as [o st] eqn:Hrun.
  simpl in Hfst. destruct Hfst as (r & a & -> & Hart & Hid).
  assert (id a <> "") as Hne by (by rewrite Hid).
  assert (fatalFailure SampleRuns.writingFails "T" None SampleRuns.emptyDb) as Hfatal.
  { unfold fatalFailure.
    destruct (pipelineBody SampleRuns.writingFails "T" None (start SampleRuns.emptyDb))
      as [ob stb] eqn:Hb.
    assert (exists e, ob = Throw e) as [e ->].
    { replace ob with
        (fst (pipelineBody SampleRuns.writingFails "T" None (start SampleRuns.emptyDb)))
        by (by rewrite Hb).
      vm_compute. by eexists. }
    by exists e, stb. }
  destruct (proj2 (returned_record _ _ _ _ _ _ _ Hrun Hart Hne) Hfatal)
    as (_ & Hs & _ & Hd).
  by exists r, st, a.
Defined.

(** X15: a run that returns without any entry in [errors] has
    completed every stage, and its record, the row of the table, is in
    status review. *)
Theorem clean_run env topic author d r st :
  executePipeline env topic author d = (Ok r, st) ->
  errors r = [] ->
  allStages (stages r)
  /\ exists a, article r = Some a
               /\ articles (db st) !! newArticleId env = Some a
               /\ status a = review.
Proof.
  intros Hrun Hclean.
  apply executePipeline_returns in Hrun as [-> [Hbody|(e & st1 & _ & Hcatch)]].
  2:{ exfalso. by eapply (pipelineFailed_dirty env e st1 tt st I Hcatch). }
  split.
  - assert (doneSoFar [] (start d)) as H0 by (intros _; constructor).
    pose proof (pipelineBody_done env topic author _ _ _ H0 Hbody Hclean) as Hall.
    unfold flagOn in Hall. simpl in Hall.
    repeat match goal with
           | H : Forall _ (_ :: _) |- _ => apply Forall_cons in H as [? H]
           end.
    by split_and!.
  - pose proof (pipelineBody_spec _ _ _ _ _ _ Hbody) as Hends. simpl in Hends.
    destruct Hends as (_ & _ & _ & _ & (row & Hrow & _ & Hs)).
    destruct (pipelineBody_row _ _ _ _ _ Hbody) as (a & Ha & Hrow2).
    exists a. split_and!; [done..|]. by simplify_eq.
Qed.

(** X15 at work: every call is answered. *)
Lemma clean_run_witness :
  exists r st,
    executePipeline SampleRuns.quietEnv "T" None SampleRuns.emptyDb = (Ok r, st)
    /\ errors r = []
    /\ allStages (stages r).
Proof.
  assert (exists r,
            fst (executePipeline SampleRuns.quietEnv "T" None SampleRuns.emptyDb)
            = Ok r /\ errors r = []) as Hfst.
  { vm_compute. by eexists. }
  destruct (executePipeline SampleRuns.quietEnv "T" None SampleRuns.emptyDb)
    as [o st] eqn:Hrun.
  simpl in Hfst. destruct Hfst as (r & -> & Herr).
  exists r, st. split_and!; [done..|].
  exact (proj1 (clean_run _ _ _ _ _ _ Hrun Herr)).
Defined.

(** X16: how [POST /articles/generate] is answered.  A run that
    returns is answered with [success: true] and the result of the
    run, whatever its errors; the request is refused, with status 500,
    only when the record had been created, the run failed fatally and
    the update that would put the record back to draft failed too. *)
Theorem generateArticle_reply env topic author d :
  match fst (generateArticle env topic author d) with
  | Replied g =>
      success g = true
      /\ data g = result (snd (generateArticle env topic author d))
  | Refused h =>
      http_status h = 500
      /\ storeError env CreateArticle = None
      /\ (writingFailure env <> None \/ storeError env MarkReview <> None)
      /\ exists e, storeError env MarkDraft = Some e
           /\ http_message h = "Failed to generate article: " +:+ render e
  | Pending => True
  end.
Proof.
  unfold generateArticle, serviceGenerateArticle.
  destruct (executePipeline env topic author d) as [[r|e|] st] eqn:Hrun; simpl;
    [| |done].
  - by apply executePipeline_returns in Hrun as [-> _].
  - unfold executePipeline, executePipelineM in Hrun.
    apply bind_inv in Hrun as [(u & st2 & _ & H)|[(e' & Hrun & [= <-])|[_ ?]]];
      [done| |done].
    apply tryCatch_inv in Hrun as [(e0 & st1 & Hbody & Hcatch)|[_ Hno]];
      [|by specialize (Hno e)].
    pose proof (pipelineBody_spec _ _ _ _ _ _ Hbody) as Hends. simpl in Hends.
    destruct Hends as [[_ Hnone]|(Hc & (a & Ha & Hida) & Hs & Hwhy)].
    { by apply (pipelineFailed_noRecord _ _ _ _ _ Hnone) in Hcatch as [? _]. }
    assert (id a <> "") as Hne.
    { intros Hnil. unfold pipelineFailed, bind, gets, pushError, modify in Hcatch.
      simpl in Hcatch. unfold hasArticle in Ha. rewrite Ha, Hnil in Hcatch.
      simpl in Hcatch. done. }
    rewrite <-Hida in Hs.
    apply (pipelineFailed_record _ _ _ _ _ _ _ Ha Hne Hs) in Hcatch.
    split_and!; [done|done| |by exists e].
    destruct Hwhy as [(e1 & -> & _)|[_ ->]]; [by left|by right].
Qed.

End RunFacts.

(** ** The configuration endpoint and the schedule *)

Module AgentApiFacts.
Import Js Supabase Pipeline Agent EffectFacts SchedulerFacts AgentFacts
  Articles AgentApi SampleWorlds.

(** A reconciliation leaves the configuration table alone. *)
Lemma setupScheduler_config env w :
  agent_config (snd (setupScheduler env w)) = agent_config w.
Proof.
  assert (keeps (fun x => agent_config x = agent_config w) (setupScheduler env))
    as Hkeeps.
  { unfold setupScheduler, updateCron, stopCron.
    repeat PipelineFacts.keeps_step;
      (intros x o x' HP H;
       unfold deleteCronJob, newCronJob, addCronJob, modify in H;
       repeat case_match; by simplify_eq). }
  destruct (setupScheduler env w) as [o w'] eqn:H.
  exact (Hkeeps w o w' eq_refl H).
Qed.

Lemma filter_none (rows : list AgentConfig) :
  Forall (fun c => is_active c = false) rows ->
  filter (fun c => is_active c = true) rows = [].
Proof.
  induction 1 as [|c rows Hc _ IH]; [done|].
  rewrite filter_cons_False by (by rewrite Hc). done.
Qed.

(** Without an active row the update finds nothing to write and is
    answered with an error. *)
Lemma updateSingle_none env u w :
  Forall (fun c => is_active c = false) (agent_config w) ->
  updateSingle env u w = (None, w).
Proof.
  intros Hoff. unfold updateSingle.
  rewrite (filter_none _ Hoff). by destruct (updateAnswered env).
Qed.

(** X17: when no row of the configuration is active,
    [POST /agent/config] is refused with "Update failed" and changes
    nothing: no row is written and the scheduler is not reconciled.
    An agent that has been switched off cannot be switched on again
    through this endpoint. *)
Theorem updateConfig_locked env u w :
  Forall (fun c => is_active c = false) (agent_config w) ->
  updateConfig env u w = (Refused updateFailed, w).
Proof.
  intros Hoff. unfold updateConfig. by rewrite updateSingle_none.
Qed.

(** X17 at work: the agent is off and the request asks to switch it
    on. *)
Lemma updateConfig_locked_witness :
  Forall (fun c => is_active c = false) (agent_config (freshWorld (config 30 false)))
  /\ updateConfig
       {| service := calmEnv; updateAnswered := true; keptOnError := false |}
       {| new_interval_minutes := None; new_is_active := Some true |}
       (freshWorld (config 30 false))
     = (Refused updateFailed, freshWorld (config 30 false)).
Proof.
  assert (Forall (fun c => is_active c = false)
            (agent_config (freshWorld (config 30 false)))) as Hoff.
  { by apply Forall_singleton. }
  split; [exact Hoff|]. by apply updateConfig_locked.
Defined.

(** The update of the only row, which is active. *)
Lemma updateSingle_one env u w c :
  agent_config w = [c] -> is_active c = true -> updateAnswered env = true ->
  updateSingle env u w = (Some (applyConfig u c), withConfig (fun _ => [applyConfig u c]) w).
Proof.
  intros Hrows Hact Hans. unfold updateSingle. rewrite Hans, Hrows.
  rewrite filter_cons_True by done. simpl.
  unfold withConfig, updateActive. rewrite Hrows. simpl. by rewrite Hact.
Qed.

(** X18: switching the agent off through [POST /agent/config]
    answers with the row, leaves no timer armed, and is final: every
    later request to the endpoint is refused and changes nothing. *)
Theorem switch_off_is_final env w c :
  wellFormed w ->
  agent_config w = [c] -> is_active c = true ->
  updateAnswered env = true -> configSelect (service env) = Ok true ->
  let off := {| new_interval_minutes := None; new_is_active := Some false |} in
  let w' := snd (updateConfig env off w) in
  fst (updateConfig env off w)
  = Replied {| config_success := true; config_data := applyConfig off c |}
  /\ is_active (applyConfig off c) = false
  /\ agent_config w' = [applyConfig off c]
  /\ armed w' = []
  /\ forall env' u, updateConfig env' u w' = (Refused updateFailed, w').
Proof.
  intros Hwf Hrows Hact Hans Hsel off w'.
  set (w1 := withConfig (fun _ => [applyConfig off c]) w).
  assert (updateConfig env off w
          = (Replied {| config_success := true; config_data := applyConfig off c |},
             snd (setupScheduler (service env) w1)) /\
          armed (snd (setupScheduler (service env) w1)) = []) as [Heq Harmed].
  { unfold updateConfig. rewrite (updateSingle_one _ _ _ _ Hrows Hact Hans).
    fold w1. destruct (setupScheduler (service env) w1) as [o w2] eqn:Hsetup.
    assert (wellFormed w1) as Hwf1 by exact Hwf.
    destruct (C6C7C8.setupScheduler_spec _ _ _ _ Hwf1 Hsetup) as (_ & _ & Hcase).
    unfold loaded in Hcase. rewrite Hsel in Hcase. simpl in Hcase.
    by destruct Hcase as (-> & ? & _). }
  assert (agent_config w' = [applyConfig off c]) as Hcfg.
  { unfold w'. rewrite Heq. simpl. by rewrite setupScheduler_config. }
  split_and!; [by rewrite Heq|done|done|by unfold w'; rewrite Heq|].
  intros env' u. unfold updateConfig. rewrite updateSingle_none; [done|].
  rewrite Hcfg. by apply Forall_singleton.
Qed.

(** X18 at work: the world armed for 30 minutes. *)
Lemma switch_off_is_final_witness :
  wellFormed every30
  /\ agent_config every30 = [config 30 true]
  /\ armed every30 = [{| cronTime := "0 */30 * * * *"; running := true |}]
  /\ armed (snd (updateConfig
                   {| service := calmEnv; updateAnswered := true;
                      keptOnError := false |}
                   {| new_interval_minutes := None; new_is_active := Some false |}
                   every30)) = [].
Proof.
  assert (wellFormed every30) as Hwf.
  { apply C6C7C8.reachable_inv, C6C7C8.every30_reachable. }
  split_and!; [done|by vm_compute|by vm_compute|].
  exact (proj1 (proj2 (proj2 (proj2
    (switch_off_is_final
       {| service := calmEnv; updateAnswered := true; keptOnError := false |}
       every30 (config 30 true) Hwf eq_refl eq_refl eq_refl eq_refl))))).
Defined.

(** X19: a new interval sent to [POST /agent/config] reaches the
    scheduler in the same request: the row is updated, the timer that
    was armed is replaced, and exactly one timer is armed, for the new
    interval. *)
Theorem new_interval_is_scheduled env w c n :
  wellFormed w ->
  agent_config w = [c] -> is_active c = true ->
  updateAnswered env = true -> configSelect (service env) = Ok true ->
  (0 < n)%Z ->
  cronAccepts (service env) (cronExpression n) = true ->
  let u := {| new_interval_minutes := Some n; new_is_active := None |} in
  let w' := snd (updateConfig env u w) in
  fst (updateConfig env u w)
  = Replied {| config_success := true; config_data := applyConfig u c |}
  /\ interval_minutes <$> agent_config w' = [Some n]
  /\ armed w' = [{| cronTime := cronExpression n; running := true |}].
Proof.
  intros Hwf Hrows Hact Hans Hsel Hpos Hacc u w'.
  set (w1 := withConfig (fun _ => [applyConfig u c]) w).
  assert (intervalMins (applyConfig u c) = n) as Hn.
  { unfold intervalMins. simpl. destruct n; [lia|done|done]. }
  assert (updateConfig env u w
          = (Replied {| config_success := true; config_data := applyConfig u c |},
             snd (setupScheduler (service env) w1)) /\
          armed (snd (setupScheduler (service env) w1))
          = [{| cronTime := cronExpression n; running := true |}])
    as [Heq Harmed].
  { unfold updateConfig. rewrite (updateSingle_one _ _ _ _ Hrows Hact Hans).
    fold w1. destruct (setupScheduler (service env) w1) as [o w2] eqn:Hsetup.
    assert (wellFormed w1) as Hwf1 by exact Hwf.
    destruct (C6C7C8.setupScheduler_spec _ _ _ _ Hwf1 Hsetup) as (_ & _ & Hcase).
    unfold loaded in Hcase. rewrite Hsel in Hcase. simpl in Hcase.
    rewrite Hact in Hcase. fold (intervalMins (applyConfig u c)) in Hcase.
    rewrite Hn, Hacc in Hcase. by destruct Hcase as (-> & ?). }
  split_and!; [by rewrite Heq| |by unfold w'; rewrite Heq].
  unfold w'. rewrite Heq. simpl. by rewrite setupScheduler_config.
Qed.

(** X19 at work: from 30 minutes to 3 hours. *)
Lemma new_interval_is_scheduled_witness :
  wellFormed every30
  /\ armed every30 = [{| cronTime := "0 */30 * * * *"; running := true |}]
  /\ armed (snd (updateConfig
                   {| service := calmEnv; updateAnswered := true;
                      keptOnError := false |}
                   {| new_interval_minutes := Some 180%Z; new_is_active := None |}
                   every30))
     = [{| cronTime := "0 0 */3 * * *"; running := true |}].
Proof.
  assert (wellFormed every30) as Hwf.
  { apply C6C7C8.reachable_inv, C6C7C8.every30_reachable. }
  split_and!; [done|by vm_compute|].
  exact (proj2 (proj2
    (new_interval_is_scheduled
       {| service := calmEnv; updateAnswered := true; keptOnError := false |}
       every30 (config 30 true) 180 Hwf eq_refl eq_refl eq_refl eq_refl
       eq_refl eq_refl))).
Defined.

(** X20: an active configuration without an interval, or with the
    interval 0, is scheduled every two hours. *)
Theorem default_interval env w config :
  wellFormed w ->
  loaded env w = Some config ->
  is_active config = true ->
  interval_minutes config = None \/ interval_minutes config = Some 0%Z ->
  cronAccepts env "0 0 */2 * * *" = true ->
  fst (setupScheduler env w) = Ok tt
  /\ armed (snd (setupScheduler env w))
     = [{| cronTime := "0 0 */2 * * *"; running := true |}].
Proof.
  intros Hwf Hload Hact Hint Hacc.
  destruct (setupScheduler env w) as [o w'] eqn:Hsetup.
  destruct (C6C7C8.setupScheduler_spec _ _ _ _ Hwf Hsetup) as (_ & _ & Hcase).
  rewrite Hload, Hact in Hcase.
  assert (cronExpression (intervalMins config) = "0 0 */2 * * *") as Hexp.
  { unfold intervalMins. by destruct Hint as [->| ->]. }
  rewrite Hexp, Hacc in Hcase. by destruct Hcase.
Qed.

(** X20 at work: the interval is 0. *)
Lemma default_interval_witness :
  wellFormed (freshWorld (config 0 true))
  /\ loaded calmEnv (freshWorld (config 0 true)) = Some (config 0 true)
  /\ armed (snd (setupScheduler calmEnv (freshWorld (config 0 true))))
     = [{| cronTime := "0 0 */2 * * *"; running := true |}].
Proof.
  assert (wellFormed (freshWorld (config 0 true))) as Hwf.
  { intros h j Hj. by vm_compute in Hj. }
  split_and!; [done|by vm_compute|].
  exact (proj2 (default_interval calmEnv _ (config 0 true) Hwf eq_refl eq_refl
                  (or_intror eq_refl) eq_refl)).
Defined.

(** *** What a run leaves alone *)

Section Service.
Variable env : Agent.Env.
Variable s : gmap string nat * list CronJob * list (option Z * bool).

Abbreviation scheduled := (scheduled s).

Ltac world_prim :=
  let w := fresh "w" in let o := fresh "o" in let w' := fresh "w'" in
  let HP := fresh "HP" in let H := fresh "H" in
  intros w o w' HP H;
  unfold now, modify, gets, ret, throw in H;
  repeat case_match; simplify_eq; done.

Lemma updateRunStatus_schedule run status entry tp art :
  keeps scheduled (updateRunStatus env run status entry tp art).
Proof.
  unfold updateRunStatus.
  repeat (first [apply keeps_bind; [|intros ?] | case_match]); world_prim.
Qed.

Lemma touchActive_schedule t rows :
  map (fun c => (interval_minutes c, is_active c)) (map (touchActive t) rows)
  = map (fun c => (interval_minutes c, is_active c)) rows.
Proof.
  induction rows as [|c rows IH]; simpl; [done|]. rewrite IH. f_equal.
  unfold touchActive. by destruct (is_active c) eqn:E; simpl; rewrite ?E.
Qed.

Lemma executeAgentRun_schedule : keeps scheduled (executeAgentRun env).
Proof.
  unfold executeAgentRun. destruct (runInsert env) as [run|]; [|apply keeps_ret].
  apply keeps_bind; [world_prim|intros _].
  apply keeps_tryCatch; [|intros e; apply updateRunStatus_schedule].
  apply keeps_bind; [apply updateRunStatus_schedule|intros _].
  apply keeps_bind.
  { unfold brainstormTopic. destruct (titlesError env); [apply keeps_throw|].
    apply keeps_bind; [|intros ?; apply keeps_ret].
    by intros w o w' HP [= <- <-]. }
  intros topicPrompt.
  apply keeps_bind; [apply updateRunStatus_schedule|intros _].
  apply keeps_bind.
  { intros w o w' HP H. unfold Agent.generateArticle in H.
    destruct (executePipeline (pipelineEnv env) topicPrompt None (store w))
      as [o1 st].
    by simplify_eq. }
  intros result.
  destruct (article result) as [a|]; [|apply keeps_throw].
  destruct (truthy (id a)); [|apply keeps_throw].
  apply keeps_bind; [apply updateRunStatus_schedule|intros _].
  apply keeps_bind; [world_prim|intros t].
  unfold touchConfig. destruct (configTouch env); [|apply keeps_ret].
  intros w o w' HP [= <- <-]. unfold scheduled, schedule in *. simpl.
  by rewrite touchActive_schedule.
Qed.

End Service.

(** X21: an agent run, however it ends, leaves the schedule as it
    was: the registry and the timers, and the interval and activity
    of every row of the configuration. *)
Theorem run_leaves_schedule env w :
  schedule (snd (executeAgentRun env w)) = schedule w.
Proof.
  destruct (executeAgentRun env w) as [o w'] eqn:H.
  exact (executeAgentRun_schedule env (schedule w) w o w' eq_refl H).
Qed.

End AgentApiFacts.
